(** * One-step CASSCF optimiser (pyscf mcscf/mc1step.py) and the k-point
      Hartree-Fock energy (pyscf pbc/scf/khf.py): a shallow embedding.

    NumPy float64 scalars are idealised as real numbers; one- and
    two-dimensional arrays are lists and lists of rows.  Python exceptions
    are an explicit result type. *)

From Stdlib Require Import String.
From Stdlib Require Import Reals Lra Lia List Bool Arith.
From Stdlib Require Import Sorted.
Import ListNotations.
Open Scope R_scope.

(** ** Python values shared by both modules *)

Inductive exn : Type :=
| RuntimeError (msg : string)
| UnboundLocalError (name : string)
| NameError (name : string)
| ZeroDivisionError
| ValueError (msg : string)
| IndexError (msg : string).

Inductive result (A : Type) : Type :=
| Ok (a : A)
| Raise (e : exn).
Arguments Ok {A} a.
Arguments Raise {A} e.

Definition bind {A B : Type} (r : result A) (k : A -> result B) : result B :=
  match r with
  | Ok a => k a
  | Raise e => Raise e
  end.

Notation "x <- r ;; k" := (bind r (fun x => k))
  (at level 61, r at next level, right associativity).
Notation "' pat <- r ;; k" := (bind r (fun x => match x with pat => k end))
  (at level 61, pat pattern, r at next level, right associativity).

Definition raises {A : Type} (r : result A) : Prop :=
  exists e, r = Raise e.

Definition returns {A : Type} (r : result A) : Prop :=
  exists a, r = Ok a.

(** Comparison of two floats, as a Python bool. *)
Definition Rltb (x y : R) : bool := if Rlt_dec x y then true else false.
Definition Rgtb (x y : R) : bool := Rltb y x.
Definition Rleb (x y : R) : bool := if Rle_dec x y then true else false.
Definition Rgeb (x y : R) : bool := Rleb y x.

(** ** pbc/scf/khf.py *)

Module Khf.

Record complex : Type := mkC { real : R; imag : R }.

Definition C0 : complex := mkC 0 0.
Definition Cadd (a b : complex) : complex :=
  mkC (real a + real b) (imag a + imag b).
Definition Cmul (a b : complex) : complex :=
  mkC (real a * real b - imag a * imag b) (real a * imag b + imag a * real b).
Definition Cscale (x : R) (a : complex) : complex :=
  mkC (x * real a) (x * imag a).

(** A stack of matrices, one per k-point: shape (nkpts, nao, nao). *)
Definition kmatrix : Type := list (list (list complex)).

Definition Csum (l : list complex) : complex := fold_right Cadd C0 l.

Definition entry (m : list (list complex)) (i j : nat) : complex :=
  nth j (nth i m []) C0.

(** [np.einsum('kij,kji', a, b)]: the sum over k, i, j of a[k,i,j]*b[k,j,i]. *)
Definition einsum_kij_kji (a b : kmatrix) : complex :=
  Csum (map (fun ab : list (list complex) * list (list complex) =>
    let (ak, bk) := ab in
    Csum (map (fun i =>
      Csum (map (fun j => Cmul (entry ak i j) (entry bk j i))
                (seq 0 (length (nth i ak [])))))
      (seq 0 (length ak))))
    (combine a b)).

(** The mean-field object, as far as [energy_elec] reads it. *)
Record mean_field : Type := {
  make_rdm1 : kmatrix;
  get_hcore : kmatrix;
  get_veff : kmatrix -> kmatrix
}.

Definition or_default {A : Type} (o : option A) (d : A) : A :=
  match o with Some a => a | None => d end.

(** [abs] of a NumPy bool is that bool. *)
Definition abs_bool (b : bool) : bool := b.

Definition imag_tol : R := / 10000000000.

Definition energy_elec (mf : mean_field)
    (dm_kpts h1e_kpts vhf_kpts : option kmatrix) : result (R * R) :=
  let dm_kpts := or_default dm_kpts (make_rdm1 mf) in
  let h1e_kpts := or_default h1e_kpts (get_hcore mf) in
  let vhf_kpts := or_default vhf_kpts (get_veff mf dm_kpts) in
  let nkpts := length dm_kpts in
  if Nat.eqb nkpts 0 then Raise ZeroDivisionError else
  let e1 := Cscale (1 / INR nkpts) (einsum_kij_kji dm_kpts h1e_kpts) in
  let e_coul :=
    Cscale (/ 2) (Cscale (1 / INR nkpts) (einsum_kij_kji dm_kpts vhf_kpts)) in
  if abs_bool (Rgtb (imag e_coul) imag_tol)
  then Raise (RuntimeError "Coulomb energy has imaginary part, something is wrong!"%string)
  else
    let e1 := real e1 in
    let e_coul := real e_coul in
    Ok (e1 + e_coul, e_coul).

(** The Coulomb energy the function tests, for stating its behaviour. *)
Definition coulomb_energy (dm_kpts vhf_kpts : kmatrix) : complex :=
  Cscale (/ 2)
    (Cscale (1 / INR (length dm_kpts)) (einsum_kij_kji dm_kpts vhf_kpts)).

(** One k-point, one orbital; density 1, zero core Hamiltonian and a purely
    imaginary mean-field potential -2i: the Coulomb energy is -i. *)
Definition dm_one : kmatrix := [[[mkC 1 0]]].
Definition h1e_zero : kmatrix := [[[mkC 0 0]]].
Definition vhf_neg_imag : kmatrix := [[[mkC 0 (-2)]]].
Definition mf_unused : mean_field :=
  {| make_rdm1 := []; get_hcore := []; get_veff := fun _ => [] |}.

(** ** Occupations *)

(** [numpy.sort]: the ascending rearrangement of a float array. *)
Fixpoint insert_sorted (x : R) (l : list R) : list R :=
  match l with
  | [] => [x]
  | y :: t => if Rle_dec x y then x :: y :: t else y :: insert_sorted x t
  end.

Fixpoint sort (l : list R) : list R :=
  match l with
  | [] => []
  | x :: t => insert_sorted x (sort t)
  end.

(** [a[i]] for a Python integer [i]: a negative index counts from the end,
    an index outside [-len, len) is an IndexError. *)
Definition getitem (a : list R) (i : Z) : result R :=
  let n := Z.of_nat (length a) in
  if Z.leb 0 i && Z.ltb i n then Ok (nth (Z.to_nat i) a 0)
  else if Z.leb (- n) i && Z.ltb i 0 then Ok (nth (Z.to_nat (n + i)) a 0)
  else Raise (IndexError "index out of bounds"%string).

(** [get_occ]: [nelectron] is [mf.cell.nelectron], [mf_mo_energy] is
    [mf.mo_energy].  The log lines about HOMO and LUMO leave the result as
    it is. *)
Definition get_occ (nelectron : nat) (mf_mo_energy : list (list R))
    (mo_energy_kpts : option (list (list R))) : result (list (list R)) :=
  let mo_energy_kpts := or_default mo_energy_kpts mf_mo_energy in
  let nkpts := length mo_energy_kpts in
  let nocc := ((nelectron * nkpts) / 2)%nat in
  let mo_energy := sort (concat mo_energy_kpts) in
  fermi <- getitem mo_energy (Z.of_nat nocc - 1) ;;
  Ok (map (map (fun e => if Rleb e fermi then 2 else 0)) mo_energy_kpts).

(** The sum of all occupation numbers. *)
Definition total_occ (mo_occ_kpts : list (list R)) : R :=
  fold_right Rplus 0 (concat mo_occ_kpts).


(** One k-point with the two orbital energies -1 and 1. *)
Definition energies_two : list (list R) := [[-1; 1]].


End Khf.

(** ** mcscf/mc1step.py: arrays *)

Module Mc1step.

Definition vector : Type := list R.
Definition matrix : Type := list (list R).
Definition bmatrix : Type := list (list bool).

Definition mget (M : matrix) (i j : nat) : R := nth j (nth i M []) 0.
Definition bget (M : bmatrix) (i j : nat) : bool := nth j (nth i M []) false.

(** [M.shape == (n, m)] *)
Definition has_shape {A : Type} (M : list (list A)) (n m : nat) : Prop :=
  length M = n /\ Forall (fun row => length row = m) M.

Definition has_shapeb {A : Type} (M : list (list A)) (n m : nat) : bool :=
  Nat.eqb (length M) n && forallb (fun row => Nat.eqb (length row) m) M.

(** [numpy.zeros((n, m))] and [numpy.zeros((n, m), dtype=bool)] *)
Definition zeros (n m : nat) : matrix := repeat (repeat 0 m) n.
Definition zeros_bool (n m : nat) : bmatrix := repeat (repeat false m) n.

(** [numpy.eye(n)] *)
Definition eye (n : nat) : matrix :=
  map (fun i => map (fun j => if Nat.eqb i j then 1 else 0) (seq 0 n)) (seq 0 n).

Fixpoint mapi_from {A B : Type} (f : nat -> A -> B) (k : nat) (l : list A)
  : list B :=
  match l with
  | [] => []
  | x :: t => f k x :: mapi_from f (S k) t
  end.

(** Assignment of one value to every entry whose indices satisfy [p]; the
    slice and index-array assignments below are instances. *)
Definition set_where {A : Type} (p : nat -> nat -> bool) (b : A)
    (M : list (list A)) : list (list A) :=
  mapi_from (fun i row => mapi_from (fun j x => if p i j then b else x) 0 row)
            0 M.

Definition in_slice (lo hi i : nat) : bool := Nat.leb lo i && Nat.ltb i hi.

(** [M[r0:r1, c0:c1] = b] *)
Definition set_slice {A : Type} (r0 r1 c0 c1 : nat) (b : A)
    (M : list (list A)) : list (list A) :=
  set_where (fun i j => in_slice r0 r1 i && in_slice c0 c1 j) b M.

(** [M[lo:hi, lo:hi][numpy.tril_indices(hi - lo, -1)] = b]: the entries
    strictly below the diagonal of the square block. *)
Definition set_tril_block {A : Type} (lo hi : nat) (b : A)
    (M : list (list A)) : list (list A) :=
  set_where (fun i j => in_slice lo hi i && in_slice lo hi j && Nat.ltb j i)
            b M.

Definition mem_nat (i : nat) (l : list nat) : bool := existsb (Nat.eqb i) l.

(** [M[idx] = M[:, idx] = b] for an integer index array [idx] *)
Definition set_rows_cols {A : Type} (idx : list nat) (b : A)
    (M : list (list A)) : list (list A) :=
  set_where (fun i j => mem_nat i idx || mem_nat j idx) b M.

(** [mat.T] *)
Definition transpose (M : matrix) : matrix :=
  map (fun j => map (fun row => nth j row 0) M) (seq 0 (length (hd [] M))).

Fixpoint map2 {A B C : Type} (f : A -> B -> C) (a : list A) (b : list B)
  : list C :=
  match a, b with
  | x :: a', y :: b' => f x y :: map2 f a' b'
  | _, _ => []
  end.

(** [A - B] for two arrays of one shape *)
Definition msub (A B : matrix) : matrix := map2 (map2 Rminus) A B.

(** [numpy.count_nonzero(mask)] *)
Definition count_row (mrow : list bool) : nat :=
  length (filter (fun b : bool => b) mrow).
Definition count_true (mask : bmatrix) : nat :=
  fold_right (fun mrow n => (count_row mrow + n)%nat) 0%nat mask.

(** [mat[mask]]: the entries under the true positions, in row-major order *)
Fixpoint select_row (mrow : list bool) (row : list R) : vector :=
  match mrow, row with
  | b :: mrow', x :: row' =>
      if b then x :: select_row mrow' row' else select_row mrow' row'
  | _, _ => []
  end.

Fixpoint select (mask : bmatrix) (M : matrix) : vector :=
  match mask, M with
  | mrow :: mask', row :: M' => select_row mrow row ++ select mask' M'
  | _, _ => []
  end.

(** [mat[mask] = v] for [v] with one value per true position: the values are
    consumed in row-major order.  The rest of [v] is returned. *)
Fixpoint fill_row (mrow : list bool) (row : list R) (v : vector)
  : list R * vector :=
  match mrow, row with
  | b :: mrow', x :: row' =>
      if b then
        match v with
        | y :: v' => let (r, rest) := fill_row mrow' row' v' in (y :: r, rest)
        | [] => let (r, rest) := fill_row mrow' row' [] in (x :: r, rest)
        end
      else let (r, rest) := fill_row mrow' row' v in (x :: r, rest)
  | _, _ => (row, v)
  end.

Fixpoint fill (mask : bmatrix) (M : matrix) (v : vector) : matrix :=
  match mask, M with
  | mrow :: mask', row :: M' =>
      let (r, rest) := fill_row mrow row v in r :: fill mask' M' rest
  | _, _ => M
  end.

(** [mat[mask] = x] for a scalar (or a one-element array, by broadcasting) *)
Definition fill_const (mask : bmatrix) (M : matrix) (x : R) : matrix :=
  map2 (map2 (fun (b : bool) y => if b then x else y)) mask M.

(** ** The CASSCF object *)

(** [frozen]: a count of leading orbitals, or an array of orbital indices. *)
Inductive frozen_spec : Type :=
| FrozenCount (k : nat)
| FrozenIndices (idx : list nat).

Record casscf : Type := {
  nmo : nat;                       (* self.mo_coeff.shape[1] *)
  ncore : nat;
  ncas : nat;
  nelecas : nat * nat;
  frozen : option frozen_spec;
  internal_rotation : bool;
  max_stepsize : R;
  max_cycle_macro : Z;
  max_cycle_micro : Z;
  max_cycle_micro_inner : Z;
  conv_tol : R;
  conv_tol_grad : option R;
  ah_level_shift : R;
  ah_conv_tol : R;
  ah_max_cycle : Z;
  ah_lindep : R;
  ah_start_tol : R;
  ah_start_cycle : Z;
  ah_grad_trust_region : R;
  ci_response_space : Z;
  ci_grad_trust_region : R;
  with_dep4 : bool;
  canonicalization : bool;
  natorb : bool;
  max_memory : R
}.

Definition index_error : exn :=
  IndexError "index or boolean index does not match the array"%string.

(** [numpy.tril_indices(n, -1)]: the index pairs strictly below the diagonal
    of an n-by-n array, row by row. *)
Definition tril_indices (n : nat) : list (nat * nat) :=
  flat_map (fun i => map (fun j => (i, j)) (seq 0 i)) (seq 0 n).

(** The length of [a[lo:hi]] along an axis of length [n]: a slice is
    clipped to the axis. *)
Definition slice_length (lo hi n : nat) : nat :=
  (Nat.min hi n - Nat.min lo n)%nat.

(** Whether every index pair lies inside a square view of the given side;
    an integer index outside its axis is an IndexError. *)
Definition indices_in_view (side : nat) (ij : list (nat * nat)) : bool :=
  forallb (fun p => Nat.ltb (fst p) side && Nat.ltb (snd p) side) ij.

(** [CASSCF.uniq_var_indices].  The slice assignments clip to the array.
    The lower triangle of the active block is addressed by integer indices
    into the view [mask[ncore:nocc,ncore:nocc]], which is smaller than
    ncas-by-ncas when [nocc] exceeds [nmo].  [numpy.asarray] of an empty
    list is an array of floats, which is no index. *)
Definition uniq_var_indices (self : casscf) (nmo ncore ncas : nat)
    (frozen : option frozen_spec) : result bmatrix :=
  let nocc := (ncore + ncas)%nat in
  let mask := zeros_bool nmo nmo in
  let mask := set_slice ncore nocc 0 ncore true mask in
  let mask := set_slice nocc nmo 0 nocc true mask in
  mask <-
    (if internal_rotation self then
       if indices_in_view (slice_length ncore nocc nmo) (tril_indices ncas)
       then Ok (set_tril_block ncore nocc true mask)
       else Raise index_error
     else Ok mask) ;;
  match frozen with
  | None => Ok mask
  | Some (FrozenCount k) =>
      Ok (set_slice 0 nmo 0 k false (set_slice 0 k 0 nmo false mask))
  | Some (FrozenIndices idx) =>
      match idx with
      | [] => Raise index_error
      | _ :: _ =>
          if forallb (fun i => Nat.ltb i nmo) idx
          then Ok (set_rows_cols idx false mask)
          else Raise index_error
      end
  end.

(** [CASSCF.pack_uniq_var]; a boolean index of another shape than the
    array is an IndexError. *)
Definition pack_uniq_var (self : casscf) (mat : matrix) : result vector :=
  let nmo := nmo self in
  idx <- uniq_var_indices self nmo (ncore self) (ncas self) (frozen self) ;;
  if has_shapeb mat nmo nmo then Ok (select idx mat) else Raise index_error.

(** [CASSCF.unpack_uniq_var]: to an antisymmetric matrix.  A vector with
    neither one value per true position nor a single value cannot be
    assigned. *)
Definition unpack_uniq_var (self : casscf) (v : vector) : result matrix :=
  let nmo := nmo self in
  idx <- uniq_var_indices self nmo (ncore self) (ncas self) (frozen self) ;;
  mat <- (if Nat.eqb (length v) (count_true idx)
          then Ok (fill idx (zeros nmo nmo) v)
          else match v with
               | [x] => Ok (fill_const idx (zeros nmo nmo) x)
               | _ => Raise (ValueError "cannot assign input values to the mask"%string)
               end) ;;
  Ok (msub mat (transpose mat)).

(** The orbital ranges of the partition. *)
Definition is_core (self : casscf) (i : nat) : Prop := (i < ncore self)%nat.
Definition is_active (self : casscf) (i : nat) : Prop :=
  (ncore self <= i < ncore self + ncas self)%nat.
Definition is_virtual (self : casscf) (i : nat) : Prop :=
  (ncore self + ncas self <= i < nmo self)%nat.

Definition is_frozen (self : casscf) (i : nat) : Prop :=
  match frozen self with
  | None => False
  | Some (FrozenCount k) => (i < k)%nat
  | Some (FrozenIndices idx) => In i idx
  end.

(** The pairs [(i, j)] that stay zero whatever is unpacked: both orbitals in
    one block (active-active only without internal rotation), or one of them
    frozen. *)
Definition redundant (self : casscf) (i j : nat) : Prop :=
  (is_core self i /\ is_core self j) \/
  (is_active self i /\ is_active self j /\ internal_rotation self = false) \/
  (is_virtual self i /\ is_virtual self j) \/
  is_frozen self i \/ is_frozen self j.

(** A valid partition: the three ranges fit, and a list of frozen indices
    is not empty and names orbitals that exist. *)
Definition valid_partition (self : casscf) : Prop :=
  (ncore self + ncas self <= nmo self)%nat /\
  match frozen self with
  | Some (FrozenIndices idx) =>
      idx <> [] /\ Forall (fun i => (i < nmo self)%nat) idx
  | _ => True
  end.

Definition antisymmetric (n : nat) (M : matrix) : Prop :=
  has_shape M n n /\
  forall i j, (i < n)%nat -> (j < n)%nat -> mget M i j = - mget M j i.

(** ** Dense linear algebra (NumPy) *)

Definition vadd (a b : vector) : vector := map2 Rplus a b.
Definition vsub (a b : vector) : vector := map2 Rminus a b.
Definition vscale (c : R) (a : vector) : vector := map (fun x => x * c) a.
Definition vsum (a : vector) : R := fold_right Rplus 0 a.

(** [numpy.dot] of two vectors *)
Definition dot (a b : vector) : R := vsum (map2 Rmult a b).

(** [numpy.linalg.norm] of a vector, and of a matrix (Frobenius) *)
Definition norm (a : vector) : R := sqrt (dot a a).
Definition mnorm (M : matrix) : R := norm (concat M).

(** [numpy.max(abs(a))]; the maximum of an empty array is a ValueError. *)
Definition max_abs (a : vector) : result R :=
  match a with
  | [] => Raise (ValueError "zero-size array to reduction operation maximum"%string)
  | x :: t => Ok (fold_left Rmax (map Rabs t) (Rabs x))
  end.

Definition column (M : matrix) (j : nat) : vector :=
  map (fun row => nth j row 0) M.

(** [numpy.dot] of two matrices *)
Definition mmul (A B : matrix) : matrix :=
  map (fun row => map (fun j => dot row (column B j))
                      (seq 0 (length (hd [] B)))) A.

Definition mscale (c : R) (M : matrix) : matrix := map (vscale c) M.

(** [scipy.linalg.expm] is library code.  Its contract is the exponential
    series: entry by entry, the limit of the partial sums of A^k / k!. *)
Definition fsum (n : nat) (f : nat -> R) : R := vsum (map f (seq 0 n)).

Fixpoint mat_pow (n : nat) (A : nat -> nat -> R) (k : nat) (i j : nat) : R :=
  match k with
  | O => if Nat.eqb i j then 1 else 0
  | S k' => fsum n (fun s => A i s * mat_pow n A k' s j)
  end.

Definition expm_partial (n : nat) (A : nat -> nat -> R) (N : nat) (i j : nat)
  : R :=
  fsum (S N) (fun k => mat_pow n A k i j / INR (fact k)).

Definition is_expm (n : nat) (A U : matrix) : Prop :=
  has_shape U n n /\
  forall i j, (i < n)%nat -> (j < n)%nat ->
    Un_cv (fun N => expm_partial n (mget A) N i j) (mget U i j).

(** [expmat] *)
Definition expmat (expm : matrix -> matrix) (a : matrix) : matrix := expm a.

(** [CASSCF.update_rotate_matrix]; the default [u0=1] is the scalar one. *)
Definition update_rotate_matrix (expm : matrix -> matrix) (self : casscf)
    (dx : vector) (u0 : option matrix) : result matrix :=
  dr <- unpack_uniq_var self dx ;;
  match u0 with
  | None => Ok (mscale 1 (expmat expm dr))
  | Some u0 => Ok (mmul u0 (expmat expm dr))
  end.

(** [CASSCF.rotate_mo] (the debug log of the overlaps is not modelled) *)
Definition rotate_mo (self : casscf) (mo u : matrix) : matrix := mmul mo u.

(** Entry [(i, j)] of the mask in closed form, for stating what
    [uniq_var_indices] builds. *)
Definition frozenb (self : casscf) (i : nat) : bool :=
  match frozen self with
  | None => false
  | Some (FrozenCount k) => Nat.ltb i k
  | Some (FrozenIndices idx) => mem_nat i idx
  end.

Definition mask_entry (self : casscf) (i j : nat) : bool :=
  let nocc := (ncore self + ncas self)%nat in
  ((in_slice (ncore self) nocc i && in_slice 0 (ncore self) j)
   || (in_slice nocc (nmo self) i && in_slice 0 nocc j)
   || (internal_rotation self && in_slice (ncore self) nocc i
       && in_slice (ncore self) nocc j && Nat.ltb j i))
  && negb (frozenb self i) && negb (frozenb self j).

(** The number of non-redundant rotation parameters. *)
Definition uniq_count (self : casscf) : nat :=
  match uniq_var_indices self (nmo self) (ncore self) (ncas self)
          (frozen self) with
  | Ok idx => count_true idx
  | Raise _ => 0%nat
  end.

(** A matrix supported on the non-redundant positions and their mirror
    images. *)
Definition supported (self : casscf) (M : matrix) : Prop :=
  forall i j, (i < nmo self)%nat -> (j < nmo self)%nat ->
    mask_entry self i j = false -> mask_entry self j i = false ->
    mget M i j = 0.

(** The settings [CASSCF.__init__] installs, for [nmo] orbitals split into
    [ncore] core and [ncas] active ones. *)
Definition default_casscf (nmo ncore ncas : nat) (nelecas : nat * nat)
  : casscf := {|
  nmo := nmo;
  ncore := ncore;
  ncas := ncas;
  nelecas := nelecas;
  frozen := None;
  internal_rotation := false;
  max_stepsize := 3 / 100;
  max_cycle_macro := 50;
  max_cycle_micro := 4;
  max_cycle_micro_inner := 4;
  conv_tol := / 10000000;
  conv_tol_grad := None;
  ah_level_shift := / 100000000;
  ah_conv_tol := / 1000000000000;
  ah_max_cycle := 30;
  ah_lindep := / 100000000000000;
  ah_start_tol := 5 / 2;
  ah_start_cycle := 3;
  ah_grad_trust_region := 3;
  ci_response_space := 4;
  ci_grad_trust_region := 3;
  with_dep4 := false;
  canonicalization := true;
  natorb := false;
  max_memory := 4000
|}.

Definition with_frozen (self : casscf) (f : option frozen_spec) : casscf := {|
  nmo := nmo self;
  ncore := ncore self;
  ncas := ncas self;
  nelecas := nelecas self;
  frozen := f;
  internal_rotation := internal_rotation self;
  max_stepsize := max_stepsize self;
  max_cycle_macro := max_cycle_macro self;
  max_cycle_micro := max_cycle_micro self;
  max_cycle_micro_inner := max_cycle_micro_inner self;
  conv_tol := conv_tol self;
  conv_tol_grad := conv_tol_grad self;
  ah_level_shift := ah_level_shift self;
  ah_conv_tol := ah_conv_tol self;
  ah_max_cycle := ah_max_cycle self;
  ah_lindep := ah_lindep self;
  ah_start_tol := ah_start_tol self;
  ah_start_cycle := ah_start_cycle self;
  ah_grad_trust_region := ah_grad_trust_region self;
  ci_response_space := ci_response_space self;
  ci_grad_trust_region := ci_grad_trust_region self;
  with_dep4 := with_dep4 self;
  canonicalization := canonicalization self;
  natorb := natorb self;
  max_memory := max_memory self
|}.

(** Kronecker delta: the entries of the identity. *)
Definition delta (i j : nat) : R := if Nat.eqb i j then 1 else 0.

(** Three orbitals: one core, one active, one virtual; the same with the
    core orbital frozen by count, and with the virtual one frozen by index. *)
Definition cas3 : casscf := default_casscf 3 1 1 (1, 1)%nat.
Definition cas3_frozen_count : casscf := with_frozen cas3 (Some (FrozenCount 1)).
Definition cas3_frozen_index : casscf :=
  with_frozen cas3 (Some (FrozenIndices [2%nat])).

(** ** The CI solver and the CI response *)

Definition tensor4 : Type := list (list matrix).

(** The integral cache built by [mc_ao2mo._ERIS]. *)
Record eris_t : Type := {
  ppaa : tensor4;
  papa : tensor4;
  vhf_c : matrix;
  j_pc : matrix;
  k_pc : matrix
}.

(** An energy as a CI solver can return it: a Python float, int or complex,
    a NumPy scalar ([numpy.float64] and the like), a NumPy array without
    dimensions, or an array with one energy per root. *)
Inductive py_energy : Type :=
| PyFloat (x : R)
| PyInt (n : Z)
| PyComplex (re im : R)
| NpNumber (x : R)
| NpArray0d (x : R)
| NpArray (roots : list R).

(** [self.fcisolver], duck-typed: an absent method is [None].  The CI vector
    is kept flat, as [ravel()] returns it. *)
Record fcisolver_t : Type := {
  fci_kernel :
    matrix -> tensor4 -> nat -> nat * nat -> option vector ->
    option R (* tol *) -> R (* max_memory *) -> option Z (* max_cycle *) ->
    py_energy * vector;
  approx_kernel :
    option (matrix -> tensor4 -> nat -> nat * nat -> vector ->
            option R (* tol *) -> R (* max_memory *) -> py_energy * vector);
  contract_2e : option (tensor4 -> vector -> nat -> nat * nat -> vector);
  absorb_h1e : option (matrix -> tensor4 -> nat -> nat * nat -> R -> tensor4);
  make_rdm12 : vector -> nat -> nat * nat -> matrix * tensor4
}.

(** What a method reads of the [envs] dictionary it is handed: the entry
    ['norm_gorb'], when the dictionary has one. *)
Record envs_t : Type := { envs_norm_gorb : option R }.

(** The CI tolerance [solve_approx_ci] derives from [envs]. *)
Definition approx_ci_tol (self : casscf) (envs : envs_t) : option R :=
  match envs_norm_gorb envs with
  | Some norm_gorb => Some (Rmax (conv_tol self) (norm_gorb ^ 2 * / 10))
  | None => None
  end.

(** [heff], [seff] of the subspace response: entry [(i, j)] for [j <= i],
    mirrored above the diagonal. *)
Definition sym_entries (n : nat) (f : nat -> nat -> R) : matrix :=
  map (fun i => map (fun j => if Nat.leb j i then f i j else f j i) (seq 0 n))
      (seq 0 n).

(** The Krylov vectors [xs], [ax] after [k] passes of the loop, newest last. *)
Fixpoint krylov (contract : vector -> vector) (e_ci : R) (ci0 hc : vector)
    (k : nat) : list vector * list vector :=
  match k with
  | O => ([ci0], [hc])
  | S k' =>
      let (xs, ax) := krylov contract e_ci ci0 hc k' in
      let x := vsub (last ax []) (vscale e_ci (last xs [])) in
      (xs ++ [x], ax ++ [contract x])
  end.

(** [CASSCF.solve_approx_ci].  [safe_eigh] and [current_memory] are the
    routines of [pyscf.lib]. *)
Definition solve_approx_ci
    (safe_eigh : matrix -> matrix -> vector * matrix) (current_memory : R)
    (fcisolver : fcisolver_t)
    (self : casscf) (h1 : matrix) (h2 : tensor4) (ci0 : vector)
    (ecore e_ci : R) (envs : envs_t) : result (vector * option vector) :=
  let ncas := ncas self in
  let nelecas := nelecas self in
  let tol := approx_ci_tol self envs in
  match approx_kernel fcisolver with
  | Some fn =>
      let ci1 := snd (fn h1 h2 ncas nelecas ci0 tol (max_memory self)) in
      Ok (ci1, None)
  | None =>
      match contract_2e fcisolver, absorb_h1e fcisolver with
      | Some contract_2e, Some absorb_h1e =>
          let h2eff := absorb_h1e h1 h2 ncas nelecas (/ 2) in
          let hc := contract_2e h2eff ci0 ncas nelecas in
          let g := vsub hc (vscale (e_ci - ecore) ci0) in
          if Z.gtb (ci_response_space self) 7 then
            let max_memory := Rmax 400 (max_memory self - current_memory) in
            let ci1 := snd (fci_kernel fcisolver h1 h2 ncas nelecas (Some ci0)
                              tol max_memory None) in
            Ok (ci1, Some g)
          else
            let nd := Nat.min (Z.to_nat (Z.max (ci_response_space self) 2))
                              (length ci0) in
            match nd with
            | O => Raise index_error
            | S k =>
                let (xs, ax) :=
                  krylov (fun x => contract_2e h2eff x ncas nelecas)
                         e_ci ci0 hc k in
                let heff := sym_entries nd
                              (fun i j => dot (nth i xs []) (nth j ax [])) in
                let seff := sym_entries nd
                              (fun i j => match i, j with
                                          | O, O => 1
                                          | _, _ => dot (nth i xs []) (nth j xs [])
                                          end) in
                let v := snd (safe_eigh heff seff) in
                let ci1 :=
                  fold_left (fun acc i => vadd acc (vscale (mget v i 0) (nth i xs [])))
                            (seq 1 k) (vscale (mget v 0 0) (nth 0 xs [])) in
                Ok (ci1, Some g)
            end
      | _, _ =>
          let ci1 := snd (fci_kernel fcisolver h1 h2 ncas nelecas (Some ci0)
                            tol (max_memory self)
                            (Some (ci_response_space self))) in
          Ok (ci1, None)
      end
  end.

(** [ci1 *= 1/numpy.linalg.norm(ci1)].  For a vector of norm zero NumPy
    divides by zero and leaves entries that are no numbers; the real-number
    model has no such value, and what is stated about a normalised vector
    is stated for a non-zero norm. *)
Definition normalize (ci1 : vector) : vector := vscale (1 / norm ci1) ci1.

(** What the first block of [update_casdm] computes: [h1], [h2], [ecore]. *)
Record hessian_co_t : Type := {
  hco_h1 : matrix;
  hco_h2 : tensor4;
  hco_ecore : R
}.

(** [CASSCF.update_casdm].  [hessian_co] is the block of the method that
    builds the active-space integrals [h1], [h2] and the core response
    [ecore] of the rotated orbitals. *)
Definition update_casdm
    (hessian_co : casscf -> matrix -> matrix -> eris_t -> hessian_co_t)
    (safe_eigh : matrix -> matrix -> vector * matrix) (current_memory : R)
    (fcisolver : fcisolver_t)
    (self : casscf) (mo u : matrix) (fcivec : vector) (e_ci : R)
    (eris : eris_t) (envs : envs_t)
  : result (matrix * tensor4 * option vector * vector) :=
  let hco := hessian_co self mo u eris in
  '(ci1, g) <- solve_approx_ci safe_eigh current_memory fcisolver self
                 (hco_h1 hco) (hco_h2 hco) fcivec (hco_ecore hco) e_ci envs ;;
  let ci1 :=
    match g with
    | Some g => (* So state average CI, DMRG etc will not be applied *)
        let ovlp := dot fcivec ci1 in
        let norm_g := norm g in
        if Rgtb (1 - Rabs ovlp) (norm_g * ci_grad_trust_region self)
        then normalize (vadd fcivec g)
        else ci1
    | None => ci1
    end in
  let (casdm1, casdm2) := make_rdm12 fcisolver ci1 (ncas self) (nelecas self) in
  Ok (casdm1, casdm2, g, ci1).

(** ** The micro iterations of [rotate_orb_cc] *)

(** One item yielded by [ciah.davidson_cc]. *)
Record davidson_item : Type := {
  ah_end : bool;
  ihop : Z;
  w : R;
  dxi : vector;
  hdxi : vector;
  residual : vector;
  seig : R
}.

(** The local variables of [rotate_orb_cc] that one pass of its [for] loop
    reads and writes.  [dr] starts as the scalar [0] ([None]); the loop
    targets are unbound before the first item. *)
Record micro_state : Type := {
  ms_g_orb : vector;
  ms_dr : option vector;
  ms_norm_gorb0 : R;
  ms_norm_gorb : R;
  ms_norm_dr : R;
  ms_imic : Z;
  ms_item : option davidson_item
}.

(** [dxi *= scale; hdxi *= scale] when the largest component of [dxi]
    exceeds [max_stepsize]; returns the step, its Hessian image and
    [scale]. *)
Definition clip_step (max_stepsize : R) (dxi hdxi : vector)
  : result (vector * vector * option R) :=
  dxmax <- max_abs dxi ;;
  if Rgtb dxmax max_stepsize then
    let scale := max_stepsize / dxmax in
    Ok (vscale scale dxi, vscale scale hdxi, Some scale)
  else Ok (dxi, hdxi, None).

(** The test that lets a Davidson item through as a rotation step. *)
Definition accepts (self : casscf) (ah_start_tol : R) (ah_start_cycle : Z)
    (it : davidson_item) : bool :=
  let norm_residual := norm (residual it) in
  ah_end it || Z.eqb (ihop it) (ah_max_cycle self)
  || (Rltb norm_residual ah_start_tol && Z.geb (ihop it) ah_start_cycle)
  || Rltb (seig it) (ah_lindep self).

(** [0 + a] and [a + b]: the scalar start value broadcasts. *)
Definition add_step (dr : option vector) (dxi : vector) : vector :=
  match dr with
  | None => map (fun x => 0 + x) dxi
  | Some dr => vadd dr dxi
  end.

(** The body of the [if] for an accepted item, up to the tests that leave
    the loop. *)
Definition accept_step (max_stepsize : R) (st : micro_state)
    (it : davidson_item) : result micro_state :=
  let imic := (ms_imic st + 1)%Z in
  '(dxi, hdxi, scale) <- clip_step max_stepsize (dxi it) (hdxi it) ;;
  let g_orb := vadd (ms_g_orb st) hdxi in
  let dr := add_step (ms_dr st) dxi in
  Ok {| ms_g_orb := g_orb;
        ms_dr := Some dr;
        ms_norm_gorb0 := ms_norm_gorb st;
        ms_norm_gorb := norm g_orb;
        ms_norm_dr := norm dr;
        ms_imic := imic;
        ms_item := Some {| ah_end := ah_end it; ihop := ihop it; w := w it;
                           dxi := dxi; hdxi := hdxi;
                           residual := residual it; seig := seig it |} |}.

(** The [for] loop over the items of the Davidson solver: the state when the
    loop is left, by [break] or at the end of the items. *)
Fixpoint micro_for (self : casscf) (max_stepsize conv_tol_grad : R)
    (ah_start_tol : R) (ah_start_cycle : Z) (norm_gkf : R) (max_cycle : Z)
    (items : list davidson_item) (st : micro_state) : result micro_state :=
  match items with
  | [] => Ok st
  | it :: rest =>
      if accepts self ah_start_tol ah_start_cycle it then
        st <- accept_step max_stepsize st it ;;
        if Z.gtb (ms_imic st) 1
           && Rgtb (ms_norm_gorb st) (norm_gkf * ah_grad_trust_region self)
        then Ok st
        else if Z.geb (ms_imic st) max_cycle
                || Rltb (ms_norm_gorb st) (conv_tol_grad * (3 / 10))
        then Ok st
        else micro_for self max_stepsize conv_tol_grad ah_start_tol
               ah_start_cycle norm_gkf max_cycle rest st
      else
        micro_for self max_stepsize conv_tol_grad ah_start_tol ah_start_cycle
          norm_gkf max_cycle rest
          {| ms_g_orb := ms_g_orb st; ms_dr := ms_dr st;
             ms_norm_gorb0 := ms_norm_gorb0 st;
             ms_norm_gorb := ms_norm_gorb st; ms_norm_dr := ms_norm_dr st;
             ms_imic := ms_imic st; ms_item := Some it |}
  end.

(** ** [CASSCF.casci] *)

(** [isinstance(e_ci, (float, numpy.number))] *)
Definition is_float_or_number (e : py_energy) : bool :=
  match e with
  | PyFloat _ | NpNumber _ => true
  | PyInt _ | PyComplex _ _ | NpArray0d _ | NpArray _ => false
  end.

(** The number an energy stands for.  Only a float or a NumPy scalar gets
    past the test of [casci]; the other cases are never read. *)
Definition float_of (e : py_energy) : R :=
  match e with
  | PyFloat x | NpNumber x | NpArray0d x => x
  | PyInt n => IZR n
  | PyComplex re _ => re
  | NpArray roots => hd 0 roots
  end.

Definition multiple_roots_msg : string :=
  "Multiple roots are detected in fcisolver.  CASSCF does not know which state to optimize.
See also  mcscf.state_average  or  mcscf.state_specific  for excited states."%string.

(** [needle in haystack] for two strings *)
Definition mentions (haystack needle : string) : bool :=
  match String.index 0 needle haystack with
  | Some _ => true
  | None => false
  end.

(** More than one root: the energy is an array, not a scalar. *)
Definition non_scalar (e : py_energy) : Prop :=
  match e with
  | NpArray _ => True
  | _ => False
  end.

(** [casci.kernel] of [pyscf.mcscf.casci] is taken as [casci_kernel]; the
    choice of the integrals it works on ([eris] given or not) is passed
    along.  The log lines after the test have no bearing on the result. *)
Definition casci
    (casci_kernel : casscf -> matrix -> option vector -> option eris_t ->
                    R * py_energy * vector)
    (self : casscf) (mo_coeff : matrix) (ci0 : option vector)
    (eris : option eris_t) : result (R * py_energy * vector) :=
  let '(e_tot, e_ci, fcivec) := casci_kernel self mo_coeff ci0 eris in
  if negb (is_float_or_number e_ci)
  then Raise (RuntimeError multiple_roots_msg)
  else Ok (e_tot, e_ci, fcivec).

(** ** The macro driver [kernel] *)

(** The collaborators of the driver: the CASSCF methods that reach outside
    this module, and the orbital-rotation generator seen through its
    [next].  The generator reads the current density matrices each time it
    is resumed (the two lambdas it was given). *)
Record collaborators : Type := {
  co_safe_eigh : matrix -> matrix -> vector * matrix;
  co_current_memory : R;
  co_fcisolver : fcisolver_t;
  co_hessian_co : casscf -> matrix -> matrix -> eris_t -> hessian_co_t;
  co_ao2mo : casscf -> matrix -> eris_t;
  co_casci_kernel : casscf -> matrix -> option vector -> option eris_t ->
                    R * py_energy * vector;
  co_canonicalize : casscf -> matrix -> vector -> eris_t -> bool -> bool ->
                    option matrix -> matrix * vector * vector;
  co_rota : Type;
  co_rotate_orb_cc : casscf -> matrix -> eris_t -> option vector -> R -> R ->
                     co_rota;
  co_rota_next : co_rota -> matrix -> tensor4 ->
                 option (matrix * vector * Z * co_rota)
}.

(** The local variables of [kernel].  The ones first assigned inside the
    loops are unbound ([None]) until then; [norm_gci] holds [None] when
    Python's [None] was assigned to it; [ks_max_stepsize] is the attribute
    [casscf._max_stepsize]. *)
Record kstate : Type := {
  ks_mo : matrix;
  ks_eris : eris_t;
  ks_e_tot : R;
  ks_e_ci : R;
  ks_fcivec : vector;
  ks_conv : bool;
  ks_totmicro : Z;
  ks_totinner : Z;
  ks_norm_gorb : R;
  ks_norm_gci : option R;
  ks_de : R;
  ks_elast : R;
  ks_r0 : option vector;
  ks_casdm1 : matrix;
  ks_casdm2 : tensor4;
  ks_norm_ddm : R;
  ks_casdm1_prev : matrix;
  ks_casdm1_last : matrix;
  ks_imacro : Z;
  ks_imicro : Z;
  ks_norm_gorb0 : option R;
  ks_u : option matrix;
  ks_g_orb : option vector;
  ks_njk : option Z;
  ks_max_stepsize : option R
}.

Definition shape1 (M : matrix) : nat := length (hd [] M).

(** [CASSCF.micro_cycle_scheduler] *)
Definition micro_cycle_scheduler (self : casscf) : Z := max_cycle_micro self.

(** [CASSCF.max_stepsize_scheduler]: the new [_max_stepsize], which is also
    the value returned. *)
Definition max_stepsize_scheduler (self : casscf) (_max_stepsize : option R)
    (de : R) : R :=
  let cur := match _max_stepsize with
             | None => max_stepsize self
             | Some x => x
             end in
  if Rgtb de (conv_tol self) then cur * / 2
  else sqrt (max_stepsize self * max_stepsize self).

(** The tolerances [kernel] sets up before its loop. *)
Definition effective_conv_tol_grad (tol : R) (conv_tol_grad : option R) : R :=
  match conv_tol_grad with
  | None => sqrt tol
  | Some x => x
  end.

Definition conv_tol_ddm_of (conv_tol_grad : R) : R := conv_tol_grad * 3.

Definition unbound {A : Type} (name : string) (v : option A) : result A :=
  match v with
  | Some a => Ok a
  | None => Raise (UnboundLocalError name)
  end.

Section Driver.

Variable co : collaborators.
Variable casscf_ : casscf.
Variable nmo_ : nat.
Variable tol : R.
Variable conv_tol_grad_ : R.

Let conv_tol_ddm := conv_tol_ddm_of conv_tol_grad_.

(** The body of [for u, g_orb, njk in rota] for one item. The boolean tells
    whether the loop goes on. *)
Definition micro_body (max_cycle_micro : Z) (st : kstate)
    (u : matrix) (g_orb : vector) (njk : Z) : result (bool * kstate) :=
  let imicro := (ks_imicro st + 1)%Z in
  let norm_gorb := norm g_orb in
  let norm_gorb0 :=
    if Z.eqb imicro 1 then Some norm_gorb else ks_norm_gorb0 st in
  let norm_t := mnorm (msub u (eye nmo_)) in
  if Z.geb imicro max_cycle_micro then
    Ok (false,
        {| ks_mo := ks_mo st; ks_eris := ks_eris st; ks_e_tot := ks_e_tot st;
           ks_e_ci := ks_e_ci st; ks_fcivec := ks_fcivec st;
           ks_conv := ks_conv st; ks_totmicro := ks_totmicro st;
           ks_totinner := ks_totinner st; ks_norm_gorb := norm_gorb;
           ks_norm_gci := ks_norm_gci st; ks_de := ks_de st;
           ks_elast := ks_elast st; ks_r0 := ks_r0 st;
           ks_casdm1 := ks_casdm1 st; ks_casdm2 := ks_casdm2 st;
           ks_norm_ddm := ks_norm_ddm st;
           ks_casdm1_prev := ks_casdm1_prev st;
           ks_casdm1_last := ks_casdm1_last st; ks_imacro := ks_imacro st;
           ks_imicro := imicro; ks_norm_gorb0 := norm_gorb0;
           ks_u := Some u; ks_g_orb := Some g_orb; ks_njk := Some njk;
           ks_max_stepsize := ks_max_stepsize st |})
  else
    '(casdm1, casdm2, gci, fcivec) <-
       update_casdm (co_hessian_co co) (co_safe_eigh co)
         (co_current_memory co) (co_fcisolver co) casscf_ (ks_mo st) u
         (ks_fcivec st) (ks_e_ci st) (ks_eris st)
         {| envs_norm_gorb := Some norm_gorb |} ;;
    let norm_ddm := mnorm (msub casdm1 (ks_casdm1_last st)) in
    let norm_ddm_micro := mnorm (msub casdm1 (ks_casdm1_prev st)) in
    let norm_gci := match gci with
                    | Some gci => Some (norm gci)
                    | None => None
                    end in
    let leave :=
      Rltb norm_t conv_tol_grad_
      || (Rltb norm_gorb (conv_tol_grad_ * / 2)
          && (Rltb norm_ddm (conv_tol_ddm * (4 / 10))
              || Rltb norm_ddm_micro (conv_tol_ddm * (4 / 10)))) in
    Ok (negb leave,
        {| ks_mo := ks_mo st; ks_eris := ks_eris st; ks_e_tot := ks_e_tot st;
           ks_e_ci := ks_e_ci st; ks_fcivec := fcivec;
           ks_conv := ks_conv st; ks_totmicro := ks_totmicro st;
           ks_totinner := ks_totinner st; ks_norm_gorb := norm_gorb;
           ks_norm_gci := norm_gci; ks_de := ks_de st;
           ks_elast := ks_elast st; ks_r0 := ks_r0 st;
           ks_casdm1 := casdm1; ks_casdm2 := casdm2;
           ks_norm_ddm := norm_ddm;
           ks_casdm1_prev := casdm1;
           ks_casdm1_last := ks_casdm1_last st; ks_imacro := ks_imacro st;
           ks_imicro := imicro; ks_norm_gorb0 := norm_gorb0;
           ks_u := Some u; ks_g_orb := Some g_orb; ks_njk := Some njk;
           ks_max_stepsize := ks_max_stepsize st |}).

(** The [for] loop over the generator.  It is left at the latest when
    [imicro] reaches [max_cycle_micro]; [fuel] bounds the passes and is
    never used up when it starts at that many. *)
Fixpoint micro_loop (fuel : nat) (max_cycle_micro : Z) (rota : co_rota co)
    (st : kstate) : result kstate :=
  match fuel with
  | O => Ok st
  | S fuel' =>
      match co_rota_next co rota (ks_casdm1 st) (ks_casdm2 st) with
      | None => Ok st
      | Some (u, g_orb, njk, rota') =>
          '(go_on, st') <- micro_body max_cycle_micro st u g_orb njk ;;
          if go_on then micro_loop fuel' max_cycle_micro rota' st'
          else Ok st'
      end
  end.

Definition micro_fuel (max_cycle_micro : Z) : nat :=
  Z.to_nat (Z.max 1 max_cycle_micro).

(** One pass of [while not conv and imacro < casscf.max_cycle_macro].  The
    callback and the checkpoint dump observe the state and are left out. *)
Definition macro_iter (st : kstate) : result kstate :=
  let imacro := (ks_imacro st + 1)%Z in
  let max_cycle_micro := micro_cycle_scheduler casscf_ in
  let max_stepsize :=
    max_stepsize_scheduler casscf_ (ks_max_stepsize st) (ks_de st) in
  let rota :=
    co_rotate_orb_cc co casscf_ (ks_mo st) (ks_eris st) (ks_r0 st)
      (conv_tol_grad_ * (3 / 10)) max_stepsize in
  st1 <- micro_loop (micro_fuel max_cycle_micro) max_cycle_micro rota
           {| ks_mo := ks_mo st; ks_eris := ks_eris st;
              ks_e_tot := ks_e_tot st; ks_e_ci := ks_e_ci st;
              ks_fcivec := ks_fcivec st; ks_conv := ks_conv st;
              ks_totmicro := ks_totmicro st; ks_totinner := ks_totinner st;
              ks_norm_gorb := ks_norm_gorb st;
              ks_norm_gci := ks_norm_gci st; ks_de := ks_de st;
              ks_elast := ks_elast st; ks_r0 := ks_r0 st;
              ks_casdm1 := ks_casdm1 st; ks_casdm2 := ks_casdm2 st;
              ks_norm_ddm := ks_norm_ddm st;
              ks_casdm1_prev := ks_casdm1_prev st;
              ks_casdm1_last := ks_casdm1_last st; ks_imacro := imacro;
              ks_imicro := 0; ks_norm_gorb0 := ks_norm_gorb0 st;
              ks_u := ks_u st; ks_g_orb := ks_g_orb st; ks_njk := ks_njk st;
              ks_max_stepsize := Some max_stepsize |} ;;
  let totmicro := (ks_totmicro st1 + ks_imicro st1)%Z in
  njk <- unbound "njk" (ks_njk st1) ;;
  let totinner := (ks_totinner st1 + njk)%Z in
  u <- unbound "u" (ks_u st1) ;;
  g_orb <- unbound "g_orb" (ks_g_orb st1) ;;
  let mo := rotate_mo casscf_ (ks_mo st1) u in
  let eris := co_ao2mo co casscf_ mo in
  '(e_tot, e_ci, fcivec) <-
     casci (co_casci_kernel co) casscf_ mo (Some (ks_fcivec st1)) (Some eris) ;;
  let (casdm1, casdm2) :=
    make_rdm12 (co_fcisolver co) fcivec (ncas casscf_) (nelecas casscf_) in
  let norm_ddm := mnorm (msub casdm1 (ks_casdm1_last st1)) in
  let de := e_tot - ks_elast st1 in
  let elast := e_tot in
  conv <-
    (if Rltb (Rabs de) tol then
       norm_gorb0 <- unbound "norm_gorb0" (ks_norm_gorb0 st1) ;;
       if Rltb norm_gorb0 conv_tol_grad_ && Rltb norm_ddm conv_tol_ddm
       then Ok true else Ok (ks_conv st1)
     else Ok (ks_conv st1)) ;;
  r0 <- pack_uniq_var casscf_ u ;;
  Ok {| ks_mo := mo; ks_eris := eris; ks_e_tot := e_tot;
        ks_e_ci := float_of e_ci; ks_fcivec := fcivec; ks_conv := conv;
        ks_totmicro := totmicro; ks_totinner := totinner;
        ks_norm_gorb := ks_norm_gorb st1; ks_norm_gci := ks_norm_gci st1;
        ks_de := de; ks_elast := elast; ks_r0 := Some r0;
        ks_casdm1 := casdm1; ks_casdm2 := casdm2; ks_norm_ddm := norm_ddm;
        ks_casdm1_prev := casdm1; ks_casdm1_last := casdm1;
        ks_imacro := imacro; ks_imicro := ks_imicro st1;
        ks_norm_gorb0 := ks_norm_gorb0 st1; ks_u := Some u;
        ks_g_orb := Some g_orb; ks_njk := Some njk;
        ks_max_stepsize := ks_max_stepsize st1 |}.

(** The [while] loop.  Each pass adds one to [imacro], so the loop is left
    after at most [max_cycle_macro] passes and [fuel] is never used up when
    it starts at that many. *)
Fixpoint macro_loop (fuel : nat) (st : kstate) : result kstate :=
  if negb (ks_conv st) && Z.ltb (ks_imacro st) (max_cycle_macro casscf_) then
    match fuel with
    | O => Ok st
    | S fuel' => st' <- macro_iter st ;; macro_loop fuel' st'
    end
  else Ok st.

(** From the end of the loop to the [return].  [ncore] and [nocc] are
    names the function never binds, and the module has no such globals;
    [mo_energy] is bound by the canonicalization only. *)
Definition finish (st : kstate)
  : result (bool * R * R * vector * matrix * vector) :=
  '(mo, fcivec, mo_energy) <-
     (if canonicalization casscf_ then
        let '(mo, fcivec, mo_energy) :=
          co_canonicalize co casscf_ (ks_mo st) (ks_fcivec st) (ks_eris st)
            false (natorb casscf_) (Some (ks_casdm1 st)) in
        if natorb casscf_ then Raise (NameError "ncore")
        else Ok (mo, fcivec, Some mo_energy)
      else Ok (ks_mo st, ks_fcivec st, None)) ;;
  mo_energy <- unbound "mo_energy" mo_energy ;;
  Ok (ks_conv st, ks_e_tot st, ks_e_ci st, fcivec, mo, mo_energy).

End Driver.

(** The part of [kernel] from [if conv_tol_grad is None] to the end: the
    macro iterations and the return. *)
Definition kernel_optimise (co : collaborators) (casscf : casscf)
    (mo : matrix) (nmo : nat) (eris : eris_t) (tol : R)
    (conv_tol_grad : option R) (_max_stepsize : option R)
    (e_tot : R) (e_ci : py_energy) (fcivec : vector)
  : result (bool * R * R * vector * matrix * vector) :=
  let conv_tol_grad := effective_conv_tol_grad tol conv_tol_grad in
  let (casdm1, casdm2) :=
    make_rdm12 (co_fcisolver co) fcivec (ncas casscf) (nelecas casscf) in
  st <- macro_loop co casscf nmo tol conv_tol_grad
          (Z.to_nat (max_cycle_macro casscf))
          {| ks_mo := mo; ks_eris := eris; ks_e_tot := e_tot;
             ks_e_ci := float_of e_ci; ks_fcivec := fcivec;
             ks_conv := false; ks_totmicro := 0; ks_totinner := 0;
             ks_norm_gorb := -1; ks_norm_gci := Some (-1);
             ks_de := e_tot; ks_elast := e_tot; ks_r0 := None;
             ks_casdm1 := casdm1; ks_casdm2 := casdm2; ks_norm_ddm := 100;
             ks_casdm1_prev := casdm1; ks_casdm1_last := casdm1;
             ks_imacro := 0; ks_imicro := 0; ks_norm_gorb0 := None;
             ks_u := None; ks_g_orb := None; ks_njk := None;
             ks_max_stepsize := _max_stepsize |} ;;
  finish co casscf st.

(** [kernel(casscf, mo_coeff, tol, conv_tol_grad, ci0)]; the result is the
    tuple (conv, e_tot, e_ci, fcivec, mo, mo_energy).  [_max_stepsize] is
    the attribute of that name when the function is entered. *)
Definition kernel (co : collaborators) (casscf : casscf) (mo_coeff : matrix)
    (tol : R) (conv_tol_grad : option R) (ci0 : option vector)
    (_max_stepsize : option R)
  : result (bool * R * R * vector * matrix * vector) :=
  let mo := mo_coeff in
  let nmo := shape1 mo_coeff in
  let eris := co_ao2mo co casscf mo in
  '(e_tot, e_ci, fcivec) <-
     casci (co_casci_kernel co) casscf mo ci0 (Some eris) ;;
  if Nat.eqb (ncas casscf) nmo && negb (internal_rotation casscf) then
    if canonicalization casscf then
      let '(mo, fcivec, mo_energy) :=
        co_canonicalize co casscf mo fcivec eris false (natorb casscf) None in
      Ok (true, e_tot, float_of e_ci, fcivec, mo, mo_energy)
    else
      kernel_optimise co casscf mo nmo eris tol conv_tol_grad _max_stepsize
        e_tot e_ci fcivec
  else
    kernel_optimise co casscf mo nmo eris tol conv_tol_grad _max_stepsize
      e_tot e_ci fcivec.

(** A solver with an approximate kernel that hands the tolerance it was
    given back as the energy, and one without. *)
Definition echo_tol (tol : option R) : py_energy :=
  match tol with
  | Some t => NpNumber t
  | None => NpNumber 0
  end.

Definition solver_with_approx_kernel : fcisolver_t := {|
  fci_kernel := fun _ _ _ _ _ tol _ _ => (echo_tol tol, [1]);
  approx_kernel := Some (fun _ _ _ _ ci0 tol _ => (echo_tol tol, ci0));
  contract_2e := None;
  absorb_h1e := None;
  make_rdm12 := fun _ _ _ => ([[0]], [])
|}.

(** An orbital-gradient norm of one under the default settings. *)
Definition envs_gorb_one : envs_t := {| envs_norm_gorb := Some 1 |}.

Definition with_ci_response_space (self : casscf) (n : Z) : casscf := {|
  nmo := nmo self;
  ncore := ncore self;
  ncas := ncas self;
  nelecas := nelecas self;
  frozen := frozen self;
  internal_rotation := internal_rotation self;
  max_stepsize := max_stepsize self;
  max_cycle_macro := max_cycle_macro self;
  max_cycle_micro := max_cycle_micro self;
  max_cycle_micro_inner := max_cycle_micro_inner self;
  conv_tol := conv_tol self;
  conv_tol_grad := conv_tol_grad self;
  ah_level_shift := ah_level_shift self;
  ah_conv_tol := ah_conv_tol self;
  ah_max_cycle := ah_max_cycle self;
  ah_lindep := ah_lindep self;
  ah_start_tol := ah_start_tol self;
  ah_start_cycle := ah_start_cycle self;
  ah_grad_trust_region := ah_grad_trust_region self;
  ci_response_space := n;
  ci_grad_trust_region := ci_grad_trust_region self;
  with_dep4 := with_dep4 self;
  canonicalization := canonicalization self;
  natorb := natorb self;
  max_memory := max_memory self
|}.

(** A two-determinant example for the CI response: the full-response path
    ([ci_response_space = 8]) with a solver whose Hamiltonian sends every
    vector to (0, 1/10) and whose kernel returns the second determinant. *)
Definition cas_full_response : casscf := with_ci_response_space cas3 8.

Definition solver_two_dets : fcisolver_t := {|
  fci_kernel := fun _ _ _ _ _ _ _ _ => (NpNumber 0, [0; 1]);
  approx_kernel := None;
  contract_2e := Some (fun _ _ _ _ => [0; / 10]);
  absorb_h1e := Some (fun _ h2 _ _ _ => h2);
  make_rdm12 := fun _ _ _ => ([[0]], [])
|}.

Definition hessian_co_zero (self : casscf) (mo u : matrix) (eris : eris_t)
  : hessian_co_t := {| hco_h1 := []; hco_h2 := []; hco_ecore := 0 |}.

Definition eris_empty : eris_t :=
  {| ppaa := []; papa := []; vhf_c := []; j_pc := []; k_pc := [] |}.

Definition envs_empty : envs_t := {| envs_norm_gorb := None |}.

(** A Davidson step with components 2 and -1, and the state before the
    first accepted step. *)
Definition item_large_step : davidson_item := {|
  ah_end := true; ihop := 1; w := 0; dxi := [2; -1]; hdxi := [4; 6];
  residual := [0; 0]; seig := 1
|}.

Definition micro_state_start : micro_state := {|
  ms_g_orb := [1; 1]; ms_dr := None; ms_norm_gorb0 := 0; ms_norm_gorb := 0;
  ms_norm_dr := 0; ms_imic := 0; ms_item := None
|}.

(** ** A one-orbital run *)

Definition with_options (self : casscf) (canonicalization natorb : bool)
    (max_cycle_macro max_cycle_micro : Z) : casscf := {|
  nmo := nmo self;
  ncore := ncore self;
  ncas := ncas self;
  nelecas := nelecas self;
  frozen := frozen self;
  internal_rotation := internal_rotation self;
  max_stepsize := max_stepsize self;
  max_cycle_macro := max_cycle_macro;
  max_cycle_micro := max_cycle_micro;
  max_cycle_micro_inner := max_cycle_micro_inner self;
  conv_tol := conv_tol self;
  conv_tol_grad := conv_tol_grad self;
  ah_level_shift := ah_level_shift self;
  ah_conv_tol := ah_conv_tol self;
  ah_max_cycle := ah_max_cycle self;
  ah_lindep := ah_lindep self;
  ah_start_tol := ah_start_tol self;
  ah_start_cycle := ah_start_cycle self;
  ah_grad_trust_region := ah_grad_trust_region self;
  ci_response_space := ci_response_space self;
  ci_grad_trust_region := ci_grad_trust_region self;
  with_dep4 := with_dep4 self;
  canonicalization := canonicalization;
  natorb := natorb;
  max_memory := max_memory self
|}.

(** One orbital, all of it active ([ncas == nmo], no internal rotation), one
    macro and one micro cycle; with and without canonicalization. *)
Definition cas1 : casscf :=
  with_options (default_casscf 1 0 1 (1, 1)%nat) true false 1 1.
Definition cas1_no_canon : casscf :=
  with_options (default_casscf 1 0 1 (1, 1)%nat) false false 1 1.

(** Collaborators that do as little as possible: the CI energy is the float
    0, the density matrix is [[0]], and every resumption of the rotation
    generator yields the identity rotation with a zero gradient. *)
Definition co_trivial : collaborators := {|
  co_safe_eigh := fun _ _ => ([], []);
  co_current_memory := 0;
  co_fcisolver := solver_with_approx_kernel;
  co_hessian_co := hessian_co_zero;
  co_ao2mo := fun _ _ => eris_empty;
  co_casci_kernel := fun _ _ _ _ => (0, PyFloat 0, [1]);
  co_canonicalize := fun _ mo fcivec _ _ _ _ => (mo, fcivec, [0]);
  co_rota := unit;
  co_rotate_orb_cc := fun _ _ _ _ _ _ => tt;
  co_rota_next := fun _ _ _ => Some ([[1]], [0], 1%Z, tt)
|}.

(** The state [kernel] enters its loop with, in that run. *)
Definition kstate_start : kstate := {|
  ks_mo := [[1]]; ks_eris := eris_empty; ks_e_tot := 0; ks_e_ci := 0;
  ks_fcivec := [1]; ks_conv := false; ks_totmicro := 0; ks_totinner := 0;
  ks_norm_gorb := -1; ks_norm_gci := Some (-1); ks_de := 0; ks_elast := 0;
  ks_r0 := None; ks_casdm1 := [[0]]; ks_casdm2 := []; ks_norm_ddm := 100;
  ks_casdm1_prev := [[0]]; ks_casdm1_last := [[0]]; ks_imacro := 0;
  ks_imicro := 0; ks_norm_gorb0 := None; ks_u := None; ks_g_orb := None;
  ks_njk := None; ks_max_stepsize := None
|}.

(** Two orbitals (one active), canonicalization with natural orbitals, and
    no macro cycle at all. *)
Definition cas2_natorb : casscf :=
  with_options (default_casscf 2 1 1 (1, 1)%nat) true true 0 1.

(** The lower triangle of the active block does not fit: with internal
    rotation and two or more active orbitals, core and active orbitals
    together outnumber the orbitals. *)
Definition tril_out_of_view (self : casscf) : Prop :=
  internal_rotation self = true /\ (2 <= ncas self)%nat /\
  (nmo self < ncore self + ncas self)%nat.

(** A frozen index list that cannot index the mask: it is empty, or it
    names an orbital the system does not have. *)
Definition frozen_not_indexable (self : casscf) : Prop :=
  match frozen self with
  | Some (FrozenIndices idx) =>
      idx = [] \/ Exists (fun i => (nmo self <= i)%nat) idx
  | _ => False
  end.

(** Two orbitals for one core and two active ones, with internal rotation;
    three orbitals with an empty list of frozen indices. *)
Definition cas_overfull : casscf := {|
  nmo := 2; ncore := 1; ncas := 2; nelecas := (1, 1)%nat;
  frozen := None; internal_rotation := true;
  max_stepsize := 3 / 100; max_cycle_macro := 50; max_cycle_micro := 4;
  max_cycle_micro_inner := 4; conv_tol := / 10000000; conv_tol_grad := None;
  ah_level_shift := / 100000000; ah_conv_tol := / 1000000000000;
  ah_max_cycle := 30; ah_lindep := / 100000000000000; ah_start_tol := 5 / 2;
  ah_start_cycle := 3; ah_grad_trust_region := 3; ci_response_space := 4;
  ci_grad_trust_region := 3; with_dep4 := false; canonicalization := true;
  natorb := false; max_memory := 4000
|}.

Definition cas3_frozen_empty : casscf :=
  with_frozen cas3 (Some (FrozenIndices [])).


(** The same collaborators with a CI solver that reports two roots. *)
Definition co_two_roots : collaborators := {|
  co_safe_eigh := fun _ _ => ([], []);
  co_current_memory := 0;
  co_fcisolver := solver_with_approx_kernel;
  co_hessian_co := hessian_co_zero;
  co_ao2mo := fun _ _ => eris_empty;
  co_casci_kernel := fun _ _ _ _ => (0, NpArray [0; 1], [1]);
  co_canonicalize := fun _ mo fcivec _ _ _ _ => (mo, fcivec, [0]);
  co_rota := unit;
  co_rotate_orb_cc := fun _ _ _ _ _ _ => tt;
  co_rota_next := fun _ _ _ => Some ([[1]], [0], 1%Z, tt)
|}.


(** ** The preconditioner of [rotate_orb_cc] *)

(** [h_diag] is either a function or the array of the Hessian diagonal. *)
Inductive h_diag_t : Type :=
| HDiagCallable (f : vector -> R -> vector)
| HDiagArray (d : vector).

(** [hdiagd = h_diag-(e-casscf.ah_level_shift); hdiagd[abs(hdiagd)<1e-8] = 1e-8] *)
Definition level_shifted_diag (self : casscf) (d : vector) (e : R) : vector :=
  let hdiagd := map (fun h => h - (e - ah_level_shift self)) d in
  map (fun h => if Rltb (Rabs h) (/ 100000000) then / 100000000 else h) hdiagd.

(** [precond(x, e)] *)
Definition precond (self : casscf) (h_diag : h_diag_t) (x : vector) (e : R)
  : vector :=
  let x :=
    match h_diag with
    | HDiagCallable f => f x (e - ah_level_shift self)
    | HDiagArray d => map2 Rdiv x (level_shifted_diag self d e)
    end in
  let norm_x := norm x in
  vscale (1 / norm_x) x.


End Mc1step.

(** * Properties *)

Import Mc1step.

(** ** Comparisons *)

Lemma Rltb_true (x y : R) : Rltb x y = true <-> x < y.
Proof. unfold Rltb; destruct (Rlt_dec x y); split; intros; try easy. Qed.

Lemma Rltb_false (x y : R) : Rltb x y = false <-> ~ x < y.
Proof. unfold Rltb; destruct (Rlt_dec x y); split; intros; try easy. Qed.

Lemma Rleb_true (x y : R) : Rleb x y = true <-> x <= y.
Proof. unfold Rleb; destruct (Rle_dec x y); split; intros; try easy. Qed.

(** ** Arrays: shapes and entries *)

Lemma has_shapeb_spec {A : Type} (M : list (list A)) (n m : nat) :
  has_shapeb M n m = true <-> has_shape M n m.
Proof.
  unfold has_shapeb, has_shape.
  rewrite andb_true_iff, Nat.eqb_eq, forallb_forall, Forall_forall.
  split; intros [H1 H2]; split; auto; intros x Hx.
  - apply Nat.eqb_eq; auto.
  - apply Nat.eqb_eq; auto.
Qed.

Lemma has_shape_row {A : Type} (M : list (list A)) (n m i : nat) :
  has_shape M n m -> (i < n)%nat -> length (nth i M []) = m.
Proof.
  intros [Hn Hr] Hi. rewrite Forall_forall in Hr.
  apply Hr, nth_In. lia.
Qed.

Lemma length_mapi_from {A B : Type} (f : nat -> A -> B) (l : list A) :
  forall k, length (mapi_from f k l) = length l.
Proof. induction l; simpl; intros; auto. Qed.

Lemma nth_mapi_from {A B : Type} (f : nat -> A -> B) (l : list A) (d : A)
    (d' : B) :
  forall k i, (i < length l)%nat ->
    nth i (mapi_from f k l) d' = f (k + i)%nat (nth i l d).
Proof.
  induction l as [|x t IH]; simpl; intros k i Hi; [lia|].
  destruct i as [|i].
  - now rewrite Nat.add_0_r.
  - rewrite IH by lia. f_equal. lia.
Qed.

Lemma mapi_from_row_lengths {A : Type} (g : nat -> list A -> list A)
    (M : list (list A)) (m : nat) :
  (forall i row, length (g i row) = length row) ->
  Forall (fun row => length row = m) M ->
  forall k, Forall (fun row => length row = m) (mapi_from g k M).
Proof.
  intros Hg HM. induction HM; simpl; intros k; constructor; auto.
  now rewrite Hg.
Qed.

Lemma set_where_shape {A : Type} (p : nat -> nat -> bool) (b : A)
    (M : list (list A)) (n m : nat) :
  has_shape M n m -> has_shape (set_where p b M) n m.
Proof.
  intros [Hn Hr]. split.
  - unfold set_where. now rewrite length_mapi_from.
  - unfold set_where. apply mapi_from_row_lengths; auto.
    intros. apply length_mapi_from.
Qed.

Lemma set_where_get {A : Type} (p : nat -> nat -> bool) (b d : A)
    (M : list (list A)) (n m i j : nat) :
  has_shape M n m -> (i < n)%nat -> (j < m)%nat ->
  nth j (nth i (set_where p b M) []) d =
  if p i j then b else nth j (nth i M []) d.
Proof.
  intros HM Hi Hj. unfold set_where.
  destruct HM as [Hn Hr].
  rewrite (nth_mapi_from _ M []) by lia. simpl.
  assert (Hl : length (nth i M []) = m) by (apply (has_shape_row M n); [split|]; auto).
  rewrite (nth_mapi_from _ _ d) by lia. reflexivity.
Qed.

Lemma zeros_bool_shape (n m : nat) : has_shape (zeros_bool n m) n m.
Proof.
  split; unfold zeros_bool.
  - apply repeat_length.
  - apply Forall_forall. intros x Hx. apply repeat_spec in Hx. subst.
    apply repeat_length.
Qed.

Lemma zeros_shape (n m : nat) : has_shape (zeros n m) n m.
Proof.
  split; unfold zeros.
  - apply repeat_length.
  - apply Forall_forall. intros x Hx. apply repeat_spec in Hx. subst.
    apply repeat_length.
Qed.

Lemma nth_repeat_same {A : Type} (x : A) (n i : nat) : nth i (repeat x n) x = x.
Proof.
  revert i; induction n; simpl; intros [|i]; auto.
Qed.

Lemma zeros_bool_get (n m i j : nat) : bget (zeros_bool n m) i j = false.
Proof.
  unfold bget, zeros_bool.
  destruct (Nat.lt_ge_cases i n) as [Hi|Hi].
  - rewrite (nth_indep _ [] (repeat false m)) by (rewrite repeat_length; lia).
    rewrite nth_repeat_same. apply nth_repeat_same.
  - rewrite (nth_overflow (repeat (repeat false m) n)) by (rewrite repeat_length; lia).
    now destruct j.
Qed.

Lemma zeros_get (n m i j : nat) : mget (zeros n m) i j = 0.
Proof.
  unfold mget, zeros.
  destruct (Nat.lt_ge_cases i n) as [Hi|Hi].
  - rewrite (nth_indep _ [] (repeat 0 m)) by (rewrite repeat_length; lia).
    rewrite nth_repeat_same. apply nth_repeat_same.
  - rewrite (nth_overflow (repeat (repeat 0 m) n)) by (rewrite repeat_length; lia).
    now destruct j.
Qed.

Lemma matrix_ext (A B : matrix) (n m : nat) :
  has_shape A n m -> has_shape B n m ->
  (forall i j, (i < n)%nat -> (j < m)%nat -> mget A i j = mget B i j) ->
  A = B.
Proof.
  intros HA HB H.
  apply (nth_ext A B [] []).
  - destruct HA, HB; lia.
  - intros i Hi. assert (Hin : (i < n)%nat) by (destruct HA; lia).
    apply (nth_ext _ _ 0 0).
    + rewrite (has_shape_row A n m), (has_shape_row B n m); auto.
    + intros j Hj. rewrite (has_shape_row A n m) in Hj by auto.
      apply (H i j); auto.
Qed.

(** ** The mask of non-redundant rotation parameters *)

(** The mask of three orbitals (core, active, virtual): active-core,
    virtual-core and virtual-active; freezing the core orbital leaves
    virtual-active, freezing the virtual one leaves active-core. *)
Example uniq_var_indices_cas3 :
  uniq_var_indices cas3 3 1 1 None
    = Ok [[false; false; false]; [true; false; false]; [true; true; false]].
Proof. reflexivity. Qed.

Example uniq_var_indices_cas3_frozen_count :
  uniq_var_indices cas3_frozen_count 3 1 1 (frozen cas3_frozen_count)
    = Ok [[false; false; false]; [false; false; false]; [false; true; false]].
Proof. reflexivity. Qed.

Example uniq_var_indices_cas3_frozen_index :
  uniq_var_indices cas3_frozen_index 3 1 1 (frozen cas3_frozen_index)
    = Ok [[false; false; false]; [true; false; false]; [false; false; false]].
Proof. reflexivity. Qed.

Example uniq_var_indices_out_of_range :
  uniq_var_indices cas3 3 1 1 (Some (FrozenIndices [3%nat]))
    = Raise index_error.
Proof. reflexivity. Qed.

Lemma mem_nat_In (i : nat) (l : list nat) : mem_nat i l = true <-> In i l.
Proof.
  unfold mem_nat. rewrite existsb_exists. split.
  - intros [x [Hx He]]. apply Nat.eqb_eq in He. now subst.
  - intros H. exists i. split; auto. apply Nat.eqb_refl.
Qed.

Lemma frozenb_spec (self : casscf) (i : nat) :
  frozenb self i = true <-> is_frozen self i.
Proof.
  unfold frozenb, is_frozen. destruct (frozen self) as [[k|idx]|].
  - apply Nat.ltb_lt.
  - apply mem_nat_In.
  - split; [discriminate | tauto].
Qed.

(** The index pairs of the lower triangle fit a view exactly when there
    are none of them or the view has at least their side. *)
Lemma indices_in_view_tril (side n : nat) :
  indices_in_view side (tril_indices n) = true <-> (n <= 1 \/ n <= side)%nat.
Proof.
  unfold indices_in_view, tril_indices. rewrite forallb_forall. split.
  - intros H. destruct (Nat.le_gt_cases n 1) as [Hn|Hn]; [left; exact Hn|].
    right.
    assert (Hin : In (n - 1, 0)%nat
                    (flat_map (fun i => map (fun j => (i, j)) (seq 0 i))
                       (seq 0 n))).
    { apply in_flat_map. exists (n - 1)%nat. split; [apply in_seq; lia|].
      apply in_map_iff. exists 0%nat. split; [reflexivity|].
      apply in_seq. lia. }
    apply H in Hin. simpl in Hin. apply andb_true_iff in Hin.
    destruct Hin as [H1 _]. apply Nat.ltb_lt in H1. lia.
  - intros H [i j] Hin. apply in_flat_map in Hin.
    destruct Hin as [i' [Hi Hj]]. apply in_map_iff in Hj.
    destruct Hj as [j' [E Hj]]. injection E as <- <-.
    apply in_seq in Hi. apply in_seq in Hj. simpl.
    apply andb_true_iff. rewrite !Nat.ltb_lt. lia.
Qed.

Lemma bind_if_ok {A B : Type} (b : bool) (x y : A) (k : A -> result B) :
  bind (if b then Ok x else Ok y) k = k (if b then x else y).
Proof. destruct b; reflexivity. Qed.

Lemma uniq_var_indices_spec (self : casscf) :
  valid_partition self ->
  exists idx,
    uniq_var_indices self (nmo self) (ncore self) (ncas self) (frozen self)
      = Ok idx /\
    has_shape idx (nmo self) (nmo self) /\
    forall i j, (i < nmo self)%nat -> (j < nmo self)%nat ->
      bget idx i j = mask_entry self i j.
Proof.
  intros [Hfit Hfr].
  assert (Hchk : indices_in_view
                   (slice_length (ncore self) (ncore self + ncas self)
                      (nmo self))
                   (tril_indices (ncas self)) = true).
  { apply indices_in_view_tril. right. unfold slice_length. lia. }
  unfold uniq_var_indices. rewrite Hchk, bind_if_ok.
  set (n := nmo self) in *. set (nc := ncore self) in *.
  set (na := ncas self) in *.
  set (m0 := zeros_bool n n).
  set (m1 := set_slice nc (nc + na) 0 nc true m0).
  set (m2 := set_slice (nc + na) n 0 (nc + na) true m1).
  set (m3 := if internal_rotation self
             then set_tril_block nc (nc + na) true m2 else m2).
  assert (S0 : has_shape m0 n n) by apply zeros_bool_shape.
  assert (S1 : has_shape m1 n n) by (apply set_where_shape; auto).
  assert (S2 : has_shape m2 n n) by (apply set_where_shape; auto).
  assert (S3 : has_shape m3 n n).
  { unfold m3. destruct (internal_rotation self); auto.
    apply set_where_shape; auto. }
  assert (G3 : forall i j, (i < n)%nat -> (j < n)%nat ->
            bget m3 i j =
            (in_slice nc (nc + na) i && in_slice 0 nc j)
            || (in_slice (nc + na) n i && in_slice 0 (nc + na) j)
            || (internal_rotation self && in_slice nc (nc + na) i
                && in_slice nc (nc + na) j && Nat.ltb j i)).
  { intros i j Hi Hj. unfold m3, bget.
    destruct (internal_rotation self).
    - unfold set_tril_block. rewrite (set_where_get _ _ _ m2 n n) by auto.
      unfold m2, set_slice. rewrite (set_where_get _ _ _ m1 n n) by auto.
      unfold m1, set_slice. rewrite (set_where_get _ _ _ m0 n n) by auto.
      fold (bget m0 i j). unfold m0. rewrite zeros_bool_get.
      repeat match goal with
             | |- context [in_slice ?a ?b ?c] => destruct (in_slice a b c)
             end;
        destruct (Nat.ltb j i); simpl; auto.
    - unfold m2, set_slice. rewrite (set_where_get _ _ _ m1 n n) by auto.
      unfold m1, set_slice. rewrite (set_where_get _ _ _ m0 n n) by auto.
      fold (bget m0 i j). unfold m0. rewrite zeros_bool_get.
      repeat match goal with
             | |- context [in_slice ?a ?b ?c] => destruct (in_slice a b c)
             end;
        destruct (Nat.ltb j i); simpl; auto. }
  unfold mask_entry, frozenb. fold n nc na.
  destruct (frozen self) as [[k|idx]|].
  - eexists; split; [reflexivity|]. split.
    + apply set_where_shape, set_where_shape; auto.
    + intros i j Hi Hj. unfold bget, set_slice.
      rewrite (set_where_get _ _ _ _ n n); auto;
        [|apply set_where_shape; auto].
      rewrite (set_where_get _ _ _ m3 n n) by auto.
      fold (bget m3 i j). rewrite G3 by auto.
      unfold in_slice at 1 2 3 4. simpl.
      assert (Ei : Nat.ltb i n = true) by (apply Nat.ltb_lt; auto).
      assert (Ej : Nat.ltb j n = true) by (apply Nat.ltb_lt; auto).
      rewrite Ei, Ej. simpl.
      destruct (Nat.ltb j k), (Nat.ltb i k); simpl;
        rewrite ?andb_true_r, ?andb_false_r; auto.
  - destruct Hfr as [Hne Hfr].
    assert (Hall : forallb (fun i => Nat.ltb i n) idx = true).
    { apply forallb_forall. intros x Hx. apply Nat.ltb_lt.
      rewrite Forall_forall in Hfr. auto. }
    destruct idx as [|i0 idx']; [congruence|].
    rewrite Hall. eexists; split; [reflexivity|]. split.
    + apply set_where_shape; auto.
    + intros i j Hi Hj. unfold bget, set_rows_cols.
      rewrite (set_where_get _ _ _ m3 n n) by auto.
      fold (bget m3 i j). rewrite G3 by auto.
      destruct (mem_nat i (i0 :: idx')), (mem_nat j (i0 :: idx')); simpl;
        rewrite ?andb_true_r, ?andb_false_r; auto.
  - eexists; split; [reflexivity|]. split; auto.
    intros i j Hi Hj. rewrite G3 by auto. simpl.
    now rewrite !andb_true_r.
Qed.

Lemma in_slice_spec (lo hi i : nat) :
  in_slice lo hi i = true <-> (lo <= i < hi)%nat.
Proof.
  unfold in_slice. rewrite andb_true_iff, Nat.leb_le, Nat.ltb_lt. tauto.
Qed.

(** A true entry of the mask lies strictly below the diagonal. *)
Lemma mask_entry_lower (self : casscf) (i j : nat) :
  mask_entry self i j = true -> (j < i)%nat.
Proof.
  unfold mask_entry. rewrite !andb_true_iff, !orb_true_iff, !andb_true_iff.
  rewrite !in_slice_spec, Nat.ltb_lt. lia.
Qed.

Lemma mask_entry_mirror (self : casscf) (i j : nat) :
  mask_entry self i j = true -> mask_entry self j i = false.
Proof.
  intros H. destruct (mask_entry self j i) eqn:E; auto.
  apply mask_entry_lower in H, E. lia.
Qed.

Lemma mask_entry_diag (self : casscf) (i : nat) : mask_entry self i i = false.
Proof.
  destruct (mask_entry self i i) eqn:E; auto.
  apply mask_entry_lower in E. lia.
Qed.

(** No true entry of the mask joins two orbitals of one redundant block, or
    touches a frozen orbital. *)
Lemma mask_entry_redundant (self : casscf) (i j : nat) :
  redundant self i j -> mask_entry self i j = false.
Proof.
  intros Hr. destruct (mask_entry self i j) eqn:E; auto. exfalso.
  unfold mask_entry in E.
  rewrite !andb_true_iff, !orb_true_iff, !andb_true_iff in E.
  rewrite !in_slice_spec, Nat.ltb_lt, !negb_true_iff in E.
  destruct E as [[E Fi] Fj].
  unfold redundant, is_core, is_active, is_virtual in Hr.
  destruct Hr as [Hr|[Hr|[Hr|[Hr|Hr]]]].
  - lia.
  - destruct Hr as [? [? Hir]]. rewrite Hir in E. lia.
  - lia.
  - apply frozenb_spec in Hr. congruence.
  - apply frozenb_spec in Hr. congruence.
Qed.

Lemma redundant_sym (self : casscf) (i j : nat) :
  redundant self i j -> redundant self j i.
Proof. unfold redundant. tauto. Qed.

(** ** Boolean-mask selection and assignment *)

Lemma fill_row_length (mrow : list bool) :
  forall row v, length (fst (fill_row mrow row v)) = length row.
Proof.
  induction mrow as [|b mrow IH]; intros [|x row] v; simpl; auto.
  destruct b.
  - destruct v as [|y v].
    + specialize (IH row []). destruct (fill_row mrow row []). simpl in *. lia.
    + specialize (IH row v). destruct (fill_row mrow row v). simpl in *. lia.
  - specialize (IH row v). destruct (fill_row mrow row v). simpl in *. lia.
Qed.

(** Positions where the mask is false keep their value. *)
Lemma fill_row_unmasked (mrow : list bool) :
  forall row v j, nth j mrow false = false ->
    nth j (fst (fill_row mrow row v)) 0 = nth j row 0.
Proof.
  induction mrow as [|b mrow IH]; intros [|x row] v j Hj; simpl; auto.
  destruct b.
  - destruct j as [|j]; [discriminate|]. simpl in Hj.
    destruct v as [|y v].
    + specialize (IH row [] j Hj). destruct (fill_row mrow row []). auto.
    + specialize (IH row v j Hj). destruct (fill_row mrow row v). auto.
  - specialize (IH row v). destruct (fill_row mrow row v) as [r rest].
    destruct j as [|j]; simpl; auto.
Qed.

(** Selecting after assigning gives back the values assigned. *)
Lemma select_fill_row (mrow : list bool) :
  forall row v, length row = length mrow ->
    (count_row mrow <= length v)%nat ->
    select_row mrow (fst (fill_row mrow row v)) = firstn (count_row mrow) v /\
    snd (fill_row mrow row v) = skipn (count_row mrow) v.
Proof.
  unfold count_row.
  induction mrow as [|b mrow IH]; intros [|x row] v Hl Hc; simpl in *;
    try discriminate; auto.
  destruct b; simpl in *.
  - destruct v as [|y v]; simpl in *; [lia|].
    destruct (IH row v) as [H1 H2]; [lia | lia |].
    destruct (fill_row mrow row v) as [r rest]. simpl in *.
    split; congruence.
  - destruct (IH row v) as [H1 H2]; [lia | lia |].
    destruct (fill_row mrow row v) as [r rest]. simpl in *. auto.
Qed.

Lemma fill_shape (mask : bmatrix) :
  forall M v n m, has_shape M n m -> has_shape (fill mask M v) n m.
Proof.
  induction mask as [|mrow mask IH]; intros [|row M] v n m HM; simpl; auto.
  pose proof (fill_row_length mrow row v) as Hl.
  destruct (fill_row mrow row v) as [r rest]. simpl in Hl.
  destruct HM as [Hn Hr]. inversion Hr; subst.
  destruct (IH M rest (length M) (length row)) as [Hn' Hr']; [split; auto|].
  split; simpl; [congruence|]. constructor; auto.
Qed.

Lemma fill_unmasked (mask : bmatrix) :
  forall M v i j, bget mask i j = false ->
    mget (fill mask M v) i j = mget M i j.
Proof.
  unfold bget, mget.
  induction mask as [|mrow mask IH]; intros [|row M] v i j H; simpl; auto.
  pose proof (fill_row_unmasked mrow row v) as Hrow.
  destruct (fill_row mrow row v) as [r rest]. simpl in Hrow.
  destruct i as [|i]; simpl in *; auto.
Qed.

Lemma select_fill (mask : bmatrix) :
  forall M v n m, has_shape M n m -> has_shape mask n m ->
    (count_true mask <= length v)%nat ->
    select mask (fill mask M v) = firstn (count_true mask) v.
Proof.
  induction mask as [|mrow mask IH]; intros [|row M] v n m HM Hmask Hc;
    simpl in *; auto.
  - destruct HM as [HM _], Hmask as [Hk _]. simpl in *. congruence.
  - destruct HM as [Hn Hr], Hmask as [Hn' Hr'].
    inversion Hr; subst. inversion Hr'; subst.
    destruct (select_fill_row mrow row v) as [Hsel Hrest]; [congruence | lia |].
    destruct (fill_row mrow row v) as [r rest]. simpl in *.
    rewrite Hsel.
    rewrite (IH M rest (length M) (length row)).
    + rewrite Hrest. clear. revert v.
      generalize (count_row mrow) as a, (count_true mask) as b.
      induction a; intros b v; simpl.
      * reflexivity.
      * destruct v; simpl; [now rewrite firstn_nil | now rewrite IHa].
    + split; auto.
    + split; auto; simpl in Hn'; congruence.
    + rewrite Hrest, length_skipn. lia.
Qed.

(** [select] only looks at the entries under true positions. *)
Lemma select_row_ext (mrow : list bool) :
  forall r1 r2, length r1 = length r2 ->
    (forall j, nth j mrow false = true -> nth j r1 0 = nth j r2 0) ->
    select_row mrow r1 = select_row mrow r2.
Proof.
  induction mrow as [|b mrow IH]; intros [|x r1] [|y r2] Hl H; simpl in *;
    try discriminate; auto.
  destruct b.
  - f_equal; [apply (H 0%nat); auto|].
    apply IH; [lia|]. intros j Hj. apply (H (S j)); auto.
  - apply IH; [lia|]. intros j Hj. apply (H (S j)); auto.
Qed.

Lemma select_ext (mask : bmatrix) :
  forall A B n m, has_shape A n m -> has_shape B n m ->
    (forall i j, bget mask i j = true -> mget A i j = mget B i j) ->
    select mask A = select mask B.
Proof.
  unfold bget, mget.
  induction mask as [|mrow mask IH]; intros [|a A] [|b B] n m HA HB H;
    simpl; auto.
  - destruct HA as [HA _], HB as [HB _]. simpl in *. congruence.
  - destruct HA as [HA _], HB as [HB _]. simpl in *. congruence.
  - destruct HA as [Hn Hr], HB as [Hn' Hr'].
    inversion Hr; subst. inversion Hr'; subst. f_equal.
    + apply select_row_ext; [congruence|]. intros j Hj. apply (H 0%nat j Hj).
    + apply (IH A B (length A) (length a)).
      * split; auto.
      * split; auto; simpl in Hn'; lia.
      * intros i j Hij. apply (H (S i) j Hij).
Qed.

Lemma select_row_length (mrow : list bool) :
  forall row, length row = length mrow ->
    length (select_row mrow row) = count_row mrow.
Proof.
  unfold count_row.
  induction mrow as [|b mrow IH]; intros [|x row] Hl; simpl in *;
    try discriminate; auto.
  destruct b; simpl; rewrite IH; auto.
Qed.

Lemma select_length (mask : bmatrix) :
  forall M n m, has_shape M n m -> has_shape mask n m ->
    length (select mask M) = count_true mask.
Proof.
  induction mask as [|mrow mask IH]; intros [|row M] n m HM Hmask;
    simpl in *; auto.
  - destruct HM as [HM _], Hmask as [Hk _]. simpl in *. congruence.
  - destruct HM as [Hn Hr], Hmask as [Hn' Hr'].
    inversion Hr; subst. inversion Hr'; subst.
    rewrite length_app, select_row_length by congruence.
    rewrite (IH M (length M) (length row)); auto; split; auto;
      simpl in Hn'; lia.
Qed.

(** Assigning what was selected from [M] rebuilds [M] under the mask. *)
Lemma fill_select_row (mrow : list bool) :
  forall zrow row rest, length zrow = length mrow ->
    length row = length mrow ->
    snd (fill_row mrow zrow (select_row mrow row ++ rest)) = rest /\
    forall j, nth j (fst (fill_row mrow zrow (select_row mrow row ++ rest))) 0
              = if nth j mrow false then nth j row 0 else nth j zrow 0.
Proof.
  induction mrow as [|b mrow IH]; intros [|z zrow] [|x row] rest Hz Hl;
    simpl in *; try discriminate.
  - split; auto. intros j. now destruct j.
  - destruct (IH zrow row rest) as [H1 H2]; [lia | lia |].
    destruct b; simpl.
    + destruct (fill_row mrow zrow (select_row mrow row ++ rest)) as [r rs].
      simpl in *. split; auto. intros [|j]; simpl; auto.
    + destruct (fill_row mrow zrow (select_row mrow row ++ rest)) as [r rs].
      simpl in *. split; auto. intros [|j]; simpl; auto.
Qed.

Lemma fill_select (mask : bmatrix) :
  forall Z M rest n m, has_shape Z n m -> has_shape M n m ->
    has_shape mask n m ->
    forall i j, (i < n)%nat ->
      mget (fill mask Z (select mask M ++ rest)) i j
      = if bget mask i j then mget M i j else mget Z i j.
Proof.
  unfold mget, bget.
  induction mask as [|mrow mask IH]; intros [|z Z] [|row M] rest n m HZ HM Hk;
    intros i j Hi; simpl in *;
    try (destruct HZ as [HZ _], HM as [HM _], Hk as [Hk _]; simpl in *;
         subst; try discriminate; lia).
  destruct HZ as [Hn Hr], HM as [Hn' Hr'], Hk as [Hn'' Hr''].
  inversion Hr; subst. inversion Hr'; subst. inversion Hr''; subst.
  rewrite <- app_assoc.
  destruct (fill_select_row mrow z row (select mask M ++ rest)) as [Hrest Hent];
    [congruence | congruence |].
  destruct (fill_row mrow z (select_row mrow row ++ select mask M ++ rest))
    as [r rs]. simpl in *. subst rs.
  destruct i as [|i]; simpl; auto.
  apply (IH Z M rest (length Z) (length z)); try (split; auto); simpl in *; lia.
Qed.

(** ** Transposition and difference *)

Lemma map2_length {A B C : Type} (f : A -> B -> C) (a : list A) :
  forall b, length a = length b -> length (map2 f a b) = length a.
Proof.
  induction a as [|x a IH]; intros [|y b] H; simpl in *; auto; try discriminate.
Qed.

Lemma map2_nth {A B C : Type} (f : A -> B -> C) (da : A) (db : B) (dc : C)
    (a : list A) :
  forall b i, (i < length a)%nat -> (i < length b)%nat ->
    nth i (map2 f a b) dc = f (nth i a da) (nth i b db).
Proof.
  induction a as [|x a IH]; intros [|y b] i Ha Hb; simpl in *; try lia.
  destruct i as [|i]; auto. apply IH; lia.
Qed.

Lemma transpose_shape (M : matrix) (n : nat) :
  has_shape M n n -> has_shape (transpose M) n n.
Proof.
  intros HM. unfold transpose.
  assert (Hh : length (hd [] M) = n).
  { destruct HM as [Hn Hr]. destruct M as [|row M]; simpl in *; auto.
    inversion Hr; auto. }
  rewrite Hh. split.
  - now rewrite length_map, length_seq.
  - apply Forall_forall. intros r Hr. apply in_map_iff in Hr.
    destruct Hr as [j [<- _]]. rewrite length_map. apply HM.
Qed.

Lemma transpose_get (M : matrix) (n i j : nat) :
  has_shape M n n -> (i < n)%nat -> (j < n)%nat ->
  mget (transpose M) i j = mget M j i.
Proof.
  intros HM Hi Hj. unfold transpose, mget.
  assert (Hh : length (hd [] M) = n).
  { destruct HM as [Hn Hr]. destruct M as [|row M]; simpl in *; auto.
    inversion Hr; auto. }
  rewrite Hh.
  rewrite (nth_indep _ [] (map (fun row : list R => nth 0 row 0) M))
    by (rewrite length_map, length_seq; auto).
  rewrite (map_nth (fun j0 => map (fun row : list R => nth j0 row 0) M)).
  rewrite seq_nth by auto. simpl.
  rewrite (nth_indep _ 0 ((fun row : list R => nth i row 0) []))
    by (rewrite length_map; destruct HM; lia).
  rewrite (map_nth (fun row : list R => nth i row 0)). reflexivity.
Qed.

Lemma msub_shape (A B : matrix) (n m : nat) :
  has_shape A n m -> has_shape B n m -> has_shape (msub A B) n m.
Proof.
  intros [HA HAr] [HB HBr]. unfold msub. split.
  - rewrite map2_length; congruence.
  - clear HA HB. revert B HBr n.
    induction HAr as [|a A Ha HAr IH]; intros B HBr n; simpl.
    + constructor.
    + destruct B as [|b B]; [constructor|]. inversion HBr; subst.
      constructor; [rewrite map2_length; congruence | eapply IH; eauto].
Qed.

Lemma msub_get (A B : matrix) (n m i j : nat) :
  has_shape A n m -> has_shape B n m -> (i < n)%nat -> (j < m)%nat ->
  mget (msub A B) i j = mget A i j - mget B i j.
Proof.
  intros HA HB Hi Hj. unfold msub, mget.
  rewrite (map2_nth _ [] [] []) by (destruct HA, HB; lia).
  apply map2_nth.
  - rewrite (has_shape_row A n m); auto.
  - rewrite (has_shape_row B n m); auto.
Qed.

Lemma firstn_exact {A : Type} (l : list A) (k : nat) :
  length l = k -> firstn k l = l.
Proof. intros <-. apply firstn_all. Qed.

(** What [unpack_uniq_var] returns, entry by entry. *)
Lemma unpack_entries (self : casscf) (v : vector) (idx : bmatrix) :
  uniq_var_indices self (nmo self) (ncore self) (ncas self) (frozen self)
    = Ok idx ->
  has_shape idx (nmo self) (nmo self) ->
  length v = count_true idx ->
  let F := fill idx (zeros (nmo self) (nmo self)) v in
  unpack_uniq_var self v = Ok (msub F (transpose F)) /\
  has_shape F (nmo self) (nmo self) /\
  has_shape (msub F (transpose F)) (nmo self) (nmo self) /\
  forall i j, (i < nmo self)%nat -> (j < nmo self)%nat ->
    mget (msub F (transpose F)) i j = mget F i j - mget F j i.
Proof.
  intros Hidx Hsh Hlen F.
  assert (HF : has_shape F (nmo self) (nmo self))
    by (apply fill_shape, zeros_shape).
  assert (HT : has_shape (transpose F) (nmo self) (nmo self))
    by (apply transpose_shape; auto).
  split; [|split; [|split]].
  - unfold unpack_uniq_var. rewrite Hidx. simpl.
    rewrite Hlen, Nat.eqb_refl. reflexivity.
  - apply HF.
  - apply (msub_shape F (transpose F)); auto.
  - intros i j Hi Hj.
    rewrite (msub_get F (transpose F) (nmo self) (nmo self)) by auto.
    rewrite (transpose_get F (nmo self)) by auto. reflexivity.
Qed.

Lemma bget_true_in_range (mask : bmatrix) (n m i j : nat) :
  has_shape mask n m -> bget mask i j = true -> (i < n)%nat /\ (j < m)%nat.
Proof.
  intros Hs H. unfold bget in H.
  destruct (Nat.lt_ge_cases i n) as [Hi|Hi].
  - split; auto. destruct (Nat.lt_ge_cases j m) as [Hj|Hj]; auto.
    rewrite nth_overflow in H; [discriminate|].
    rewrite (has_shape_row mask n m); auto.
  - rewrite (nth_overflow mask) in H by (destruct Hs; lia).
    destruct j; discriminate.
Qed.

Lemma uniq_count_spec (self : casscf) (idx : bmatrix) :
  uniq_var_indices self (nmo self) (ncore self) (ncas self) (frozen self)
    = Ok idx ->
  uniq_count self = count_true idx.
Proof. intros H. unfold uniq_count. now rewrite H. Qed.

(** ** Packing and unpacking *)

(** C2. For a valid orbital partition and a vector [v] with one value per
    non-redundant rotation index: [unpack_uniq_var v] is an antisymmetric
    nmo-by-nmo matrix, zero on every redundant pair, and packing it gives
    [v] back; and every antisymmetric matrix supported on the non-redundant
    positions is the unpacking of its own packing, so the two maps are
    inverse bijections. *)
Theorem pack_unpack_bijection (self : casscf) (v : vector) :
  valid_partition self ->
  length v = uniq_count self ->
  (exists M,
      unpack_uniq_var self v = Ok M /\
      pack_uniq_var self M = Ok v /\
      antisymmetric (nmo self) M /\
      supported self M /\
      forall i j, (i < nmo self)%nat -> (j < nmo self)%nat ->
        redundant self i j -> mget M i j = 0) /\
  (forall M, antisymmetric (nmo self) M -> supported self M ->
     exists w,
       pack_uniq_var self M = Ok w /\
       length w = uniq_count self /\
       unpack_uniq_var self w = Ok M).
Proof.
  intros Hvalid Hlen.
  destruct (uniq_var_indices_spec self Hvalid) as [idx [Hidx [Hsh Hent]]].
  rewrite (uniq_count_spec self idx Hidx) in *.
  set (n := nmo self) in *.
  split.
  - destruct (unpack_entries self v idx Hidx Hsh Hlen) as [Hun [HF [HM HMe]]].
    fold n in HF, HM, HMe.
    set (F := fill idx (zeros n n) v) in *.
    assert (Hzero : forall i j, (i < n)%nat -> (j < n)%nat ->
              mask_entry self i j = false -> mget F i j = 0).
    { intros i j Hi Hj Hm. unfold F.
      rewrite fill_unmasked by (rewrite Hent; auto). apply zeros_get. }
    exists (msub F (transpose F)). split; [exact Hun|].
    split; [|split; [|split]].
    + unfold pack_uniq_var. cbv zeta. fold n. rewrite Hidx. simpl.
      assert (Hb : has_shapeb (msub F (transpose F)) n n = true)
        by (apply has_shapeb_spec; auto).
      rewrite Hb. f_equal.
      rewrite (select_ext idx (msub F (transpose F)) F n n); auto.
      * unfold F. rewrite (select_fill idx _ v n n); auto.
        -- apply firstn_exact; auto.
        -- apply zeros_shape.
        -- lia.
      * intros i j Hb'.
        destruct (bget_true_in_range idx n n i j Hsh Hb') as [Hi Hj].
        rewrite HMe by auto.
        rewrite (Hzero j i) by
          (auto; apply mask_entry_mirror; rewrite <- Hent; auto).
        ring.
    + split; auto. intros i j Hi Hj. rewrite !HMe by auto. ring.
    + intros i j Hi Hj H1 H2. rewrite HMe by auto.
      rewrite (Hzero i j), (Hzero j i) by auto. ring.
    + intros i j Hi Hj Hr. rewrite HMe by auto.
      rewrite (Hzero i j), (Hzero j i); auto; [ring| |].
      * apply mask_entry_redundant, redundant_sym; auto.
      * apply mask_entry_redundant; auto.
  - intros M [HM Hanti] Hsup.
    exists (select idx M).
    assert (Hl : length (select idx M) = count_true idx)
      by (apply (select_length idx M n n); auto).
    split; [|split; auto].
    + unfold pack_uniq_var. cbv zeta. fold n. rewrite Hidx. simpl.
      assert (Hb : has_shapeb M n n = true) by (apply has_shapeb_spec; auto).
      now rewrite Hb.
    + destruct (unpack_entries self (select idx M) idx Hidx Hsh Hl)
        as [Hun [HF [HM' HMe]]].
      fold n in HF, HM', HMe. rewrite Hun. f_equal.
      apply (matrix_ext _ _ n n); auto.
      intros i j Hi Hj. rewrite HMe by auto.
      assert (HFe : forall a b, (a < n)%nat -> (b < n)%nat ->
                mget (fill idx (zeros n n) (select idx M)) a b
                = if mask_entry self a b then mget M a b else 0).
      { intros a b Ha Hb.
        rewrite <- (app_nil_r (select idx M)).
        rewrite (fill_select idx (zeros n n) M [] n n); auto.
        - rewrite Hent by auto. now rewrite zeros_get.
        - apply zeros_shape. }
      rewrite !HFe by auto.
      destruct (mask_entry self i j) eqn:Eij.
      * rewrite (mask_entry_mirror self i j Eij). ring.
      * destruct (mask_entry self j i) eqn:Eji.
        -- rewrite (Hanti i j) by auto. ring.
        -- rewrite (Hsup i j) by auto. ring.
Qed.

Lemma pack_unpack_bijection_witness :
  valid_partition cas3 /\
  length [1; 2; 3] = uniq_count cas3 /\
  ((exists M,
      unpack_uniq_var cas3 [1; 2; 3] = Ok M /\
      pack_uniq_var cas3 M = Ok [1; 2; 3] /\
      antisymmetric (nmo cas3) M /\
      supported cas3 M /\
      forall i j, (i < nmo cas3)%nat -> (j < nmo cas3)%nat ->
        redundant cas3 i j -> mget M i j = 0) /\
   (forall M, antisymmetric (nmo cas3) M -> supported cas3 M ->
      exists w,
        pack_uniq_var cas3 M = Ok w /\
        length w = uniq_count cas3 /\
        unpack_uniq_var cas3 w = Ok M)).
Proof.
  assert (Hv : valid_partition cas3) by (split; simpl; auto; lia).
  assert (Hl : length [1; 2; 3] = uniq_count cas3) by reflexivity.
  split; [exact Hv|]. split; [exact Hl|].
  exact (pack_unpack_bijection cas3 [1; 2; 3] Hv Hl).
Defined.

(** ** Frozen orbitals *)

Lemma unpack_zero_on_redundant (self : casscf) (v : vector) :
  valid_partition self ->
  length v = uniq_count self ->
  exists M,
    unpack_uniq_var self v = Ok M /\
    has_shape M (nmo self) (nmo self) /\
    forall i j, (i < nmo self)%nat -> (j < nmo self)%nat ->
      redundant self i j -> mget M i j = 0.
Proof.
  intros Hvalid Hlen.
  destruct (uniq_var_indices_spec self Hvalid) as [idx [Hidx [Hsh Hent]]].
  rewrite (uniq_count_spec self idx Hidx) in Hlen.
  destruct (unpack_entries self v idx Hidx Hsh Hlen) as [Hun [HF [HM HMe]]].
  eexists. split; [exact Hun|]. split; [exact HM|].
  intros i j Hi Hj Hr. rewrite HMe by auto.
  rewrite !fill_unmasked, !zeros_get; [ring | |].
  - rewrite Hent by auto. apply mask_entry_redundant, redundant_sym; auto.
  - rewrite Hent by auto. apply mask_entry_redundant; auto.
Qed.

Lemma vsum_zero (l : vector) : Forall (fun x => x = 0) l -> vsum l = 0.
Proof.
  induction 1 as [|x l Hx Hl IH]; simpl; auto.
  change (x + vsum l = 0). rewrite IH, Hx. ring.
Qed.

Lemma fsum_zero (n : nat) (f : nat -> R) :
  (forall s, (s < n)%nat -> f s = 0) -> fsum n f = 0.
Proof.
  intros H. unfold fsum. apply vsum_zero, Forall_forall.
  intros x Hx. apply in_map_iff in Hx. destruct Hx as [s [<- Hs]].
  apply in_seq in Hs. apply H. lia.
Qed.

Lemma fsum_S_first (n : nat) (f : nat -> R) :
  fsum (S n) f = f 0%nat + fsum n (fun k => f (S k)).
Proof.
  unfold fsum. simpl. f_equal. rewrite <- seq_shift, map_map. reflexivity.
Qed.

(** Powers of a matrix whose row [i] and column [i] vanish keep a vanishing
    row and column [i]. *)
Lemma mat_pow_frozen (n : nat) (A : nat -> nat -> R) (i : nat) :
  (i < n)%nat ->
  (forall j, (j < n)%nat -> A i j = 0 /\ A j i = 0) ->
  forall k j, (j < n)%nat ->
    mat_pow n A (S k) i j = 0 /\ mat_pow n A (S k) j i = 0.
Proof.
  intros Hi HA. induction k as [|k IH]; intros j Hj.
  - split; simpl; apply fsum_zero; intros s Hs.
    + destruct (HA s Hs) as [-> _]. ring.
    + destruct (Nat.eqb_spec s i) as [->|Hne].
      * destruct (HA j Hj) as [_ ->]. ring.
      * ring.
  - split.
    + change (fsum n (fun s => A i s * mat_pow n A (S k) s j) = 0).
      apply fsum_zero. intros s Hs. destruct (HA s Hs) as [-> _]. ring.
    + change (fsum n (fun s => A j s * mat_pow n A (S k) s i) = 0).
      apply fsum_zero. intros s Hs. destruct (IH s Hs) as [_ ->]. ring.
Qed.

Lemma expm_partial_frozen (n : nat) (A : nat -> nat -> R) (i : nat) :
  (i < n)%nat ->
  (forall j, (j < n)%nat -> A i j = 0 /\ A j i = 0) ->
  forall N j, (j < n)%nat ->
    expm_partial n A N i j = delta i j /\ expm_partial n A N j i = delta j i.
Proof.
  intros Hi HA N j Hj. unfold expm_partial.
  rewrite !fsum_S_first.
  rewrite !fsum_zero.
  - simpl. unfold delta. split; field.
  - intros k _. destruct (mat_pow_frozen n A i Hi HA k j Hj) as [_ ->].
    unfold Rdiv. ring.
  - intros k _. destruct (mat_pow_frozen n A i Hi HA k j Hj) as [-> _].
    unfold Rdiv. ring.
Qed.

Lemma Un_cv_constant (Un : nat -> R) (c l : R) :
  (forall N, Un N = c) -> Un_cv Un l -> l = c.
Proof.
  intros Hc Hl. apply (UL_sequence Un l c Hl).
  intros eps Heps. exists 0%nat. intros N _. rewrite Hc.
  unfold R_dist. rewrite Rminus_diag, Rabs_R0. exact Heps.
Qed.

(** The exponential of a matrix with vanishing row and column [i] has the
    row and the column of the identity there. *)
Lemma is_expm_frozen (n : nat) (A U : matrix) (i : nat) :
  (i < n)%nat ->
  (forall j, (j < n)%nat -> mget A i j = 0 /\ mget A j i = 0) ->
  is_expm n A U ->
  forall j, (j < n)%nat -> mget U i j = delta i j /\ mget U j i = delta j i.
Proof.
  intros Hi HA [HU Hlim] j Hj. split.
  - apply (Un_cv_constant (fun N => expm_partial n (mget A) N i j)); auto.
    intros N. apply (expm_partial_frozen n (mget A) i Hi HA N j Hj).
  - apply (Un_cv_constant (fun N => expm_partial n (mget A) N j i)); auto.
    intros N. apply (expm_partial_frozen n (mget A) i Hi HA N j Hj).
Qed.

Lemma mscale_one (M : matrix) : mscale 1 M = M.
Proof.
  unfold mscale, vscale. rewrite <- (map_id M) at 2.
  apply map_ext. intros row. rewrite <- (map_id row) at 2.
  apply map_ext. intros x. ring.
Qed.

Lemma mmul_get (A B : matrix) (r c : nat) :
  (r < length A)%nat -> (c < length (hd [] B))%nat ->
  mget (mmul A B) r c = dot (nth r A []) (column B c).
Proof.
  intros Hr Hc. unfold mmul, mget.
  set (f := fun row : list R =>
              map (fun j => dot row (column B j)) (seq 0 (length (hd [] B)))).
  rewrite (nth_indep _ [] (f [])) by (rewrite length_map; auto).
  rewrite (map_nth f). unfold f.
  rewrite (nth_indep _ 0 ((fun j => dot (nth r A []) (column B j)) 0%nat))
    by (rewrite length_map, length_seq; auto).
  rewrite (map_nth (fun j => dot (nth r A []) (column B j))).
  now rewrite seq_nth.
Qed.

Lemma dot_delta (i : nat) (row : vector) :
  forall a,
    dot row (map (fun s => delta s i) (seq a (length row)))
    = if Nat.leb a i then nth (i - a) row 0 else 0.
Proof.
  unfold dot.
  induction row as [|x t IH]; intros a; simpl.
  - destruct (Nat.leb a i); [now destruct (i - a)%nat | reflexivity].
  - change (x * delta a i
            + vsum (map2 Rmult t (map (fun s => delta s i) (seq (S a) (length t))))
            = if Nat.leb a i then nth (i - a) (x :: t) 0 else 0).
    rewrite IH. unfold delta.
    destruct (Nat.eqb_spec a i) as [->|Hne].
    + rewrite Nat.leb_refl, Nat.sub_diag.
      destruct (Nat.leb_spec (S i) i); [lia | simpl; ring].
    + destruct (Nat.leb_spec a i) as [Hle|Hgt].
      * destruct (Nat.leb_spec (S a) i); [|lia].
        replace (i - a)%nat with (S (i - S a)) by lia. simpl. ring.
      * destruct (Nat.leb_spec (S a) i); [lia | ring].
Qed.

Lemma column_delta (U : matrix) (n i : nat) :
  has_shape U n n ->
  (forall j, (j < n)%nat -> mget U j i = delta j i) ->
  column U i = map (fun s => delta s i) (seq 0 n).
Proof.
  intros [Hn Hr] H. unfold column.
  apply (nth_ext _ _ 0 0).
  - now rewrite !length_map, length_seq.
  - intros s Hs. rewrite length_map in Hs.
    rewrite (nth_indep (map (fun row : list R => nth i row 0) U) 0
               ((fun row : list R => nth i row 0) []))
      by (rewrite length_map; auto).
    rewrite (map_nth (fun row : list R => nth i row 0)).
    rewrite (nth_indep (map (fun s0 => delta s0 i) (seq 0 n)) 0
               ((fun s0 => delta s0 i) 0%nat))
      by (rewrite length_map, length_seq; lia).
    rewrite (map_nth (fun s0 => delta s0 i)).
    rewrite seq_nth by lia. simpl. apply H. lia.
Qed.

(** C10. Frozen orbitals never rotate.  For a frozen orbital [i] (one of the
    first [k] for a count [k], or a listed index), the unpacked matrix has a
    zero row and a zero column at [i]; the rotation matrix built from it,
    when [expm] returns the matrix exponential there, has the row and the
    column of the identity at [i]; and [rotate_mo] keeps column [i] of the
    orbitals. *)
Theorem frozen_orbitals_never_rotate (expm : matrix -> matrix)
    (self : casscf) (v : vector) (i : nat) :
  valid_partition self ->
  length v = uniq_count self ->
  is_frozen self i ->
  (i < nmo self)%nat ->
  exists dr,
    unpack_uniq_var self v = Ok dr /\
    (forall j, (j < nmo self)%nat -> mget dr i j = 0 /\ mget dr j i = 0) /\
    (is_expm (nmo self) dr (expm dr) ->
     exists U,
       update_rotate_matrix expm self v None = Ok U /\
       (forall j, (j < nmo self)%nat ->
          mget U i j = delta i j /\ mget U j i = delta j i) /\
       forall mo m r, has_shape mo m (nmo self) -> (r < m)%nat ->
         mget (rotate_mo self mo U) r i = mget mo r i).
Proof.
  intros Hvalid Hlen Hfr Hi.
  destruct (unpack_zero_on_redundant self v Hvalid Hlen) as [dr [Hun [Hsh Hz]]].
  exists dr. split; [exact Hun|].
  assert (Hrc : forall j, (j < nmo self)%nat ->
            mget dr i j = 0 /\ mget dr j i = 0).
  { intros j Hj. split; apply Hz; auto; unfold redundant; tauto. }
  split; [exact Hrc|].
  intros Hexp. exists (expm dr).
  pose proof (is_expm_frozen (nmo self) dr (expm dr) i Hi Hrc Hexp) as HU.
  split; [|split; [exact HU|]].
  - unfold update_rotate_matrix. rewrite Hun. simpl.
    unfold expmat. now rewrite mscale_one.
  - intros mo m r Hmo Hr. unfold rotate_mo.
    destruct Hexp as [HUs _].
    assert (Hhd : length (hd [] (expm dr)) = nmo self).
    { destruct HUs as [Hn Hrows]. destruct (expm dr) as [|row U'].
      - simpl in Hn. lia.
      - inversion Hrows; auto. }
    rewrite mmul_get by (destruct Hmo; lia).
    rewrite (column_delta (expm dr) (nmo self) i HUs)
      by (intros j Hj; apply HU; auto).
    rewrite <- (has_shape_row mo m (nmo self) r Hmo Hr).
    rewrite dot_delta. simpl. now rewrite Nat.sub_0_r.
Qed.

Lemma eye_shape (n : nat) : has_shape (eye n) n n.
Proof.
  unfold eye. split.
  - now rewrite length_map, length_seq.
  - apply Forall_forall. intros row Hrow. apply in_map_iff in Hrow.
    destruct Hrow as [i [<- _]]. now rewrite length_map, length_seq.
Qed.

Lemma eye_get (n i j : nat) :
  (i < n)%nat -> (j < n)%nat -> mget (eye n) i j = delta i j.
Proof.
  intros Hi Hj. unfold eye, mget.
  set (f := fun i0 => map (fun j0 => if Nat.eqb i0 j0 then 1 else 0) (seq 0 n)).
  rewrite (nth_indep (map f (seq 0 n)) [] (f 0%nat))
    by (rewrite length_map, length_seq; auto).
  rewrite (map_nth f), seq_nth by auto. unfold f. simpl.
  set (g := fun j0 => if Nat.eqb i j0 then 1 else 0).
  rewrite (nth_indep (map g (seq 0 n)) 0 (g 0%nat))
    by (rewrite length_map, length_seq; auto).
  rewrite (map_nth g), seq_nth by auto. reflexivity.
Qed.

(** The exponential of the zero matrix is the identity. *)
Lemma is_expm_zero (n : nat) (A : matrix) :
  (forall i j, (i < n)%nat -> (j < n)%nat -> mget A i j = 0) ->
  is_expm n A (eye n).
Proof.
  intros HA. split; [apply eye_shape|].
  intros i j Hi Hj. rewrite eye_get by auto.
  assert (Hc : forall N, expm_partial n (mget A) N i j = delta i j).
  { intros N. unfold expm_partial. rewrite fsum_S_first, fsum_zero.
    - simpl. unfold delta. field.
    - intros k _. simpl. rewrite fsum_zero; [unfold Rdiv; ring|].
      intros s Hs. rewrite HA by auto. ring. }
  intros eps Heps. exists 0%nat. intros N _. rewrite Hc.
  unfold R_dist. rewrite Rminus_diag, Rabs_R0. exact Heps.
Qed.

Lemma frozen_orbitals_never_rotate_witness :
  valid_partition cas3_frozen_count /\
  length [0] = uniq_count cas3_frozen_count /\
  is_frozen cas3_frozen_count 0 /\
  (0 < nmo cas3_frozen_count)%nat /\
  exists dr,
    unpack_uniq_var cas3_frozen_count [0] = Ok dr /\
    (forall j, (j < 3)%nat -> mget dr 0 j = 0 /\ mget dr j 0 = 0) /\
    is_expm 3 dr (eye 3) /\
    exists U,
      update_rotate_matrix (fun _ => eye 3) cas3_frozen_count [0] None = Ok U /\
      (forall j, (j < 3)%nat ->
         mget U 0 j = delta 0 j /\ mget U j 0 = delta j 0) /\
      forall mo m r, has_shape mo m 3 -> (r < m)%nat ->
        mget (rotate_mo cas3_frozen_count mo U) r 0 = mget mo r 0.
Proof.
  assert (Hv : valid_partition cas3_frozen_count) by (split; simpl; auto; lia).
  assert (Hl : length [0] = uniq_count cas3_frozen_count) by reflexivity.
  assert (Hf : is_frozen cas3_frozen_count 0) by (unfold is_frozen; simpl; lia).
  assert (Hi : (0 < nmo cas3_frozen_count)%nat) by (simpl; lia).
  split; [exact Hv|]. split; [exact Hl|]. split; [exact Hf|].
  split; [exact Hi|].
  destruct (frozen_orbitals_never_rotate (fun _ => eye 3) cas3_frozen_count
              [0] 0%nat Hv Hl Hf Hi) as [dr [Hun [Hz Hrot]]].
  exists dr. split; [exact Hun|]. split; [exact Hz|].
  assert (He : is_expm 3 dr (eye 3)).
  { apply is_expm_zero. intros i j Hi' Hj'.
    unfold unpack_uniq_var in Hun. simpl in Hun.
    injection Hun as <-.
    destruct i as [|[|[|i]]]; try lia;
      destruct j as [|[|[|j]]]; try lia; unfold mget; simpl; ring. }
  split; [exact He|]. exact (Hrot He).
Defined.

(** ** The k-point energy *)

(** What [energy_elec] tests: only an imaginary part above the tolerance
    raises. *)
Lemma energy_elec_raises_iff (mf : Khf.mean_field)
    (dm h1e vhf : Khf.kmatrix) :
  dm <> [] ->
  (raises (Khf.energy_elec mf (Some dm) (Some h1e) (Some vhf))
   <-> Khf.imag (Khf.coulomb_energy dm vhf) > Khf.imag_tol).
Proof.
  intros Hdm. unfold Khf.energy_elec, Khf.coulomb_energy, Khf.or_default.
  destruct dm as [|d dm]; [congruence|]. simpl Nat.eqb. cbv iota.
  unfold Khf.abs_bool, Rgtb.
  destruct (Rltb _ _) eqn:E.
  - apply Rltb_true in E. split; [intros _; exact E | intros _; eexists; reflexivity].
  - apply Rltb_false in E. split.
    + intros [e He]. discriminate.
    + intros H. contradiction.
Qed.

(** C5. At one k-point with density 1 and mean-field potential -2i the
    Coulomb energy is -i: the magnitude of its imaginary part is far above
    1e-10, and [energy_elec] returns the real parts (0, 0) all the same. *)
Theorem energy_elec_negative_imaginary_part :
  Khf.imag (Khf.coulomb_energy Khf.dm_one Khf.vhf_neg_imag) = -1 /\
  Rabs (Khf.imag (Khf.coulomb_energy Khf.dm_one Khf.vhf_neg_imag))
    > Khf.imag_tol /\
  Khf.energy_elec Khf.mf_unused (Some Khf.dm_one) (Some Khf.h1e_zero)
    (Some Khf.vhf_neg_imag) = Ok (0, 0).
Proof.
  assert (Him : Khf.imag (Khf.coulomb_energy Khf.dm_one Khf.vhf_neg_imag) = -1).
  { unfold Khf.coulomb_energy, Khf.einsum_kij_kji, Khf.entry. simpl. field. }
  split; [exact Him|]. split.
  - rewrite Him, Rabs_left by lra. unfold Khf.imag_tol. lra.
  - unfold Khf.energy_elec, Khf.or_default. simpl Nat.eqb. cbv iota.
    fold (Khf.coulomb_energy Khf.dm_one Khf.vhf_neg_imag).
    unfold Khf.abs_bool, Rgtb.
    destruct (Rltb _ _) eqn:E.
    + apply Rltb_true in E. rewrite Him in E. unfold Khf.imag_tol in E. lra.
    + f_equal. f_equal.
      * unfold Khf.coulomb_energy, Khf.einsum_kij_kji, Khf.entry. simpl. field.
      * unfold Khf.coulomb_energy, Khf.einsum_kij_kji, Khf.entry. simpl. field.
Qed.

(** ** The CASCI step *)

(** A CI energy that is one number and no Python float or NumPy scalar:
    the Python int 0.  [casci] answers it with the RuntimeError about
    multiple roots, so the error is not raised for arrays of roots only. *)
Lemma casci_raises_for_int_energy :
  casci (fun _ _ _ _ => (0, PyInt 0, [1])) cas3 [] None None
    = Raise (RuntimeError multiple_roots_msg) /\
  ~ non_scalar (PyInt 0) /\
  ~ (raises (casci (fun _ _ _ _ => (0, PyInt 0, [1])) cas3 [] None None)
     <-> non_scalar (PyInt 0)).
Proof.
  split; [reflexivity|]. split; [exact (fun H => H)|].
  intros [H _]. apply H. eexists. reflexivity.
Qed.

(** C6 (amended). [casci] tests the type of the CI energy it obtained: it
    raises the RuntimeError that points to the state-average and
    state-specific wrappers exactly when the energy is neither a Python
    float nor a NumPy scalar, which is the case for every array of roots,
    and otherwise returns the three values of [casci.kernel] unchanged. *)
Theorem casci_raises_iff_not_float_or_number
    (casci_kernel : casscf -> matrix -> option vector -> option eris_t ->
                    R * py_energy * vector)
    (self : casscf) (mo_coeff : matrix) (ci0 : option vector)
    (eris : option eris_t) :
  let '(e_tot, e_ci, fcivec) := casci_kernel self mo_coeff ci0 eris in
  casci casci_kernel self mo_coeff ci0 eris
    = match e_ci with
      | PyFloat _ | NpNumber _ => Ok (e_tot, e_ci, fcivec)
      | PyInt _ | PyComplex _ _ | NpArray0d _ | NpArray _ =>
          Raise (RuntimeError multiple_roots_msg)
      end /\
  (raises (casci casci_kernel self mo_coeff ci0 eris)
   <-> ~ exists x, e_ci = PyFloat x \/ e_ci = NpNumber x) /\
  (non_scalar e_ci ->
     casci casci_kernel self mo_coeff ci0 eris
       = Raise (RuntimeError multiple_roots_msg)) /\
  mentions multiple_roots_msg "mcscf.state_average" = true /\
  mentions multiple_roots_msg "mcscf.state_specific" = true.
Proof.
  unfold casci.
  destruct (casci_kernel self mo_coeff ci0 eris) as [[e_tot e_ci] fcivec].
  split; [destruct e_ci; reflexivity|].
  split; [|split; [|split; reflexivity]].
  - destruct e_ci as [x|n|re im|x|x|roots]; simpl; split;
      try (intros [e He]; discriminate);
      try (intros _; eexists; reflexivity);
      try (intros _ [y [Hy|Hy]]; discriminate).
    + intros H. exfalso. apply H. exists x. left. reflexivity.
    + intros H. exfalso. apply H. exists x. right. reflexivity.
  - destruct e_ci; simpl; try contradiction; reflexivity.
Qed.

(** ** The CI response *)

(** The tolerance is the larger of [conv_tol] and a tenth of the squared
    gradient norm. *)
Lemma approx_ci_tol_bounds (self : casscf) (norm_gorb : R) :
  let t := Rmax (conv_tol self) (norm_gorb ^ 2 * / 10) in
  approx_ci_tol self {| envs_norm_gorb := Some norm_gorb |} = Some t /\
  conv_tol self <= t /\
  norm_gorb ^ 2 * / 10 <= t /\
  (conv_tol self <= norm_gorb ^ 2 * / 10 -> t = norm_gorb ^ 2 * / 10) /\
  (norm_gorb ^ 2 * / 10 <= conv_tol self -> t = conv_tol self).
Proof.
  simpl. split; [reflexivity|].
  split; [apply Rmax_l|]. split; [apply Rmax_r|].
  split; intros H; [apply Rmax_right | apply Rmax_left]; auto.
Qed.

(** With the default [conv_tol] of 1e-7 and a gradient norm of one the CI
    tolerance is 0.1: it is looser than [conv_tol]. *)
Lemma approx_ci_tol_looser_than_conv_tol :
  exists t,
    approx_ci_tol cas3 envs_gorb_one = Some t /\
    t = / 10 /\
    ~ t <= conv_tol cas3.
Proof.
  exists (Rmax (conv_tol cas3) (1 ^ 2 * / 10)).
  split; [reflexivity|].
  assert (Ht : Rmax (conv_tol cas3) (1 ^ 2 * / 10) = / 10).
  { rewrite Rmax_right; simpl; lra. }
  split; [exact Ht|]. rewrite Ht. simpl. lra.
Qed.

(** C7 (amended). When [envs] supplies an orbital-gradient norm, the CI
    tolerance is max(conv_tol, 0.1 * norm_gorb^2): it is never tighter than
    [conv_tol], and it is 0.1 * norm_gorb^2 as soon as that is at least
    [conv_tol].  Every call of the CI back end that takes a tolerance gets
    this one: [approx_kernel], [fcisolver.kernel] of a solver without
    [contract_2e] or [absorb_h1e], and [fcisolver.kernel] of the full
    response; the first two return no CI gradient. *)
Theorem solve_approx_ci_tolerance
    (safe_eigh : matrix -> matrix -> vector * matrix) (current_memory : R)
    (fcisolver : fcisolver_t) (self : casscf) (h1 : matrix) (h2 : tensor4)
    (ci0 : vector) (ecore e_ci : R) (envs : envs_t) (norm_gorb : R) :
  envs_norm_gorb envs = Some norm_gorb ->
  let t := Rmax (conv_tol self) (norm_gorb ^ 2 * / 10) in
  let run := solve_approx_ci safe_eigh current_memory fcisolver self h1 h2
               ci0 ecore e_ci envs in
  conv_tol self <= t /\
  (conv_tol self <= norm_gorb ^ 2 * / 10 -> t = norm_gorb ^ 2 * / 10) /\
  match approx_kernel fcisolver with
  | Some fn =>
      run = Ok (snd (fn h1 h2 (ncas self) (nelecas self) ci0 (Some t)
                       (max_memory self)),
                None)
  | None =>
      match contract_2e fcisolver, absorb_h1e fcisolver with
      | Some contract, Some absorb =>
          (ci_response_space self > 7)%Z ->
          let hc := contract (absorb h1 h2 (ncas self) (nelecas self) (/ 2))
                      ci0 (ncas self) (nelecas self) in
          run = Ok (snd (fci_kernel fcisolver h1 h2 (ncas self) (nelecas self)
                           (Some ci0) (Some t)
                           (Rmax 400 (max_memory self - current_memory)) None),
                    Some (vsub hc (vscale (e_ci - ecore) ci0)))
      | _, _ =>
          run = Ok (snd (fci_kernel fcisolver h1 h2 (ncas self) (nelecas self)
                           (Some ci0) (Some t) (max_memory self)
                           (Some (ci_response_space self))),
                    None)
      end
  end.
Proof.
  intros Henv t run.
  destruct (approx_ci_tol_bounds self norm_gorb) as [_ [Hlo [_ [Heq _]]]].
  split; [exact Hlo|]. split; [exact Heq|].
  assert (Ht : approx_ci_tol self envs = Some t)
    by (unfold approx_ci_tol; rewrite Henv; reflexivity).
  unfold run, solve_approx_ci. rewrite Ht.
  destruct (approx_kernel fcisolver) as [fn|]; [reflexivity|].
  destruct (contract_2e fcisolver) as [contract|]; [|reflexivity].
  destruct (absorb_h1e fcisolver) as [absorb|]; [|reflexivity].
  intros Hfull. cbv zeta.
  assert (Hgt : Z.gtb (ci_response_space self) 7 = true)
    by (rewrite Z.gtb_ltb; apply Z.ltb_lt; lia).
  rewrite Hgt. reflexivity.
Qed.

Lemma solve_approx_ci_tolerance_witness :
  envs_norm_gorb envs_gorb_one = Some 1 /\
  solve_approx_ci (fun _ _ => ([], [])) 0 solver_with_approx_kernel cas3
    [] [] [1] 0 0 envs_gorb_one
  = Ok ([1], None) /\
  conv_tol cas3 <= Rmax (conv_tol cas3) (1 ^ 2 * / 10).
Proof.
  split; [reflexivity|].
  destruct (solve_approx_ci_tolerance (fun _ _ => ([], [])) 0
              solver_with_approx_kernel cas3 [] [] [1] 0 0 envs_gorb_one 1
              eq_refl)
    as [Hlo [_ Hrun]].
  split; [exact Hrun | exact Hlo].
Defined.

(** ** Norms *)

Lemma dot_vscale (c : R) (v : vector) :
  dot (vscale c v) (vscale c v) = c * c * dot v v.
Proof.
  unfold dot, vscale, vsum.
  induction v as [|x v IH]; simpl; [ring|]. rewrite IH. ring.
Qed.

Lemma dot_self_nonneg (v : vector) : 0 <= dot v v.
Proof.
  unfold dot, vsum. induction v as [|x v IH]; simpl; [lra|].
  pose proof (Rle_0_sqr x) as Hx. unfold Rsqr in Hx. lra.
Qed.

Lemma norm_nonneg (v : vector) : 0 <= norm v.
Proof. unfold norm. apply sqrt_pos. Qed.

Lemma norm_vscale (c : R) (v : vector) :
  0 <= c -> norm (vscale c v) = c * norm v.
Proof.
  intros Hc. unfold norm. rewrite dot_vscale.
  rewrite sqrt_mult; [|nra | apply dot_self_nonneg].
  now rewrite sqrt_square.
Qed.

(** A vector of non-zero norm, once normalised, has norm one. *)
Lemma normalize_unit (v : vector) : norm v <> 0 -> norm (normalize v) = 1.
Proof.
  intros Hv. unfold normalize.
  pose proof (norm_nonneg v) as Hn.
  assert (Hpos : 0 < norm v) by lra.
  rewrite norm_vscale.
  - field. exact Hv.
  - unfold Rdiv. rewrite Rmult_1_l. left. now apply Rinv_0_lt_compat.
Qed.

Lemma dot_self_zero (v : vector) :
  dot v v = 0 -> Forall (fun x => x = 0) v.
Proof.
  induction v as [|x v IH]; intros H; [constructor|].
  change (x * x + dot v v = 0) in H.
  pose proof (dot_self_nonneg v) as Hv.
  assert (Hx : x * x = 0) by nra.
  constructor; [nra | apply IH; nra].
Qed.

Lemma vadd_zero_dot (a : vector) :
  forall b, length b = length a ->
    Forall (fun x => x = 0) (vadd a b) -> dot b b = dot a a.
Proof.
  induction a as [|x a IH]; intros [|y b] Hl H; simpl in *;
    try discriminate; auto.
  inversion H as [|z l Hz Hrest]; subst.
  change (y * y + dot b b = x * x + dot a a).
  rewrite (IH b) by (auto; lia). nra.
Qed.

(** For a normalised [ci0] and a trust region of at least one, the test of
    the guard can only pass when [ci0 + g] is not the zero vector. *)
Lemma guard_sum_nonzero (trust : R) (ci0 ci1 g : vector) :
  norm ci0 = 1 -> length g = length ci0 -> 1 <= trust ->
  1 - Rabs (dot ci0 ci1) > norm g * trust ->
  norm (vadd ci0 g) <> 0.
Proof.
  intros Hn Hl Ht Hcond H0.
  unfold norm in H0. apply sqrt_eq_0 in H0; [|apply dot_self_nonneg].
  apply dot_self_zero in H0.
  assert (Hg : norm g = 1).
  { unfold norm. rewrite (vadd_zero_dot ci0 g Hl H0). exact Hn. }
  rewrite Hg in Hcond. pose proof (Rabs_pos (dot ci0 ci1)). lra.
Qed.

(** C8. Let [solve_approx_ci] return the candidate [ci1] and the gradient
    [g].  If [g] is an array and 1 - |<ci1|ci0>| > |g| * ci_grad_trust_region,
    [update_casdm] returns (ci0 + g) / |ci0 + g| in place of [ci1] and the
    density matrices of that vector; the vector has norm one whenever
    [ci0 + g] is not zero, which is always so for a normalised [ci0] and a
    trust region of at least one.  If [g] is None or the test fails, it
    returns [ci1] and its density matrices. *)
Theorem update_casdm_trust_region
    (hessian_co : casscf -> matrix -> matrix -> eris_t -> hessian_co_t)
    (safe_eigh : matrix -> matrix -> vector * matrix) (current_memory : R)
    (fcisolver : fcisolver_t) (self : casscf) (mo u : matrix)
    (fcivec : vector) (e_ci : R) (eris : eris_t) (envs : envs_t)
    (ci1 : vector) (g : option vector) :
  solve_approx_ci safe_eigh current_memory fcisolver self
    (hco_h1 (hessian_co self mo u eris)) (hco_h2 (hessian_co self mo u eris))
    fcivec (hco_ecore (hessian_co self mo u eris)) e_ci envs = Ok (ci1, g) ->
  let run := update_casdm hessian_co safe_eigh current_memory fcisolver self
               mo u fcivec e_ci eris envs in
  let rdm12 := fun ci => make_rdm12 fcisolver ci (ncas self) (nelecas self) in
  (forall gv, g = Some gv ->
     1 - Rabs (dot fcivec ci1) > norm gv * ci_grad_trust_region self ->
     let ci := vscale (1 / norm (vadd fcivec gv)) (vadd fcivec gv) in
     run = Ok (fst (rdm12 ci), snd (rdm12 ci), g, ci) /\
     (norm (vadd fcivec gv) <> 0 -> norm ci = 1) /\
     (norm fcivec = 1 -> length gv = length fcivec ->
      1 <= ci_grad_trust_region self -> norm ci = 1)) /\
  (forall gv, g = Some gv ->
     ~ 1 - Rabs (dot fcivec ci1) > norm gv * ci_grad_trust_region self ->
     run = Ok (fst (rdm12 ci1), snd (rdm12 ci1), g, ci1)) /\
  (g = None -> run = Ok (fst (rdm12 ci1), snd (rdm12 ci1), g, ci1)).
Proof.
  intros Hsolve run rdm12. unfold run, update_casdm. rewrite Hsolve. simpl.
  split; [|split].
  - intros gv -> Hcond. unfold Rgtb.
    assert (E : Rltb (norm gv * ci_grad_trust_region self)
                     (1 - Rabs (dot fcivec ci1)) = true)
      by (apply Rltb_true; exact Hcond).
    rewrite E. fold (normalize (vadd fcivec gv)). split; [|split].
    + unfold rdm12.
      destruct (make_rdm12 fcisolver (normalize (vadd fcivec gv)) (ncas self)
                  (nelecas self)); reflexivity.
    + apply normalize_unit.
    + intros Hn Hl Ht. apply normalize_unit.
      apply (guard_sum_nonzero (ci_grad_trust_region self) fcivec ci1 gv);
        auto.
  - intros gv -> Hcond. unfold Rgtb.
    assert (E : Rltb (norm gv * ci_grad_trust_region self)
                     (1 - Rabs (dot fcivec ci1)) = false)
      by (apply Rltb_false; exact Hcond).
    rewrite E. unfold rdm12.
    destruct (make_rdm12 fcisolver ci1 (ncas self) (nelecas self)); reflexivity.
  - intros ->. unfold rdm12.
    destruct (make_rdm12 fcisolver ci1 (ncas self) (nelecas self)); reflexivity.
Qed.

Lemma update_casdm_trust_region_witness :
  let gv := vsub [0; / 10] (vscale (0 - 0) [1; 0]) in
  let ci := vscale (1 / norm (vadd [1; 0] gv)) (vadd [1; 0] gv) in
  solve_approx_ci (fun _ _ => ([], [])) 0 solver_two_dets cas_full_response
    [] [] [1; 0] 0 0 envs_empty = Ok ([0; 1], Some gv) /\
  1 - Rabs (dot [1; 0] [0; 1])
    > norm gv * ci_grad_trust_region cas_full_response /\
  norm (vadd [1; 0] gv) <> 0 /\
  update_casdm hessian_co_zero (fun _ _ => ([], [])) 0 solver_two_dets
    cas_full_response [] [] [1; 0] 0 eris_empty envs_empty
  = Ok ([[0]], [], Some gv, ci) /\
  norm ci = 1.
Proof.
  intros gv ci.
  assert (Hsolve :
    solve_approx_ci (fun _ _ => ([], [])) 0 solver_two_dets cas_full_response
      (hco_h1 (hessian_co_zero cas_full_response [] [] eris_empty))
      (hco_h2 (hessian_co_zero cas_full_response [] [] eris_empty))
      [1; 0] (hco_ecore (hessian_co_zero cas_full_response [] [] eris_empty))
      0 envs_empty = Ok ([0; 1], Some gv)) by reflexivity.
  assert (Hg : norm gv = / 10).
  { unfold norm, gv, dot, vsub, vscale, vsum. simpl.
    replace ((0 - 1 * (0 - 0)) * (0 - 1 * (0 - 0))
             + ((/ 10 - 0 * (0 - 0)) * (/ 10 - 0 * (0 - 0)) + 0))
      with (/ 10 * / 10) by field.
    apply sqrt_square. lra. }
  assert (Hcond : 1 - Rabs (dot [1; 0] [0; 1])
                  > norm gv * ci_grad_trust_region cas_full_response).
  { rewrite Hg. unfold dot, vsum. simpl.
    replace (1 * 0 + (0 * 1 + 0)) with 0 by ring. rewrite Rabs_R0. lra. }
  assert (Hnz : norm (vadd [1; 0] gv) <> 0).
  { unfold norm. intros H0. apply sqrt_eq_0 in H0.
    - unfold gv, dot, vadd, vsub, vscale, vsum in H0. simpl in H0. nra.
    - apply dot_self_nonneg. }
  destruct (update_casdm_trust_region hessian_co_zero (fun _ _ => ([], [])) 0
              solver_two_dets cas_full_response [] [] [1; 0] 0 eris_empty
              envs_empty [0; 1] (Some gv) Hsolve) as [Hfall _].
  destruct (Hfall gv eq_refl Hcond) as [Hrun [Hunit _]].
  split; [exact Hsolve|]. split; [exact Hcond|]. split; [exact Hnz|].
  split; [exact Hrun | exact (Hunit Hnz)].
Defined.

(** ** The step clipping of the micro iterations *)

Lemma fold_left_Rmax_ge (l : list R) :
  forall a, a <= fold_left Rmax l a /\
            Forall (fun y => y <= fold_left Rmax l a) l.
Proof.
  induction l as [|y l IH]; intros a; simpl.
  - split; [lra | constructor].
  - destruct (IH (Rmax a y)) as [H1 H2].
    pose proof (Rmax_l a y). pose proof (Rmax_r a y).
    split; [lra|]. constructor; [lra | exact H2].
Qed.

Lemma fold_left_Rmax_scale (c : R) (l : list R) :
  0 <= c ->
  forall a, fold_left Rmax (map (fun y => y * c) l) (a * c)
            = fold_left Rmax l a * c.
Proof.
  intros Hc. induction l as [|y l IH]; intros a; simpl; [reflexivity|].
  rewrite <- IH. f_equal.
  rewrite (Rmult_comm a c), (Rmult_comm y c), (Rmult_comm (Rmax a y) c).
  now apply RmaxRmult.
Qed.

Lemma max_abs_bound (v : vector) (m : R) :
  max_abs v = Ok m -> Forall (fun x => Rabs x <= m) v.
Proof.
  destruct v as [|x t]; simpl; intros H; [discriminate|].
  injection H as <-.
  destruct (fold_left_Rmax_ge (map Rabs t) (Rabs x)) as [H1 H2].
  constructor; [exact H1|].
  rewrite Forall_map in H2. exact H2.
Qed.

Lemma max_abs_vscale (c : R) (v : vector) (m : R) :
  0 <= c -> max_abs v = Ok m -> max_abs (vscale c v) = Ok (m * c).
Proof.
  intros Hc. destruct v as [|x t]; simpl; intros H; [discriminate|].
  injection H as <-. f_equal.
  unfold vscale. rewrite map_map.
  rewrite (map_ext (fun y => Rabs (y * c)) (fun y => Rabs y * c)).
  - rewrite Rabs_mult, (Rabs_right c) by lra.
    rewrite <- (map_map Rabs (fun y => y * c)).
    now apply fold_left_Rmax_scale.
  - intros y. rewrite Rabs_mult, (Rabs_right c) by lra. reflexivity.
Qed.

Lemma max_abs_nonneg (v : vector) (m : R) : max_abs v = Ok m -> 0 <= m.
Proof.
  destruct v as [|x t]; simpl; intros H; [discriminate|].
  injection H as <-.
  destruct (fold_left_Rmax_ge (map Rabs t) (Rabs x)) as [H1 _].
  pose proof (Rabs_pos x). lra.
Qed.

(** What [clip_step] does to a non-empty step when [max_stepsize] is
    positive. *)
Lemma clip_step_spec (max_stepsize : R) (dxi hdxi : vector) :
  0 < max_stepsize -> dxi <> [] ->
  exists dxmax dxi' hdxi' scale,
    max_abs dxi = Ok dxmax /\
    clip_step max_stepsize dxi hdxi = Ok (dxi', hdxi', scale) /\
    (dxmax > max_stepsize ->
       scale = Some (max_stepsize / dxmax) /\
       0 < max_stepsize / dxmax /\
       dxi' = vscale (max_stepsize / dxmax) dxi /\
       hdxi' = vscale (max_stepsize / dxmax) hdxi /\
       max_abs dxi' = Ok max_stepsize) /\
    (dxmax <= max_stepsize ->
       scale = None /\ dxi' = dxi /\ hdxi' = hdxi) /\
    Forall (fun x => Rabs x <= max_stepsize) dxi'.
Proof.
  intros Hms Hne.
  destruct (max_abs dxi) as [dxmax|e] eqn:Hmax;
    [|destruct dxi; [congruence | discriminate]].
  unfold clip_step. rewrite Hmax. simpl. unfold Rgtb.
  destruct (Rltb max_stepsize dxmax) eqn:E.
  - apply Rltb_true in E.
    assert (Hs : 0 < max_stepsize / dxmax)
      by (apply Rdiv_lt_0_compat; lra).
    assert (Hnew : max_abs (vscale (max_stepsize / dxmax) dxi)
                   = Ok max_stepsize).
    { rewrite (max_abs_vscale _ dxi dxmax) by (auto; lra).
      f_equal. field. lra. }
    exists dxmax, (vscale (max_stepsize / dxmax) dxi),
      (vscale (max_stepsize / dxmax) hdxi), (Some (max_stepsize / dxmax)).
    split; [reflexivity|]. split; [reflexivity|]. split; [|split].
    + intros _. repeat split; auto.
    + intros Hle. lra.
    + apply max_abs_bound. exact Hnew.
  - apply Rltb_false in E.
    exists dxmax, dxi, hdxi, None.
    split; [reflexivity|]. split; [reflexivity|]. split; [|split].
    + intros Hgt. contradiction.
    + intros _. auto.
    + apply max_abs_bound in Hmax.
      eapply Forall_impl; [|exact Hmax]. simpl. intros x Hx. lra.
Qed.

(** C9. An accepted micro step adds to [dr] and [g_orb] the Davidson step
    and its Hessian image as follows: if the largest absolute component
    [dxmax] of the step exceeds [max_stepsize], both are multiplied by the
    one positive factor max_stepsize / dxmax, and the largest component of
    the step becomes [max_stepsize]; otherwise both are taken unchanged.  No
    component of the step added exceeds [max_stepsize]. *)
Theorem accepted_step_is_clipped (max_stepsize : R) (st : micro_state)
    (it : davidson_item) :
  0 < max_stepsize -> dxi it <> [] ->
  exists dxmax st' it',
    max_abs (dxi it) = Ok dxmax /\
    accept_step max_stepsize st it = Ok st' /\
    ms_item st' = Some it' /\
    ms_dr st' = Some (add_step (ms_dr st) (dxi it')) /\
    ms_g_orb st' = vadd (ms_g_orb st) (hdxi it') /\
    (dxmax > max_stepsize ->
       0 < max_stepsize / dxmax /\
       dxi it' = vscale (max_stepsize / dxmax) (dxi it) /\
       hdxi it' = vscale (max_stepsize / dxmax) (hdxi it) /\
       max_abs (dxi it') = Ok max_stepsize) /\
    (dxmax <= max_stepsize -> dxi it' = dxi it /\ hdxi it' = hdxi it) /\
    Forall (fun x => Rabs x <= max_stepsize) (dxi it').
Proof.
  intros Hms Hne.
  destruct (clip_step_spec max_stepsize (dxi it) (hdxi it) Hms Hne)
    as [dxmax [dxi' [hdxi' [scale [Hmax [Hclip [Hbig [Hsmall Hall]]]]]]]].
  unfold accept_step. rewrite Hclip. simpl.
  eexists dxmax, _, _.
  split; [exact Hmax|]. split; [reflexivity|]. simpl.
  split; [reflexivity|]. split; [reflexivity|]. split; [reflexivity|].
  split; [|split].
  - intros Hgt. destruct (Hbig Hgt) as [_ [H1 [H2 [H3 H4]]]]. auto.
  - intros Hle. destruct (Hsmall Hle) as [_ [H1 H2]]. auto.
  - exact Hall.
Qed.

Lemma accepted_step_is_clipped_witness :
  0 < 1 /\
  dxi item_large_step <> [] /\
  exists dxmax st' it',
    max_abs (dxi item_large_step) = Ok dxmax /\
    accept_step 1 micro_state_start item_large_step = Ok st' /\
    ms_item st' = Some it' /\
    ms_dr st' = Some (add_step (ms_dr micro_state_start) (dxi it')) /\
    ms_g_orb st' = vadd (ms_g_orb micro_state_start) (hdxi it') /\
    (dxmax > 1 ->
       0 < 1 / dxmax /\
       dxi it' = vscale (1 / dxmax) (dxi item_large_step) /\
       hdxi it' = vscale (1 / dxmax) (hdxi item_large_step) /\
       max_abs (dxi it') = Ok 1) /\
    (dxmax <= 1 ->
       dxi it' = dxi item_large_step /\ hdxi it' = hdxi item_large_step) /\
    Forall (fun x => Rabs x <= 1) (dxi it').
Proof.
  assert (Hms : 0 < 1) by lra.
  assert (Hne : dxi item_large_step <> []) by discriminate.
  split; [exact Hms|]. split; [exact Hne|].
  exact (accepted_step_is_clipped 1 micro_state_start item_large_step Hms Hne).
Defined.

(** ** The macro driver *)

Section DriverFacts.

Variable co : collaborators.
Variable self : casscf.
Variable nmo_ : nat.
Variable tol : R.
Variable ctg : R.

(** What one pass of the micro loop leaves alone, and what it does to
    [imicro] and [norm_gorb0]. *)
Lemma micro_body_frame (mcm : Z) (st st' : kstate) (u : matrix)
    (g_orb : vector) (njk : Z) (go_on : bool) :
  micro_body co self nmo_ ctg mcm st u g_orb njk = Ok (go_on, st') ->
  ks_conv st' = ks_conv st /\
  ks_elast st' = ks_elast st /\
  ks_casdm1_last st' = ks_casdm1_last st /\
  ks_imacro st' = ks_imacro st /\
  ks_imicro st' = (ks_imicro st + 1)%Z /\
  ks_norm_gorb0 st' =
    (if Z.eqb (ks_imicro st + 1) 1 then Some (norm g_orb)
     else ks_norm_gorb0 st) /\
  (go_on = true -> (ks_imicro st + 1 < mcm)%Z).
Proof.
  unfold micro_body.
  destruct (Z.geb (ks_imicro st + 1) mcm) eqn:Hge.
  - intros H. injection H as <- <-. simpl. repeat split; auto.
    discriminate.
  - destruct (update_casdm _ _ _ _ _ _ _ _ _ _ _) as [[[[dm1 dm2] gci] fv]|e];
      simpl; [|discriminate].
    intros H. injection H as <- <-. simpl. repeat split; auto.
    intros _. rewrite Z.geb_leb in Hge. apply Z.leb_gt in Hge. exact Hge.
Qed.



End DriverFacts.


Lemma norm_zero_1 : norm [0] = 0.
Proof.
  unfold norm, dot, vsum. simpl.
  replace (0 * 0 + 0) with 0 by ring. apply sqrt_0.
Qed.

Lemma mnorm_zero_1 : mnorm [[0 - 0]] = 0.
Proof.
  unfold mnorm, norm, dot, vsum. simpl.
  replace ((0 - 0) * (0 - 0) + 0) with 0 by ring. apply sqrt_0.
Qed.

(** The one-orbital run: the first macro iteration ends normally and
    declares convergence. *)
Lemma macro_iter_one_orbital (canon nat_orb : bool) :
  exists st',
    macro_iter co_trivial
      (with_options (default_casscf 1 0 1 (1, 1)%nat) canon nat_orb 1 1)
      1 1 (effective_conv_tol_grad 1 None) kstate_start = Ok st' /\
    ks_conv st' = true.
Proof.
  eexists. split.
  - unfold macro_iter.
    cbn -[Rltb Rgtb norm mnorm sqrt Rabs max_stepsize_scheduler pack_uniq_var].
    change (Pos.to_nat 1) with 1%nat.
    cbn -[Rltb Rgtb norm mnorm sqrt Rabs max_stepsize_scheduler pack_uniq_var].
    assert (H1 : Rltb (Rabs (0 - 0)) 1 = true).
    { apply Rltb_true. rewrite Rminus_diag, Rabs_R0. lra. }
    assert (H2 : Rltb (norm [0]) (sqrt 1) = true).
    { apply Rltb_true. rewrite norm_zero_1, sqrt_1. lra. }
    assert (H3 : Rltb (mnorm [[0 - 0]]) (conv_tol_ddm_of (sqrt 1)) = true).
    { apply Rltb_true. rewrite mnorm_zero_1, sqrt_1. unfold conv_tol_ddm_of.
      lra. }
    rewrite H1, H2, H3. reflexivity.
  - reflexivity.
Qed.


(** ** The return of the driver *)

Lemma finish_without_canonicalization (co : collaborators) (self : casscf)
    (st : kstate) :
  canonicalization self = false ->
  finish co self st = Raise (UnboundLocalError "mo_energy").
Proof. intros H. unfold finish. rewrite H. reflexivity. Qed.

Lemma finish_with_natorb (co : collaborators) (self : casscf) (st : kstate) :
  canonicalization self = true -> natorb self = true ->
  finish co self st = Raise (NameError "ncore").
Proof.
  intros Hc Hn. unfold finish. rewrite Hc, Hn.
  destruct (co_canonicalize co self _ _ _ _ _ _) as [[mo fcivec] mo_energy].
  reflexivity.
Qed.

Lemma kernel_optimise_raises (co : collaborators) (self : casscf)
    (mo : matrix) (nmo_ : nat) (eris : eris_t) (tol : R)
    (conv_tol_grad ms : option R) (e_tot : R) (e_ci : py_energy)
    (fcivec : vector) :
  canonicalization self = false \/ natorb self = true ->
  raises (kernel_optimise co self mo nmo_ eris tol conv_tol_grad ms e_tot e_ci
            fcivec).
Proof.
  intros H. unfold kernel_optimise.
  destruct (make_rdm12 _ _ _ _) as [casdm1 casdm2].
  destruct (macro_loop _ _ _ _ _ _ _) as [st|e]; simpl.
  - destruct (canonicalization self) eqn:Hc.
    + destruct H as [H|H]; [discriminate|].
      rewrite finish_with_natorb by auto. eexists; reflexivity.
    + rewrite finish_without_canonicalization by auto. eexists; reflexivity.
  - eexists; reflexivity.
Qed.

(** The one-orbital run without canonicalization: the driver goes through a
    macro iteration, which converges, and then fails at its [return]. *)
Lemma kernel_one_orbital_no_canonicalization :
  kernel co_trivial cas1_no_canon [[1]] 1 None None None
    = Raise (UnboundLocalError "mo_energy").
Proof.
  unfold kernel, kernel_optimise.
  cbn -[macro_loop finish effective_conv_tol_grad].
  change (Pos.to_nat 1) with 1%nat.
  fold kstate_start.
  destruct (macro_iter_one_orbital false false) as [st' [Hrun Hdone]].
  fold cas1_no_canon in Hrun.
  cbn -[macro_iter finish effective_conv_tol_grad].
  rewrite Hrun. cbn -[finish]. rewrite Hdone. cbn -[finish].
  apply finish_without_canonicalization. reflexivity.
Qed.

(** With canonicalization and natural orbitals, and no macro cycle to run,
    the driver fails on the name [ncore]. *)
Lemma kernel_natorb_no_cycles :
  kernel co_trivial cas2_natorb [[1; 0]; [0; 1]] 1 None None None
    = Raise (NameError "ncore").
Proof. reflexivity. Qed.

(** C3. With [ncas == nmo], no internal rotation and canonicalization
    switched off, the driver does not return after the first CASCI step: it
    runs the macro iterations, and it never returns a result. *)
Theorem kernel_full_active_space_without_canonicalization
    (co : collaborators) (self : casscf) (mo : matrix) (tol : R)
    (conv_tol_grad : option R) (ci0 : option vector) (ms : option R) :
  ncas self = shape1 mo ->
  internal_rotation self = false ->
  canonicalization self = false ->
  kernel co self mo tol conv_tol_grad ci0 ms
    = ('(e_tot, e_ci, fcivec) <-
         casci (co_casci_kernel co) self mo ci0 (Some (co_ao2mo co self mo)) ;;
       kernel_optimise co self mo (shape1 mo) (co_ao2mo co self mo) tol
         conv_tol_grad ms e_tot e_ci fcivec) /\
  raises (kernel co self mo tol conv_tol_grad ci0 ms).
Proof.
  intros Hn Hi Hc.
  assert (Heq : kernel co self mo tol conv_tol_grad ci0 ms
            = ('(e_tot, e_ci, fcivec) <-
                 casci (co_casci_kernel co) self mo ci0
                   (Some (co_ao2mo co self mo)) ;;
               kernel_optimise co self mo (shape1 mo) (co_ao2mo co self mo)
                 tol conv_tol_grad ms e_tot e_ci fcivec)).
  { unfold kernel.
    destruct (casci _ _ _ _ _) as [[[e_tot e_ci] fcivec]|e]; simpl; auto.
    rewrite Hn, Nat.eqb_refl, Hi, Hc. reflexivity. }
  split; [exact Heq|]. rewrite Heq.
  destruct (casci _ _ _ _ _) as [[[e_tot e_ci] fcivec]|e]; simpl.
  - apply kernel_optimise_raises. auto.
  - eexists; reflexivity.
Qed.

Lemma kernel_full_active_space_without_canonicalization_witness :
  ncas cas1_no_canon = shape1 [[1]] /\
  internal_rotation cas1_no_canon = false /\
  canonicalization cas1_no_canon = false /\
  raises (kernel co_trivial cas1_no_canon [[1]] 1 None None None) /\
  kernel co_trivial cas1_no_canon [[1]] 1 None None None
    = Raise (UnboundLocalError "mo_energy").
Proof.
  assert (Hn : ncas cas1_no_canon = shape1 [[1]]) by reflexivity.
  assert (Hi : internal_rotation cas1_no_canon = false) by reflexivity.
  assert (Hc : canonicalization cas1_no_canon = false) by reflexivity.
  split; [exact Hn|]. split; [exact Hi|]. split; [exact Hc|].
  destruct (kernel_full_active_space_without_canonicalization co_trivial
              cas1_no_canon [[1]] 1 None None None Hn Hi Hc) as [_ Hraise].
  split; [exact Hraise | exact kernel_one_orbital_no_canonicalization].
Defined.

(** C4. Without canonicalization, and also with natural orbitals whenever
    the driver gets past its early return, no run of the driver returns the
    6-tuple: where nothing else fails, the [return] meets the unbound
    [mo_energy], or the natural-orbital step the undefined [ncore]. *)
Theorem kernel_never_returns_without_canonicalization
    (co : collaborators) (self : casscf) (mo : matrix) (tol : R)
    (conv_tol_grad : option R) (ci0 : option vector) (ms : option R) :
  canonicalization self = false \/
  (natorb self = true /\
   Nat.eqb (ncas self) (shape1 mo) && negb (internal_rotation self) = false) ->
  raises (kernel co self mo tol conv_tol_grad ci0 ms).
Proof.
  intros H. unfold kernel.
  destruct (casci _ _ _ _ _) as [[[e_tot e_ci] fcivec]|e]; simpl;
    [|eexists; reflexivity].
  destruct H as [Hc|[Hn Hearly]].
  - rewrite Hc.
    destruct (Nat.eqb (ncas self) (shape1 mo) && negb (internal_rotation self));
      apply kernel_optimise_raises; auto.
  - rewrite Hearly. apply kernel_optimise_raises; auto.
Qed.

Lemma kernel_never_returns_without_canonicalization_witness :
  (canonicalization cas1_no_canon = false \/
   (natorb cas1_no_canon = true /\
    Nat.eqb (ncas cas1_no_canon) (shape1 [[1]])
    && negb (internal_rotation cas1_no_canon) = false)) /\
  raises (kernel co_trivial cas1_no_canon [[1]] 1 None None None) /\
  kernel co_trivial cas2_natorb [[1; 0]; [0; 1]] 1 None None None
    = Raise (NameError "ncore").
Proof.
  assert (H : canonicalization cas1_no_canon = false \/
              (natorb cas1_no_canon = true /\
               Nat.eqb (ncas cas1_no_canon) (shape1 [[1]])
               && negb (internal_rotation cas1_no_canon) = false))
    by (left; reflexivity).
  split; [exact H|]. split.
  - exact (kernel_never_returns_without_canonicalization co_trivial
             cas1_no_canon [[1]] 1 None None None H).
  - exact kernel_natorb_no_cycles.
Defined.

(** ** The loops end before their fuel *)

Section Fuel.

Variable co : collaborators.
Variable self : casscf.
Variable nmo_ : nat.
Variable tol : R.
Variable ctg : R.

(** More fuel than [max(1, max_cycle_micro) - imicro] changes nothing: the
    micro loop leaves by its own tests. *)
Lemma micro_loop_fuel_enough (mcm : Z) (extra : nat) :
  forall fuel rota st,
    (0 <= ks_imicro st < Z.max 1 mcm)%Z ->
    (Z.to_nat (Z.max 1 mcm - ks_imicro st) <= fuel)%nat ->
    micro_loop co self nmo_ ctg (fuel + extra) mcm rota st
    = micro_loop co self nmo_ ctg fuel mcm rota st.
Proof.
  induction fuel as [|fuel IH]; intros rota st Hi Hfuel; [lia|].
  simpl.
  destruct (co_rota_next co rota (ks_casdm1 st) (ks_casdm2 st))
    as [[[[u g_orb] njk] rota']|]; [|reflexivity].
  destruct (micro_body co self nmo_ ctg mcm st u g_orb njk)
    as [[go_on st1]|e] eqn:Hb; simpl; [|reflexivity].
  destruct (micro_body_frame co self nmo_ ctg mcm st st1 u g_orb njk go_on Hb)
    as [_ [_ [_ [_ [F5 [_ F7]]]]]].
  destruct go_on; [|reflexivity].
  specialize (F7 eq_refl). apply IH; rewrite F5; lia.
Qed.

Lemma macro_iter_imacro (st st' : kstate) :
  macro_iter co self nmo_ tol ctg st = Ok st' ->
  ks_imacro st' = (ks_imacro st + 1)%Z.
Proof.
  unfold macro_iter. intros H.
  destruct (micro_loop _ _ _ _ _ _ _ _) as [st1|e]; simpl in H; [|discriminate].
  destruct (ks_njk st1); simpl in H; [|discriminate].
  destruct (ks_u st1); simpl in H; [|discriminate].
  destruct (ks_g_orb st1); simpl in H; [|discriminate].
  destruct (casci _ _ _ _ _) as [[[e_tot e_ci] fcivec]|e]; simpl in H;
    [|discriminate].
  destruct (make_rdm12 _ _ _ _) as [casdm1 casdm2].
  match type of H with
  | (conv <- ?c ;; _) = _ => destruct c as [conv|e]; simpl in H; [|discriminate]
  end.
  destruct (pack_uniq_var _ _) as [r0|e]; simpl in H; [|discriminate].
  injection H as <-. reflexivity.
Qed.

(** More fuel than [max_cycle_macro - imacro] changes nothing either. *)
Lemma macro_loop_fuel_enough (extra : nat) :
  forall fuel st,
    (Z.to_nat (max_cycle_macro self - ks_imacro st) <= fuel)%nat ->
    macro_loop co self nmo_ tol ctg (fuel + extra) st
    = macro_loop co self nmo_ tol ctg fuel st.
Proof.
  induction fuel as [|fuel IH]; intros st Hfuel.
  - destruct (negb (ks_conv st)
              && Z.ltb (ks_imacro st) (max_cycle_macro self)) eqn:G.
    + apply andb_true_iff in G. destruct G as [_ G]. apply Z.ltb_lt in G. lia.
    + destruct extra; simpl; rewrite G; reflexivity.
  - simpl.
    destruct (negb (ks_conv st)
              && Z.ltb (ks_imacro st) (max_cycle_macro self)) eqn:G;
      [|reflexivity].
    destruct (macro_iter co self nmo_ tol ctg st) as [st'|e] eqn:Hit; simpl;
      [|reflexivity].
    apply IH. rewrite (macro_iter_imacro st st' Hit). lia.
Qed.

End Fuel.

(** ** The runs that do return *)

(** With canonicalization on, a full active space without internal rotation
    returns right after the first CASCI step, converged, with the
    canonicalized orbitals. *)
Lemma kernel_early_return (co : collaborators) (self : casscf) (mo : matrix)
    (tol : R) (conv_tol_grad : option R) (ci0 : option vector)
    (ms : option R) (e_tot : R) (e_ci : py_energy) (fcivec : vector) :
  ncas self = shape1 mo ->
  internal_rotation self = false ->
  canonicalization self = true ->
  casci (co_casci_kernel co) self mo ci0 (Some (co_ao2mo co self mo))
    = Ok (e_tot, e_ci, fcivec) ->
  kernel co self mo tol conv_tol_grad ci0 ms
    = let '(mo', fcivec', mo_energy) :=
        co_canonicalize co self mo fcivec (co_ao2mo co self mo) false
          (natorb self) None in
      Ok (true, e_tot, float_of e_ci, fcivec', mo', mo_energy).
Proof.
  intros Hn Hi Hc Hcas. unfold kernel. rewrite Hcas. simpl.
  rewrite Hn, Nat.eqb_refl, Hi, Hc. reflexivity.
Qed.

(** With canonicalization on and natural orbitals off, the end of the
    driver returns the 6-tuple. *)
Lemma finish_returns (co : collaborators) (self : casscf) (st : kstate) :
  canonicalization self = true -> natorb self = false ->
  finish co self st
    = let '(mo, fcivec, mo_energy) :=
        co_canonicalize co self (ks_mo st) (ks_fcivec st) (ks_eris st) false
          false (Some (ks_casdm1 st)) in
      Ok (ks_conv st, ks_e_tot st, ks_e_ci st, fcivec, mo, mo_energy).
Proof.
  intros Hc Hn. unfold finish. rewrite Hc, Hn.
  destruct (co_canonicalize co self _ _ _ _ _ _) as [[mo fcivec] mo_energy].
  reflexivity.
Qed.

(** * Further properties of the k-point module *)

(** ** The electronic energy *)

(** What [energy_elec] does on every input: without k-points the weight
    [1./nkpts] is a division by zero; otherwise an imaginary part of the
    Coulomb energy above 1e-10 raises, and any other one (a negative one
    too) lets the real parts through. *)
Theorem energy_elec_outcome (mf : Khf.mean_field)
    (dm h1e vhf : Khf.kmatrix) :
  let e1 := Khf.Cscale (1 / INR (length dm)) (Khf.einsum_kij_kji dm h1e) in
  let e_coul := Khf.coulomb_energy dm vhf in
  let run := Khf.energy_elec mf (Some dm) (Some h1e) (Some vhf) in
  (dm = [] -> run = Raise ZeroDivisionError) /\
  (dm <> [] -> Khf.imag e_coul > Khf.imag_tol -> raises run) /\
  (dm <> [] -> Khf.imag e_coul <= Khf.imag_tol ->
     run = Ok (Khf.real e1 + Khf.real e_coul, Khf.real e_coul)).
Proof.
  intros e1 e_coul run. unfold run, e1, e_coul.
  split; [intros ->; reflexivity|].
  split; intros Hdm Him.
  - apply (energy_elec_raises_iff mf dm h1e vhf Hdm). exact Him.
  - unfold Khf.energy_elec, Khf.or_default.
    destruct dm as [|d dm]; [congruence|]. simpl Nat.eqb. cbv iota.
    fold (Khf.coulomb_energy (d :: dm) vhf).
    unfold Khf.abs_bool, Rgtb.
    destruct (Rltb _ _) eqn:E; [|reflexivity].
    apply Rltb_true in E. lra.
Qed.

(** ** Sorting *)

Lemma insert_sorted_count (p : R -> bool) (x : R) (l : list R) :
  length (filter p (Khf.insert_sorted x l)) = length (filter p (x :: l)).
Proof.
  induction l as [|y l IH]; simpl; auto.
  destruct (Rle_dec x y); simpl; auto.
  simpl in IH. destruct (p y), (p x); simpl in *; lia.
Qed.

Lemma sort_count (p : R -> bool) (l : list R) :
  length (filter p (Khf.sort l)) = length (filter p l).
Proof.
  induction l as [|x l IH]; simpl; auto.
  rewrite insert_sorted_count. simpl. destruct (p x); simpl; lia.
Qed.

Lemma sort_length (l : list R) : length (Khf.sort l) = length l.
Proof.
  induction l as [|x l IH]; simpl; auto.
  rewrite <- IH. generalize (Khf.sort l) as s. clear.
  induction s as [|y s IH]; simpl; auto.
  destruct (Rle_dec x y); simpl; auto.
Qed.

Lemma insert_sorted_In (x y : R) (l : list R) :
  In y (Khf.insert_sorted x l) -> y = x \/ In y l.
Proof.
  induction l as [|z l IH]; simpl.
  - intros [H|[]]; auto.
  - destruct (Rle_dec x z); simpl; intros H.
    + destruct H as [H|[H|H]]; auto.
    + destruct H as [H|H]; auto. destruct (IH H); auto.
Qed.

Lemma insert_sorted_sorted (x : R) (l : list R) :
  StronglySorted Rle l -> StronglySorted Rle (Khf.insert_sorted x l).
Proof.
  induction 1 as [|y l Hs IH Hall]; simpl.
  - constructor; constructor.
  - destruct (Rle_dec x y) as [Hle|Hgt].
    + constructor; [constructor; auto|].
      constructor; auto.
      eapply Forall_impl; [|exact Hall]. simpl. intros z Hz. lra.
    + constructor; auto.
      apply Forall_forall. intros z Hz.
      destruct (insert_sorted_In x z l Hz) as [->|Hin]; [lra|].
      rewrite Forall_forall in Hall. auto.
Qed.

Lemma sort_sorted (l : list R) : StronglySorted Rle (Khf.sort l).
Proof.
  induction l as [|x l IH]; simpl; [constructor|].
  now apply insert_sorted_sorted.
Qed.

Lemma sorted_nth_le (l : list R) :
  StronglySorted Rle l ->
  forall i j, (i <= j)%nat -> (j < length l)%nat -> nth i l 0 <= nth j l 0.
Proof.
  induction 1 as [|a l Hs IH Hall]; intros i j Hij Hj; simpl in *; [lia|].
  destruct i as [|i], j as [|j]; try lia.
  - lra.
  - rewrite Forall_forall in Hall. apply Hall, nth_In. lia.
  - apply IH; lia.
Qed.

(** ** Occupations *)

Lemma Rleb_false (x y : R) : Rleb x y = false <-> ~ x <= y.
Proof. unfold Rleb; destruct (Rle_dec x y); split; intros; try easy. Qed.

Lemma filter_none {A : Type} (p : A -> bool) (l : list A) :
  (forall x, In x l -> p x = false) -> filter p l = [].
Proof.
  induction l as [|x l IH]; simpl; intros H; auto.
  rewrite (H x) by auto. apply IH. intros y Hy. apply H. auto.
Qed.

Lemma total_occ_count (fermi : R) (M : list (list R)) :
  Khf.total_occ (map (map (fun e => if Rleb e fermi then 2 else 0)) M)
  = 2 * INR (length (filter (fun e => Rleb e fermi) (concat M))).
Proof.
  unfold Khf.total_occ. rewrite <- concat_map.
  induction (concat M) as [|e l IH]; simpl; [lra|].
  rewrite IH. destruct (Rleb e fermi); simpl length.
  - rewrite S_INR. lra.
  - lra.
Qed.

(** In an ascending array, the entries not above the [k]-th smallest are at
    least [k], and exactly [k] when the next entry is strictly larger. *)
Lemma count_below_kth (s : list R) (k : nat) :
  StronglySorted Rle s -> (1 <= k <= length s)%nat ->
  let fermi := nth (k - 1) s 0 in
  (k <= length (filter (fun e => Rleb e fermi) s))%nat /\
  ((k = length s \/ fermi < nth k s 0) ->
   length (filter (fun e => Rleb e fermi) s) = k).
Proof.
  intros Hs Hk fermi.
  assert (Hsplit : filter (fun e => Rleb e fermi) s
                   = filter (fun e => Rleb e fermi) (firstn k s)
                     ++ filter (fun e => Rleb e fermi) (skipn k s))
    by (rewrite <- filter_app, firstn_skipn; reflexivity).
  rewrite Hsplit, length_app.
  assert (Hfirst : filter (fun e => Rleb e fermi) (firstn k s) = firstn k s).
  { apply forallb_filter_id, forallb_forall. intros x Hx.
    apply Rleb_true.
    destruct (In_nth _ _ 0 Hx) as [i [Hi Hnth]].
    rewrite length_firstn in Hi.
    rewrite nth_firstn in Hnth.
    destruct (Nat.ltb_spec i k) as [Hik|Hik]; [|lia].
    subst x. apply (sorted_nth_le s Hs); lia. }
  rewrite Hfirst, length_firstn.
  split; [lia|].
  intros Hgap.
  rewrite filter_none; [simpl; lia|].
  intros x Hx.
  destruct (In_nth _ _ 0 Hx) as [i [Hi Hnth]].
  rewrite length_skipn in Hi. rewrite nth_skipn in Hnth.
  destruct Hgap as [Hall|Hgap]; [lia|].
  apply Rleb_false. subst x.
  pose proof (sorted_nth_le s Hs k (k + i)%nat) as Hle.
  assert (nth k s 0 <= nth (k + i) s 0) by (apply Hle; lia). lra.
Qed.

Lemma getitem_nonneg (a : list R) (i : nat) :
  (i < length a)%nat -> Khf.getitem a (Z.of_nat i) = Ok (nth i a 0).
Proof.
  intros Hi. unfold Khf.getitem.
  assert (H1 : Z.leb 0 (Z.of_nat i) = true) by (apply Z.leb_le; lia).
  assert (H2 : Z.ltb (Z.of_nat i) (Z.of_nat (length a)) = true)
    by (apply Z.ltb_lt; lia).
  rewrite H1, H2. simpl. f_equal. f_equal. lia.
Qed.

(** Aufbau. When the number [nocc] of electron pairs is between one and the
    number of orbitals, [get_occ] returns occupations 0 and 2 whose sum is
    at least 2*nocc, and exactly 2*nocc when all orbitals are filled or
    the [nocc]-th lowest energy lies strictly below the next one. *)
Theorem get_occ_aufbau (nelectron : nat) (mf_mo_energy M : list (list R)) :
  let nocc := (nelectron * length M / 2)%nat in
  let s := Khf.sort (concat M) in
  (1 <= nocc <= length (concat M))%nat ->
  exists occ,
    Khf.get_occ nelectron mf_mo_energy (Some M) = Ok occ /\
    Forall (Forall (fun o => o = 0 \/ o = 2)) occ /\
    2 * INR nocc <= Khf.total_occ occ /\
    ((nocc = length (concat M) \/ nth (nocc - 1) s 0 < nth nocc s 0) ->
     Khf.total_occ occ = 2 * INR nocc).
Proof.
  intros nocc s Hk.
  assert (Hlen : length s = length (concat M)) by apply sort_length.
  assert (Hget : Khf.getitem s (Z.of_nat nocc - 1) = Ok (nth (nocc - 1) s 0)).
  { replace (Z.of_nat nocc - 1)%Z with (Z.of_nat (nocc - 1)) by lia.
    apply getitem_nonneg. lia. }
  eexists. split.
  - unfold Khf.get_occ, Khf.or_default. fold nocc. fold s.
    rewrite Hget. reflexivity.
  - destruct (count_below_kth s nocc (sort_sorted (concat M))) as [Hge Heq];
      [lia|].
    rewrite total_occ_count, <- (sort_count _ (concat M)). fold s.
    split; [|split].
    + apply Forall_forall. intros row Hrow. apply in_map_iff in Hrow.
      destruct Hrow as [r [<- _]]. apply Forall_forall. intros o Ho.
      apply in_map_iff in Ho. destruct Ho as [e [<- _]].
      destruct (Rleb e _); auto.
    + apply Rmult_le_compat_l; [lra|]. apply le_INR. exact Hge.
    + intros Hgap. rewrite Heq; auto.
      destruct Hgap as [Hall|Hlt]; [left; lia | right; exact Hlt].
Qed.

Lemma get_occ_aufbau_witness :
  (1 <= 2 * length Khf.energies_two / 2 <= length (concat Khf.energies_two))%nat /\
  exists occ,
    Khf.get_occ 2 [] (Some Khf.energies_two) = Ok occ /\
    Forall (Forall (fun o => o = 0 \/ o = 2)) occ /\
    2 * INR (2 * length Khf.energies_two / 2) <= Khf.total_occ occ /\
    (((2 * length Khf.energies_two / 2)%nat = length (concat Khf.energies_two) \/
      nth (2 * length Khf.energies_two / 2 - 1) (Khf.sort (concat Khf.energies_two)) 0
      < nth (2 * length Khf.energies_two / 2) (Khf.sort (concat Khf.energies_two)) 0) ->
     Khf.total_occ occ = 2 * INR (2 * length Khf.energies_two / 2)).
Proof.
  assert (H : (1 <= 2 * length Khf.energies_two / 2 <= length (concat Khf.energies_two))%nat)
    by (simpl; lia).
  split; [exact H|].
  exact (get_occ_aufbau 2 [] Khf.energies_two H).
Defined.

Lemma insert_sorted_In_inv (x y : R) (l : list R) :
  y = x \/ In y l -> In y (Khf.insert_sorted x l).
Proof.
  induction l as [|z l IH]; simpl.
  - intros [->|[]]; auto.
  - destruct (Rle_dec x z); simpl; intros [->|[->|H]]; auto.
Qed.

Lemma sort_In (x : R) (l : list R) : In x l -> In x (Khf.sort l).
Proof.
  induction l as [|y l IH]; simpl; [tauto|].
  intros [->|H]; apply insert_sorted_In_inv; auto.
Qed.

Lemma getitem_last (a : list R) :
  a <> [] -> Khf.getitem a (-1) = Ok (nth (length a - 1) a 0).
Proof.
  intros Ha. unfold Khf.getitem.
  assert (Hn : (0 < length a)%nat) by (destruct a; simpl; [congruence | lia]).
  assert (H1 : (Z.leb 0 (-1) && Z.ltb (-1) (Z.of_nat (length a))) = false)
    by reflexivity.
  assert (H2 : (Z.leb (- Z.of_nat (length a)) (-1) && Z.ltb (-1) 0) = true).
  { apply andb_true_iff. split; [apply Z.leb_le; lia | reflexivity]. }
  rewrite H1, H2. f_equal. f_equal. lia.
Qed.

(** Without a single electron pair ([nelectron * nkpts < 2]) the index
    [nocc-1] is -1 and the Fermi level is the highest energy: every orbital
    comes out doubly occupied. *)
Theorem get_occ_without_electron_pair (nelectron : nat)
    (mf_mo_energy M : list (list R)) :
  (nelectron * length M / 2 = 0)%nat ->
  concat M <> [] ->
  Khf.get_occ nelectron mf_mo_energy (Some M)
    = Ok (map (map (fun _ => 2)) M).
Proof.
  intros Hnocc Hne.
  unfold Khf.get_occ, Khf.or_default. rewrite Hnocc.
  change (Z.of_nat 0 - 1)%Z with (-1)%Z.
  set (s := Khf.sort (concat M)).
  assert (Hlen : length s = length (concat M)) by apply sort_length.
  assert (Hs : s <> []).
  { intros E. rewrite E in Hlen. destruct (concat M); simpl in *; congruence. }
  rewrite (getitem_last s Hs). simpl. f_equal.
  apply map_ext_in. intros row Hrow. apply map_ext_in. intros e He.
  assert (Hin : In e s).
  { apply sort_In. apply in_concat. exists row. auto. }
  destruct (In_nth _ _ 0 Hin) as [i [Hi <-]].
  assert (Hle : nth i s 0 <= nth (length s - 1) s 0)
    by (apply (sorted_nth_le s (sort_sorted (concat M))); lia).
  apply Rleb_true in Hle. rewrite Hle. reflexivity.
Qed.

Lemma get_occ_without_electron_pair_witness :
  (1 * length Khf.energies_two / 2 = 0)%nat /\
  concat Khf.energies_two <> [] /\
  Khf.get_occ 1 [] (Some Khf.energies_two) = Ok [[2; 2]].
Proof.
  assert (H1 : (1 * length Khf.energies_two / 2 = 0)%nat) by reflexivity.
  assert (H2 : concat Khf.energies_two <> []) by discriminate.
  split; [exact H1|]. split; [exact H2|].
  exact (get_occ_without_electron_pair 1 [] Khf.energies_two H1 H2).
Defined.

Lemma get_occ_returns (nelectron : nat) (mf_mo_energy M : list (list R)) :
  concat M <> [] ->
  (nelectron * length M / 2 <= length (concat M))%nat ->
  returns (Khf.get_occ nelectron mf_mo_energy (Some M)).
Proof.
  intros Hne Hle. unfold Khf.get_occ, Khf.or_default.
  set (nocc := (nelectron * length M / 2)%nat) in *.
  set (s := Khf.sort (concat M)).
  assert (Hlen : length s = length (concat M)) by apply sort_length.
  destruct nocc as [|k].
  - change (Z.of_nat 0 - 1)%Z with (-1)%Z.
    rewrite getitem_last; [simpl; eexists; reflexivity|].
    intros E. rewrite E in Hlen. destruct (concat M); simpl in *; congruence.
  - replace (Z.of_nat (S k) - 1)%Z with (Z.of_nat k) by lia.
    rewrite getitem_nonneg by lia. simpl. eexists; reflexivity.
Qed.

(** [get_occ] fails, with the IndexError of [mo_energy[nocc-1]], exactly
    when there is no orbital at all or there are more electron pairs than
    orbitals. *)
Theorem get_occ_raises_iff (nelectron : nat) (mf_mo_energy M : list (list R)) :
  let nocc := (nelectron * length M / 2)%nat in
  raises (Khf.get_occ nelectron mf_mo_energy (Some M))
  <-> (concat M = [] \/ (length (concat M) < nocc)%nat).
Proof.
  intros nocc. split.
  - intros [e He].
    destruct (concat M) as [|x l] eqn:Hc; [auto|]. right.
    destruct (Nat.le_gt_cases nocc (length (concat M))) as [Hle|Hgt];
      [|rewrite <- Hc; exact Hgt].
    destruct (get_occ_returns nelectron mf_mo_energy M) as [occ Hrun].
    + congruence.
    + exact Hle.
    + rewrite Hrun in He. discriminate.
  - intros H. unfold Khf.get_occ, Khf.or_default. fold nocc.
    set (s := Khf.sort (concat M)).
    assert (Hlen : length s = length (concat M)) by apply sort_length.
    unfold Khf.getitem. rewrite Hlen.
    assert (H1 : (Z.leb 0 (Z.of_nat nocc - 1)
                  && Z.ltb (Z.of_nat nocc - 1)
                       (Z.of_nat (length (concat M)))) = false).
    { assert (Hn : length (concat M) = 0%nat \/ (length (concat M) < nocc)%nat)
        by (destruct H as [H|H]; [left; rewrite H; reflexivity | right; exact H]).
      destruct (Z.leb_spec 0 (Z.of_nat nocc - 1)),
        (Z.ltb_spec (Z.of_nat nocc - 1) (Z.of_nat (length (concat M))));
        simpl; auto; lia. }
    assert (H2 : (Z.leb (- Z.of_nat (length (concat M))) (Z.of_nat nocc - 1)
                  && Z.ltb (Z.of_nat nocc - 1) 0) = false).
    { assert (Hn : length (concat M) = 0%nat \/ (length (concat M) < nocc)%nat)
        by (destruct H as [H|H]; [left; rewrite H; reflexivity | right; exact H]).
      destruct (Z.leb_spec (- Z.of_nat (length (concat M))) (Z.of_nat nocc - 1)),
        (Z.ltb_spec (Z.of_nat nocc - 1) 0); simpl; auto; lia. }
    rewrite H1, H2. simpl. eexists; reflexivity.
Qed.

(** * Further properties of the CASSCF module *)

(** ** The number of rotation parameters *)

Lemma mask_tabulate (idx : bmatrix) (n : nat) (f : nat -> nat -> bool) :
  has_shape idx n n ->
  (forall i j, (i < n)%nat -> (j < n)%nat -> bget idx i j = f i j) ->
  idx = map (fun i => map (f i) (seq 0 n)) (seq 0 n).
Proof.
  intros Hs Hf.
  apply (nth_ext _ _ [] []).
  - rewrite length_map, length_seq. apply Hs.
  - intros i Hi. assert (Hin : (i < n)%nat) by (destruct Hs; lia).
    set (g := fun i0 => map (f i0) (seq 0 n)).
    rewrite (nth_indep (map g (seq 0 n)) [] (g 0%nat))
      by (rewrite length_map, length_seq; auto).
    rewrite (map_nth g), seq_nth by auto. unfold g. simpl.
    apply (nth_ext _ _ false false).
    + rewrite length_map, length_seq. apply (has_shape_row idx n n); auto.
    + intros j Hj. rewrite (has_shape_row idx n n) in Hj by auto.
      rewrite (nth_indep (map (f i) (seq 0 n)) false (f i 0%nat))
        by (rewrite length_map, length_seq; auto).
      rewrite (map_nth (f i)), seq_nth by auto. simpl.
      apply (Hf i j); auto.
Qed.

Lemma count_row_map (p : nat -> bool) (l : list nat) :
  count_row (map p l) = length (filter p l).
Proof.
  unfold count_row. induction l as [|x l IH]; simpl; auto.
  destruct (p x); simpl; auto.
Qed.

Lemma count_true_list_sum (mask : bmatrix) :
  count_true mask = list_sum (map count_row mask).
Proof. unfold count_true. induction mask; simpl; auto. Qed.

Lemma count_below (c : nat) :
  forall n a, length (filter (fun j => Nat.ltb j c) (seq a n))
              = Nat.min (c - a) n.
Proof.
  induction n as [|n IH]; intros a; simpl; [lia|].
  destruct (Nat.ltb_spec a c); simpl; rewrite IH; lia.
Qed.

Lemma list_sum_const (c : nat) (f : nat -> nat) :
  forall k a, (forall i, (a <= i < a + k)%nat -> f i = c) ->
    list_sum (map f (seq a k)) = (k * c)%nat.
Proof.
  induction k as [|k IH]; intros a H; simpl; auto.
  rewrite (H a) by lia. rewrite IH; [lia|]. intros i Hi. apply H. lia.
Qed.

Lemma list_sum_linear (f : nat -> nat) :
  forall k a, (forall i, (a <= i < a + k)%nat -> f i = i) ->
    (2 * list_sum (map f (seq a k)) = 2 * (k * a) + k * (k - 1))%nat.
Proof.
  induction k as [|k IH]; intros a H; simpl list_sum; [simpl; lia|].
  simpl map. simpl list_sum.
  rewrite (H a) by lia.
  assert (E : (2 * list_sum (map f (seq (S a) k))
               = 2 * (k * S a) + k * (k - 1))%nat)
    by (apply IH; intros i Hi; apply H; lia).
  destruct k as [|k']; [simpl in *; lia|].
  replace (S (S k') - 1)%nat with (S k') by lia.
  replace (S k' - 1)%nat with k' in E by lia. nia.
Qed.

(** Without frozen orbitals the packed vector has one entry per
    core-active, core-virtual and active-virtual pair, and with internal
    rotation one more per pair of distinct active orbitals. *)
Theorem uniq_count_formula (self : casscf) :
  frozen self = None ->
  (ncore self + ncas self <= nmo self)%nat ->
  (2 * uniq_count self
   = 2 * (ncas self * ncore self
          + (nmo self - ncore self - ncas self) * (ncore self + ncas self))
     + (if internal_rotation self then ncas self * (ncas self - 1) else 0))%nat.
Proof.
  intros Hfr Hfit.
  assert (Hvalid : valid_partition self)
    by (split; [exact Hfit | rewrite Hfr; exact I]).
  destruct (uniq_var_indices_spec self Hvalid) as [idx [Hidx [Hsh Hent]]].
  rewrite (uniq_count_spec self idx Hidx).
  set (n := nmo self) in *. set (nc := ncore self) in *.
  set (na := ncas self) in *.
  set (c := fun i => if Nat.ltb i nc then 0%nat
                     else if Nat.ltb i (nc + na)
                          then (if internal_rotation self then i else nc)
                          else (nc + na)%nat).
  rewrite (mask_tabulate idx n (mask_entry self) Hsh Hent).
  rewrite count_true_list_sum, map_map.
  rewrite (map_ext_in _ c).
  - replace n with (nc + (na + (n - nc - na)))%nat at 1 by lia.
    rewrite !seq_app, !map_app, !list_sum_app. simpl plus.
    rewrite (list_sum_const 0 c nc 0%nat).
    + rewrite (list_sum_const (nc + na) c (n - nc - na) (nc + na)%nat).
      * destruct (internal_rotation self) eqn:Hir.
        -- pose proof (list_sum_linear c na nc) as Hlin.
           rewrite Nat.mul_add_distr_l, Nat.mul_add_distr_l, Hlin; [nia|].
           intros i Hi. unfold c.
           destruct (Nat.ltb_spec i nc); [lia|].
           destruct (Nat.ltb_spec i (nc + na)); [reflexivity | lia].
        -- rewrite (list_sum_const nc c na nc); [nia|].
           intros i Hi. unfold c.
           destruct (Nat.ltb_spec i nc); [lia|].
           destruct (Nat.ltb_spec i (nc + na)); [reflexivity | lia].
      * intros i Hi. unfold c.
        destruct (Nat.ltb_spec i nc); [lia|].
        destruct (Nat.ltb_spec i (nc + na)); [lia | reflexivity].
    + intros i Hi. unfold c. destruct (Nat.ltb_spec i nc); [reflexivity | lia].
  - intros i Hi. apply in_seq in Hi. rewrite count_row_map.
    rewrite (filter_ext_in _ (fun j => Nat.ltb j (c i))).
    + rewrite count_below. unfold c.
      destruct (Nat.ltb_spec i nc); [lia|].
      destruct (Nat.ltb_spec i (nc + na));
        [destruct (internal_rotation self)|]; lia.
    + intros j Hj. apply in_seq in Hj.
      unfold mask_entry, frozenb. rewrite Hfr. fold n nc na. unfold c.
      unfold in_slice. simpl negb. rewrite !andb_true_r.
      destruct (Nat.ltb_spec i nc), (Nat.ltb_spec i (nc + na)),
        (Nat.leb_spec nc i), (Nat.leb_spec (nc + na) i),
        (Nat.ltb_spec i n), (Nat.leb_spec nc j), (Nat.ltb_spec j nc),
        (Nat.ltb_spec j (nc + na)), (Nat.ltb_spec j i),
        (internal_rotation self); simpl;
        try lia;
        repeat match goal with
               | |- context [Nat.ltb ?a ?b] => destruct (Nat.ltb_spec a b)
               end; simpl; try reflexivity; try lia.
Qed.

Lemma uniq_count_formula_witness :
  frozen cas3 = None /\
  (ncore cas3 + ncas cas3 <= nmo cas3)%nat /\
  (2 * uniq_count cas3
   = 2 * (ncas cas3 * ncore cas3
          + (nmo cas3 - ncore cas3 - ncas cas3) * (ncore cas3 + ncas cas3))
     + (if internal_rotation cas3 then ncas cas3 * (ncas cas3 - 1) else 0))%nat.
Proof.
  assert (H1 : frozen cas3 = None) by reflexivity.
  assert (H2 : (ncore cas3 + ncas cas3 <= nmo cas3)%nat) by (simpl; lia).
  split; [exact H1|]. split; [exact H2|].
  exact (uniq_count_formula cas3 H1 H2).
Defined.

(** ** When packing and unpacking fail *)

Lemma forallb_ltb_false (n : nat) (l : list nat) :
  forallb (fun i => Nat.ltb i n) l = false ->
  Exists (fun i => (n <= i)%nat) l.
Proof.
  induction l as [|a l IH]; simpl; [discriminate|].
  destruct (Nat.ltb_spec a n) as [Ha|Ha]; simpl; intros Hl.
  - apply Exists_cons_tl. auto.
  - apply Exists_cons_hd. lia.
Qed.

Lemma forallb_ltb_true (n : nat) (l : list nat) :
  forallb (fun i => Nat.ltb i n) l = true ->
  ~ Exists (fun i => (n <= i)%nat) l.
Proof.
  intros H Hex. apply Exists_exists in Hex. destruct Hex as [i [Hi Hge]].
  rewrite forallb_forall in H. specialize (H i Hi).
  apply Nat.ltb_lt in H. lia.
Qed.

(** Building the mask fails exactly when the lower triangle of the active
    block does not fit, or the frozen index list is no index. *)
Lemma uniq_var_indices_raises_iff (self : casscf) :
  raises (uniq_var_indices self (nmo self) (ncore self) (ncas self)
            (frozen self))
  <-> tril_out_of_view self \/ frozen_not_indexable self.
Proof.
  unfold uniq_var_indices.
  pose proof (indices_in_view_tril
                (slice_length (ncore self) (ncore self + ncas self) (nmo self))
                (ncas self)) as Hv.
  match goal with
  | |- raises (bind ?stage _) <-> _ =>
      assert (Hstage : (exists m, stage = Ok m /\ ~ tril_out_of_view self)
                       \/ (stage = Raise index_error /\ tril_out_of_view self))
  end.
  { unfold tril_out_of_view. destruct (internal_rotation self).
    - destruct (indices_in_view _ _) eqn:Hchk.
      + left. eexists. split; [reflexivity|].
        destruct Hv as [Hv _]. specialize (Hv eq_refl).
        unfold slice_length in Hv. lia.
      + right. split; [reflexivity|]. split; [reflexivity|].
        assert (Hn : ~ ((ncas self <= 1)%nat
                        \/ (ncas self
                            <= slice_length (ncore self)
                                 (ncore self + ncas self) (nmo self))%nat)).
        { intros H. apply Hv in H. discriminate. }
        unfold slice_length in Hn. lia.
    - left. eexists. split; [reflexivity|]. intros [H _]. discriminate. }
  destruct Hstage as [[m [-> Hno]]|[-> Hyes]].
  - simpl. unfold frozen_not_indexable.
    destruct (frozen self) as [[k|[|i0 idx]]|].
    + split; [intros [e He]; discriminate | tauto].
    + split; [intros _; right; left; reflexivity|].
      intros _. eexists. reflexivity.
    + destruct (forallb (fun i => Nat.ltb i (nmo self)) (i0 :: idx)) eqn:E.
      * apply forallb_ltb_true in E.
        split; [intros [e He]; discriminate|].
        intros [H|[H|H]]; [tauto | discriminate | tauto].
      * apply forallb_ltb_false in E.
        split; [intros _; right; right; exact E|].
        intros _. eexists. reflexivity.
    + split; [intros [e He]; discriminate | tauto].
  - simpl. split; [intros _; left; exact Hyes|].
    intros _. eexists. reflexivity.
Qed.

(** [pack_uniq_var] fails exactly when the mask cannot be built (the lower
    triangle of the active block does not fit, or the frozen index list is
    empty or out of range) or the matrix is not nmo-by-nmo;
    [unpack_uniq_var] fails exactly when the mask cannot be built or the
    vector has neither one value per rotation parameter nor a single
    value. *)
Theorem pack_unpack_raise_iff (self : casscf) (M : matrix) (v : vector) :
  (raises (pack_uniq_var self M)
   <-> tril_out_of_view self \/ frozen_not_indexable self
       \/ ~ has_shape M (nmo self) (nmo self)) /\
  (raises (unpack_uniq_var self v)
   <-> tril_out_of_view self \/ frozen_not_indexable self
       \/ (length v <> uniq_count self /\ length v <> 1%nat)).
Proof.
  pose proof (uniq_var_indices_raises_iff self) as Hidx.
  unfold pack_uniq_var, unpack_uniq_var, uniq_count.
  destruct (uniq_var_indices self (nmo self) (ncore self) (ncas self)
              (frozen self)) as [idx|e] eqn:E; simpl.
  - assert (Hno : ~ (tril_out_of_view self \/ frozen_not_indexable self)).
    { intros H. apply Hidx in H. destruct H as [e He]. discriminate. }
    split.
    + destruct (has_shapeb M (nmo self) (nmo self)) eqn:Hb.
      * apply has_shapeb_spec in Hb.
        split; [intros [e He]; discriminate | tauto].
      * split; [|intros _; eexists; reflexivity].
        intros _. right. right. intros Hs. apply has_shapeb_spec in Hs.
        congruence.
    + destruct (Nat.eqb_spec (length v) (count_true idx)) as [Hl|Hl]; simpl.
      * split; [intros [e He]; discriminate | tauto].
      * destruct v as [|x [|y v]]; simpl.
        -- split; [|intros _; eexists; reflexivity].
           intros _. right. right. split; [exact Hl | discriminate].
        -- split; [intros [e He]; discriminate|].
           intros [H|[H|[_ H]]]; [tauto | tauto | congruence].
        -- split; [|intros _; eexists; reflexivity].
           intros _. right. right. split; [exact Hl | discriminate].
  - assert (Hyes : tril_out_of_view self \/ frozen_not_indexable self).
    { apply Hidx. eexists; reflexivity. }
    split; (split; [intros _; tauto | intros _; eexists; reflexivity]).
Qed.

(** The two inputs on which the mask cannot be built. *)
Example pack_uniq_var_overfull :
  pack_uniq_var cas_overfull [[0; 0]; [0; 0]] = Raise index_error.
Proof. reflexivity. Qed.

Example unpack_uniq_var_frozen_empty :
  unpack_uniq_var cas3_frozen_empty [1; 2; 3] = Raise index_error.
Proof. reflexivity. Qed.

(** ** Packing followed by unpacking *)

(** Unpacking the packing of any nmo-by-nmo matrix keeps its entries at the
    positions of the mask, mirrors them with the opposite sign, and puts
    zero everywhere else: whatever the matrix has above the diagonal or in
    a redundant block is ignored. *)
Theorem unpack_pack_entries (self : casscf) (M : matrix) :
  valid_partition self ->
  has_shape M (nmo self) (nmo self) ->
  exists w A,
    pack_uniq_var self M = Ok w /\
    length w = uniq_count self /\
    unpack_uniq_var self w = Ok A /\
    forall i j, (i < nmo self)%nat -> (j < nmo self)%nat ->
      mget A i j = (if mask_entry self i j then mget M i j else 0)
                   - (if mask_entry self j i then mget M j i else 0).
Proof.
  intros Hvalid HM.
  destruct (uniq_var_indices_spec self Hvalid) as [idx [Hidx [Hsh Hent]]].
  set (n := nmo self) in *.
  assert (Hl : length (select idx M) = count_true idx)
    by (apply (select_length idx M n n); auto).
  destruct (unpack_entries self (select idx M) idx Hidx Hsh Hl)
    as [Hun [HF [HA HAe]]].
  exists (select idx M). eexists.
  split; [|split; [|split; [exact Hun|]]].
  - unfold pack_uniq_var. cbv zeta. fold n. rewrite Hidx. simpl.
    assert (Hb : has_shapeb M n n = true) by (apply has_shapeb_spec; auto).
    now rewrite Hb.
  - rewrite (uniq_count_spec self idx Hidx). exact Hl.
  - intros i j Hi Hj. fold n in HAe. rewrite HAe by auto.
    assert (HFe : forall a b, (a < n)%nat -> (b < n)%nat ->
              mget (fill idx (zeros n n) (select idx M)) a b
              = if mask_entry self a b then mget M a b else 0).
    { intros a b Ha Hb.
      rewrite <- (app_nil_r (select idx M)).
      rewrite (fill_select idx (zeros n n) M [] n n); auto.
      - rewrite Hent by auto. now rewrite zeros_get.
      - apply zeros_shape. }
    rewrite !HFe by auto. reflexivity.
Qed.

Lemma unpack_pack_entries_witness :
  valid_partition cas3 /\
  has_shape (eye 3) (nmo cas3) (nmo cas3) /\
  exists w A,
    pack_uniq_var cas3 (eye 3) = Ok w /\
    length w = uniq_count cas3 /\
    unpack_uniq_var cas3 w = Ok A /\
    forall i j, (i < nmo cas3)%nat -> (j < nmo cas3)%nat ->
      mget A i j = (if mask_entry cas3 i j then mget (eye 3) i j else 0)
                   - (if mask_entry cas3 j i then mget (eye 3) j i else 0).
Proof.
  assert (Hv : valid_partition cas3) by (split; simpl; auto; lia).
  assert (Hs : has_shape (eye 3) (nmo cas3) (nmo cas3)) by apply eye_shape.
  split; [exact Hv|]. split; [exact Hs|].
  exact (unpack_pack_entries cas3 (eye 3) Hv Hs).
Defined.

(** ** The zero step *)

Lemma fill_row_zero (mrow : list bool) :
  forall row v,
    Forall (fun x => x = 0) row -> Forall (fun x => x = 0) v ->
    Forall (fun x => x = 0) (fst (fill_row mrow row v)) /\
    Forall (fun x => x = 0) (snd (fill_row mrow row v)).
Proof.
  induction mrow as [|b mrow IH]; intros [|x row] v Hr Hv; simpl; auto.
  pose proof (Forall_inv Hr) as Hx. pose proof (Forall_inv_tail Hr) as Hrow.
  destruct b.
  - destruct v as [|y v].
    + destruct (IH row [] Hrow Hv) as [I1 I2].
      destruct (fill_row mrow row []). simpl in *. auto.
    + pose proof (Forall_inv Hv) as Hy.
      pose proof (Forall_inv_tail Hv) as Hv'.
      destruct (IH row v Hrow Hv') as [I1 I2].
      destruct (fill_row mrow row v). simpl in *. auto.
  - destruct (IH row v Hrow Hv) as [I1 I2].
    destruct (fill_row mrow row v). simpl in *. auto.
Qed.

Lemma fill_zero (mask : bmatrix) :
  forall M v,
    Forall (Forall (fun x => x = 0)) M -> Forall (fun x => x = 0) v ->
    Forall (Forall (fun x => x = 0)) (fill mask M v).
Proof.
  induction mask as [|mrow mask IH]; intros [|row M] v HM Hv; simpl; auto.
  pose proof (Forall_inv HM) as Hrow.
  pose proof (Forall_inv_tail HM) as HM'.
  destruct (fill_row_zero mrow row v Hrow Hv) as [I1 I2].
  destruct (fill_row mrow row v) as [r rest]. simpl in *.
  constructor; auto.
Qed.

Lemma mget_all_zero (M : matrix) (i j : nat) :
  Forall (Forall (fun x => x = 0)) M -> mget M i j = 0.
Proof.
  intros H. unfold mget.
  destruct (Nat.lt_ge_cases i (length M)) as [Hi|Hi].
  - rewrite Forall_forall in H.
    specialize (H (nth i M []) (nth_In M [] Hi)).
    destruct (Nat.lt_ge_cases j (length (nth i M []))) as [Hj|Hj].
    + rewrite Forall_forall in H. apply H, nth_In. exact Hj.
    + now rewrite nth_overflow.
  - rewrite (nth_overflow M) by exact Hi. now destruct j.
Qed.

Lemma zeros_all_zero (n m : nat) : Forall (Forall (fun x => x = 0)) (zeros n m).
Proof.
  unfold zeros. apply Forall_forall. intros row Hrow.
  apply repeat_spec in Hrow. subst. apply Forall_forall.
  intros x Hx. now apply repeat_spec in Hx.
Qed.

(** Unpacking the zero vector gives the zero matrix. *)
Lemma unpack_zero_vector (self : casscf) :
  valid_partition self ->
  exists dr,
    unpack_uniq_var self (repeat 0 (uniq_count self)) = Ok dr /\
    has_shape dr (nmo self) (nmo self) /\
    forall i j, (i < nmo self)%nat -> (j < nmo self)%nat -> mget dr i j = 0.
Proof.
  intros Hvalid.
  destruct (uniq_var_indices_spec self Hvalid) as [idx [Hidx [Hsh Hent]]].
  assert (Hl : length (repeat 0 (uniq_count self)) = count_true idx)
    by (rewrite repeat_length; apply uniq_count_spec; auto).
  destruct (unpack_entries self _ idx Hidx Hsh Hl) as [Hun [HF [HA HAe]]].
  eexists. split; [exact Hun|]. split; [exact HA|].
  intros i j Hi Hj. rewrite HAe by auto.
  assert (Hz : Forall (Forall (fun x => x = 0))
                 (fill idx (zeros (nmo self) (nmo self))
                    (repeat 0 (uniq_count self)))).
  { apply fill_zero; [apply zeros_all_zero|].
    apply Forall_forall. intros x Hx. now apply repeat_spec in Hx. }
  rewrite !(mget_all_zero _ _ _ Hz). ring.
Qed.

Lemma mmul_shape (A B : matrix) :
  has_shape (mmul A B) (length A) (length (hd [] B)).
Proof.
  unfold mmul. split.
  - apply length_map.
  - apply Forall_forall. intros row Hrow. apply in_map_iff in Hrow.
    destruct Hrow as [r [<- _]]. now rewrite length_map, length_seq.
Qed.

Lemma eye_hd_length (n : nat) : length (hd [] (eye n)) = n.
Proof.
  destruct n as [|n]; [reflexivity|].
  unfold eye. simpl. now rewrite length_map, length_seq.
Qed.

(** Multiplying by the identity on the right changes nothing. *)
Lemma mmul_eye (mo : matrix) (m n : nat) :
  has_shape mo m n -> mmul mo (eye n) = mo.
Proof.
  intros Hmo.
  apply (matrix_ext _ _ m n); auto.
  - pose proof (mmul_shape mo (eye n)) as H.
    rewrite eye_hd_length in H. destruct Hmo as [Hm _]. now rewrite Hm in H.
  - intros r c Hr Hc.
    rewrite mmul_get by (rewrite ?eye_hd_length; destruct Hmo; lia).
    rewrite (column_delta (eye n) n c (eye_shape n))
      by (intros j Hj; apply eye_get; auto).
    rewrite <- (has_shape_row mo m n r Hmo Hr).
    rewrite dot_delta. simpl. now rewrite Nat.sub_0_r.
Qed.

(** The rotation built from the zero step is the identity matrix, when
    [expm] returns the matrix exponential of what is unpacked, and rotating
    orbitals by it gives the same orbitals. *)
Theorem zero_step_is_identity (expm : matrix -> matrix) (self : casscf) :
  valid_partition self ->
  (forall dr, unpack_uniq_var self (repeat 0 (uniq_count self)) = Ok dr ->
     is_expm (nmo self) dr (expm dr)) ->
  update_rotate_matrix expm self (repeat 0 (uniq_count self)) None
    = Ok (eye (nmo self)) /\
  forall mo m, has_shape mo m (nmo self) ->
    rotate_mo self mo (eye (nmo self)) = mo.
Proof.
  intros Hvalid Hexp.
  destruct (unpack_zero_vector self Hvalid) as [dr [Hun [Hsh Hz]]].
  destruct (Hexp dr Hun) as [HU Hlim].
  split.
  - unfold update_rotate_matrix. rewrite Hun. simpl. unfold expmat.
    rewrite mscale_one. f_equal.
    apply (matrix_ext _ _ (nmo self) (nmo self)); auto; [apply eye_shape|].
    intros i j Hi Hj. rewrite eye_get by auto.
    apply (Un_cv_constant
             (fun N => expm_partial (nmo self) (mget dr) N i j)); auto.
    intros N. unfold expm_partial. rewrite fsum_S_first, fsum_zero.
    + simpl. unfold delta. field.
    + intros k _. simpl. rewrite fsum_zero; [unfold Rdiv; ring|].
      intros s Hs. rewrite Hz by auto. ring.
  - intros mo m Hmo. unfold rotate_mo. apply (mmul_eye mo m). exact Hmo.
Qed.

Lemma zero_step_is_identity_witness :
  valid_partition cas3 /\
  (forall dr, unpack_uniq_var cas3 (repeat 0 (uniq_count cas3)) = Ok dr ->
     is_expm (nmo cas3) dr ((fun _ => eye 3) dr)) /\
  update_rotate_matrix (fun _ => eye 3) cas3 (repeat 0 (uniq_count cas3)) None
    = Ok (eye (nmo cas3)).
Proof.
  assert (Hv : valid_partition cas3) by (split; simpl; auto; lia).
  assert (He : forall dr,
             unpack_uniq_var cas3 (repeat 0 (uniq_count cas3)) = Ok dr ->
             is_expm (nmo cas3) dr ((fun _ => eye 3) dr)).
  { intros dr Hun.
    destruct (unpack_zero_vector cas3 Hv) as [dr' [Hun' [_ Hz]]].
    rewrite Hun in Hun'. injection Hun' as <-.
    apply is_expm_zero. exact Hz. }
  split; [exact Hv|]. split; [exact He|].
  exact (proj1 (zero_step_is_identity (fun _ => eye 3) cas3 Hv He)).
Defined.

(** ** The micro iterations *)

Lemma accept_step_inv (max_stepsize : R) (st st' : micro_state)
    (it : davidson_item) :
  0 < max_stepsize ->
  accept_step max_stepsize st it = Ok st' ->
  ms_imic st' = (ms_imic st + 1)%Z /\
  exists dxi', Forall (fun x => Rabs x <= max_stepsize) dxi' /\
               ms_dr st' = Some (add_step (ms_dr st) dxi').
Proof.
  intros Hms H.
  assert (Hne : dxi it <> []).
  { intros E. unfold accept_step, clip_step in H. rewrite E in H.
    simpl in H. discriminate. }
  destruct (clip_step_spec max_stepsize (dxi it) (hdxi it) Hms Hne)
    as [dxmax [dxi' [hdxi' [scale [_ [Hclip [_ [_ Hall]]]]]]]].
  unfold accept_step in H. rewrite Hclip in H. simpl in H.
  injection H as <-. simpl. split; [reflexivity|].
  exists dxi'. auto.
Qed.

Lemma map2_Forall {A B C : Type} (P : A -> Prop) (Q : B -> Prop)
    (S : C -> Prop) (f : A -> B -> C) :
  (forall x y, P x -> Q y -> S (f x y)) ->
  forall a b, Forall P a -> Forall Q b -> Forall S (map2 f a b).
Proof.
  intros Hf. induction a as [|x a IH]; intros [|y b] Ha Hb; simpl;
    try constructor.
  - apply Hf; [exact (Forall_inv Ha) | exact (Forall_inv Hb)].
  - apply IH; [exact (Forall_inv_tail Ha) | exact (Forall_inv_tail Hb)].
Qed.

Lemma add_step_bound (max_stepsize : R) (k : Z) (dr : option vector)
    (dxi' : vector) :
  0 < max_stepsize -> (0 <= k)%Z ->
  match dr with
  | None => True
  | Some d => Forall (fun x => Rabs x <= IZR k * max_stepsize) d
  end ->
  Forall (fun x => Rabs x <= max_stepsize) dxi' ->
  Forall (fun x => Rabs x <= IZR (k + 1) * max_stepsize) (add_step dr dxi').
Proof.
  intros Hms Hk Hdr Hdx. rewrite plus_IZR.
  assert (Hk' : 0 <= IZR k) by (apply IZR_le; exact Hk).
  destruct dr as [d|]; simpl.
  - unfold vadd.
    apply (map2_Forall (fun x => Rabs x <= IZR k * max_stepsize)
             (fun x => Rabs x <= max_stepsize)); auto.
    intros x y Hx Hy. pose proof (Rabs_triang x y). lra.
  - apply Forall_forall. intros z Hz. apply in_map_iff in Hz.
    destruct Hz as [x [<- Hx]]. rewrite Forall_forall in Hdx.
    specialize (Hdx x Hx). rewrite Rplus_0_l. nra.
Qed.

Section MicroFor.

Variable self : casscf.
Variables max_stepsize conv_tol_grad ah_start_tol norm_gkf : R.
Variables ah_start_cycle max_cycle : Z.

Let run := micro_for self max_stepsize conv_tol_grad ah_start_tol
             ah_start_cycle norm_gkf max_cycle.

(** What the [for] loop keeps: [imic] counts the accepted steps and stays
    within max(1, max_cycle); every component of the accumulated step [dr]
    is bounded by [imic * max_stepsize]. *)
Lemma micro_for_invariant :
  0 < max_stepsize ->
  forall items st st',
    run items st = Ok st' ->
    (0 <= ms_imic st < Z.max 1 max_cycle)%Z ->
    match ms_dr st with
    | None => True
    | Some d => Forall (fun x => Rabs x <= IZR (ms_imic st) * max_stepsize) d
    end ->
    (ms_imic st <= ms_imic st' <= Z.max 1 max_cycle)%Z /\
    match ms_dr st' with
    | None => True
    | Some d => Forall (fun x => Rabs x <= IZR (ms_imic st') * max_stepsize) d
    end.
Proof.
  intros Hms. unfold run.
  induction items as [|it rest IH]; intros st st' H Hi Hdr; simpl in H.
  - injection H as <-. split; [lia | exact Hdr].
  - destruct (accepts self ah_start_tol ah_start_cycle it).
    + destruct (accept_step max_stepsize st it) as [st1|e] eqn:Hacc;
        simpl in H; [|discriminate].
      destruct (accept_step_inv max_stepsize st st1 it Hms Hacc)
        as [Himic [dxi' [Hall Hdr1]]].
      assert (Hinv1 : match ms_dr st1 with
                      | None => True
                      | Some d => Forall (fun x => Rabs x
                                    <= IZR (ms_imic st1) * max_stepsize) d
                      end).
      { rewrite Hdr1, Himic. apply add_step_bound; auto. lia. }
      destruct (Z.gtb (ms_imic st1) 1
                && Rgtb (ms_norm_gorb st1)
                     (norm_gkf * ah_grad_trust_region self)).
      * injection H as <-. split; [lia | exact Hinv1].
      * destruct (Z.geb (ms_imic st1) max_cycle) eqn:Hcap; simpl in H.
        -- injection H as <-. split; [lia | exact Hinv1].
        -- rewrite Z.geb_leb in Hcap. apply Z.leb_gt in Hcap.
           destruct (Rltb (ms_norm_gorb st1) (conv_tol_grad * (3 / 10))).
           ++ injection H as <-. split; [lia | exact Hinv1].
           ++ destruct (IH st1 st' H) as [G1 G2]; [lia | exact Hinv1 |].
              split; [lia | exact G2].
    + apply (IH _ st' H); simpl; auto.
Qed.

End MicroFor.

(** Started as [rotate_orb_cc] starts it ([imic = 0], [dr = 0]), the loop
    over the Davidson items accepts at most max(1, max_cycle_micro_inner)
    steps. *)
Theorem micro_for_step_count (self : casscf)
    (max_stepsize conv_tol_grad ah_start_tol norm_gkf : R)
    (ah_start_cycle max_cycle : Z) (items : list davidson_item)
    (st st' : micro_state) :
  0 < max_stepsize ->
  ms_imic st = 0%Z -> ms_dr st = None ->
  micro_for self max_stepsize conv_tol_grad ah_start_tol ah_start_cycle
    norm_gkf max_cycle items st = Ok st' ->
  (0 <= ms_imic st' <= Z.max 1 max_cycle)%Z.
Proof.
  intros Hms Hi Hdr H.
  destruct (micro_for_invariant self max_stepsize conv_tol_grad ah_start_tol
              norm_gkf ah_start_cycle max_cycle Hms items st st' H)
    as [G _]; [lia | rewrite Hdr; exact I | lia].
Qed.

(** Started the same way, the loop leaves in [dr] a step whose every
    component is at most [imic * max_stepsize] in absolute value. *)
Theorem micro_for_trust_region (self : casscf)
    (max_stepsize conv_tol_grad ah_start_tol norm_gkf : R)
    (ah_start_cycle max_cycle : Z) (items : list davidson_item)
    (st st' : micro_state) (dr : vector) :
  0 < max_stepsize ->
  ms_imic st = 0%Z -> ms_dr st = None ->
  micro_for self max_stepsize conv_tol_grad ah_start_tol ah_start_cycle
    norm_gkf max_cycle items st = Ok st' ->
  ms_dr st' = Some dr ->
  Forall (fun x => Rabs x <= IZR (ms_imic st') * max_stepsize) dr.
Proof.
  intros Hms Hi Hdr H Hdr'.
  destruct (micro_for_invariant self max_stepsize conv_tol_grad ah_start_tol
              norm_gkf ah_start_cycle max_cycle Hms items st st' H)
    as [_ G]; [lia | rewrite Hdr; exact I |].
  rewrite Hdr' in G. exact G.
Qed.

Lemma micro_for_one_step_run :
  exists st',
    micro_for cas3 1 1 1 1%Z 1 1%Z [item_large_step] micro_state_start
      = Ok st'.
Proof.
  destruct (clip_step_spec 1 (dxi item_large_step) (hdxi item_large_step))
    as [dxmax [dxi' [hdxi' [scale [_ [Hclip _]]]]]];
    [lra | discriminate |].
  eexists. unfold micro_for.
  change (accepts cas3 1 1%Z item_large_step) with true. cbv iota.
  unfold accept_step. rewrite Hclip. simpl. reflexivity.
Qed.

Lemma micro_for_step_count_witness :
  0 < 1 /\
  ms_imic micro_state_start = 0%Z /\
  ms_dr micro_state_start = None /\
  exists st',
    micro_for cas3 1 1 1 1%Z 1 1%Z [item_large_step] micro_state_start
      = Ok st' /\
    (0 <= ms_imic st' <= Z.max 1 1)%Z.
Proof.
  assert (Hms : 0 < 1) by lra.
  destruct micro_for_one_step_run as [st' Hrun].
  split; [exact Hms|]. split; [reflexivity|]. split; [reflexivity|].
  exists st'. split; [exact Hrun|].
  exact (micro_for_step_count cas3 1 1 1 1 1%Z 1%Z [item_large_step]
           micro_state_start st' Hms eq_refl eq_refl Hrun).
Defined.

Lemma micro_for_trust_region_witness :
  0 < 1 /\
  ms_imic micro_state_start = 0%Z /\
  ms_dr micro_state_start = None /\
  exists st' dr,
    micro_for cas3 1 1 1 1%Z 1 1%Z [item_large_step] micro_state_start
      = Ok st' /\
    ms_dr st' = Some dr /\
    Forall (fun x => Rabs x <= IZR (ms_imic st') * 1) dr.
Proof.
  assert (Hms : 0 < 1) by lra.
  destruct micro_for_one_step_run as [st' Hrun].
  assert (Hdr : exists dr, ms_dr st' = Some dr).
  { unfold micro_for in Hrun.
    change (accepts cas3 1 1%Z item_large_step) with true in Hrun.
    cbv iota in Hrun.
    destruct (accept_step 1 micro_state_start item_large_step) as [st1|e]
      eqn:Hacc; simpl in Hrun; [|discriminate].
    destruct (accept_step_inv 1 micro_state_start st1 item_large_step Hms Hacc)
      as [Himic [dxi' [_ Hd]]].
    rewrite Himic in Hrun. simpl in Hrun. injection Hrun as <-.
    eexists. exact Hd. }
  destruct Hdr as [dr Hdr].
  split; [exact Hms|]. split; [reflexivity|]. split; [reflexivity|].
  exists st', dr. split; [exact Hrun|]. split; [exact Hdr|].
  exact (micro_for_trust_region cas3 1 1 1 1 1%Z 1%Z [item_large_step]
           micro_state_start st' dr Hms eq_refl eq_refl Hrun Hdr).
Defined.

(** ** Counting the iterations of the driver *)

Section DriverCounts.

Variable co : collaborators.
Variable self : casscf.
Variable nmo_ : nat.
Variable tol : R.
Variable ctg : R.

Lemma micro_body_counters (mcm : Z) (st st' : kstate) (u : matrix)
    (g_orb : vector) (njk : Z) (go_on : bool) :
  micro_body co self nmo_ ctg mcm st u g_orb njk = Ok (go_on, st') ->
  ks_totmicro st' = ks_totmicro st /\
  ks_max_stepsize st' = ks_max_stepsize st.
Proof.
  unfold micro_body.
  destruct (Z.geb (ks_imicro st + 1) mcm).
  - intros H. injection H as <- <-. simpl. auto.
  - destruct (update_casdm _ _ _ _ _ _ _ _ _ _ _) as [[[[dm1 dm2] gci] fv]|e];
      simpl; [|discriminate].
    intros H. injection H as <- <-. simpl. auto.
Qed.

Lemma micro_loop_counters (mcm : Z) :
  forall fuel rota st st',
    micro_loop co self nmo_ ctg fuel mcm rota st = Ok st' ->
    (0 <= ks_imicro st < Z.max 1 mcm)%Z ->
    (0 <= ks_imicro st' <= Z.max 1 mcm)%Z /\
    ks_totmicro st' = ks_totmicro st /\
    ks_max_stepsize st' = ks_max_stepsize st.
Proof.
  induction fuel as [|fuel IH]; intros rota st st' H Hi; simpl in H.
  - injection H as <-. repeat split; auto; lia.
  - destruct (co_rota_next co rota (ks_casdm1 st) (ks_casdm2 st))
      as [[[[u g_orb] njk] rota']|].
    + destruct (micro_body co self nmo_ ctg mcm st u g_orb njk)
        as [[go_on st1]|e] eqn:Hb; simpl in H; [|discriminate].
      destruct (micro_body_frame co self nmo_ ctg mcm st st1 u g_orb njk go_on
                  Hb) as [_ [_ [_ [_ [F5 [_ F7]]]]]].
      destruct (micro_body_counters mcm st st1 u g_orb njk go_on Hb)
        as [C1 C2].
      destruct go_on.
      * specialize (F7 eq_refl).
        destruct (IH rota' st1 st' H) as [G1 [G2 G3]]; [lia|].
        repeat split; try lia; congruence.
      * injection H as <-. repeat split; auto; lia.
    + injection H as <-. repeat split; auto; lia.
Qed.

(** One macro iteration adds one to [imacro], at most
    max(1, max_cycle_micro) to [totmicro], and stores the step size of the
    scheduler. *)
Lemma macro_iter_counters (st st' : kstate) :
  macro_iter co self nmo_ tol ctg st = Ok st' ->
  ks_imacro st' = (ks_imacro st + 1)%Z /\
  (ks_totmicro st <= ks_totmicro st'
   <= ks_totmicro st + Z.max 1 (max_cycle_micro self))%Z /\
  ks_max_stepsize st'
    = Some (max_stepsize_scheduler self (ks_max_stepsize st) (ks_de st)).
Proof.
  unfold macro_iter. intros H.
  destruct (micro_loop _ _ _ _ _ _ _ _) as [st1|e] eqn:Hloop; simpl in H;
    [|discriminate].
  destruct (micro_loop_counters _ _ _ _ _ Hloop) as [C1 [C2 C3]];
    [simpl; unfold micro_cycle_scheduler; lia|].
  simpl in C2, C3. unfold micro_cycle_scheduler in C1.
  destruct (ks_njk st1); simpl in H; [|discriminate].
  destruct (ks_u st1); simpl in H; [|discriminate].
  destruct (ks_g_orb st1); simpl in H; [|discriminate].
  destruct (casci _ _ _ _ _) as [[[e_tot e_ci] fcivec]|e]; simpl in H;
    [|discriminate].
  destruct (make_rdm12 _ _ _ _) as [casdm1 casdm2].
  match type of H with
  | (conv <- ?c ;; _) = _ => destruct c as [conv|e]; simpl in H; [|discriminate]
  end.
  destruct (pack_uniq_var _ _) as [r0|e]; simpl in H; [|discriminate].
  injection H as <-. simpl. rewrite C2, C3. repeat split; auto; lia.
Qed.

Lemma macro_loop_invariant :
  forall fuel st st',
    macro_loop co self nmo_ tol ctg fuel st = Ok st' ->
    (Z.to_nat (max_cycle_macro self - ks_imacro st) <= fuel)%nat ->
    (ks_imacro st <= ks_imacro st'
     <= Z.max (ks_imacro st) (max_cycle_macro self))%Z /\
    (ks_conv st' = true \/ (max_cycle_macro self <= ks_imacro st')%Z) /\
    (ks_totmicro st <= ks_totmicro st'
     <= ks_totmicro st
        + (ks_imacro st' - ks_imacro st) * Z.max 1 (max_cycle_micro self))%Z.
Proof.
  induction fuel as [|fuel IH]; intros st st' H Hfuel; simpl in H.
  - destruct (negb (ks_conv st)
              && Z.ltb (ks_imacro st) (max_cycle_macro self)) eqn:G.
    + apply andb_true_iff in G. destruct G as [_ G]. apply Z.ltb_lt in G. lia.
    + injection H as <-. repeat split; lia.
  - destruct (negb (ks_conv st)
              && Z.ltb (ks_imacro st) (max_cycle_macro self)) eqn:G.
    + apply andb_true_iff in G. destruct G as [_ G]. apply Z.ltb_lt in G.
      destruct (macro_iter co self nmo_ tol ctg st) as [st1|e] eqn:Hit;
        simpl in H; [|discriminate].
      destruct (macro_iter_counters st st1 Hit) as [C1 [C2 _]].
      destruct (IH st1 st' H) as [G1 [G2 G3]]; [lia|].
      repeat split; try lia; auto; nia.
    + injection H as <-. apply andb_false_iff in G.
      repeat split; try lia.
      destruct G as [G|G].
      * left. now destruct (ks_conv st).
      * right. apply Z.ltb_ge in G. exact G.
Qed.

End DriverCounts.

(** The loop of the driver, entered as [kernel] enters it, makes at most
    [max_cycle_macro] macro iterations and at most max(1, max_cycle_micro)
    micro iterations in each; it is left unconverged only when all macro
    iterations are used up. *)
Theorem macro_loop_bounds (co : collaborators) (self : casscf) (nmo_ : nat)
    (tol ctg : R) (st st' : kstate) :
  ks_imacro st = 0%Z -> ks_totmicro st = 0%Z ->
  macro_loop co self nmo_ tol ctg (Z.to_nat (max_cycle_macro self)) st
    = Ok st' ->
  (0 <= ks_imacro st' <= Z.max 0 (max_cycle_macro self))%Z /\
  (ks_conv st' = false -> (max_cycle_macro self <= ks_imacro st')%Z) /\
  (0 <= ks_totmicro st'
   <= ks_imacro st' * Z.max 1 (max_cycle_micro self))%Z.
Proof.
  intros Hi Ht H.
  destruct (macro_loop_invariant co self nmo_ tol ctg _ st st' H)
    as [G1 [G2 G3]]; [rewrite Hi; lia|].
  rewrite Hi in G1, G3. rewrite Ht in G3.
  split; [lia|]. split; [|lia].
  intros Hc. destruct G2 as [G2|G2]; [congruence | exact G2].
Qed.

Lemma macro_loop_one_orbital :
  exists st',
    macro_loop co_trivial cas1 1 1 (effective_conv_tol_grad 1 None)
      (Z.to_nat (max_cycle_macro cas1)) kstate_start = Ok st' /\
    ks_conv st' = true.
Proof.
  destruct (macro_iter_one_orbital true false) as [st' [Hrun Hdone]].
  fold cas1 in Hrun.
  exists st'. split; [|exact Hdone].
  change (Z.to_nat (max_cycle_macro cas1)) with 1%nat.
  cbn -[macro_iter effective_conv_tol_grad].
  rewrite Hrun. cbn. rewrite Hdone. reflexivity.
Qed.

Lemma macro_loop_bounds_witness :
  ks_imacro kstate_start = 0%Z /\
  ks_totmicro kstate_start = 0%Z /\
  exists st',
    macro_loop co_trivial cas1 1 1 (effective_conv_tol_grad 1 None)
      (Z.to_nat (max_cycle_macro cas1)) kstate_start = Ok st' /\
    (0 <= ks_imacro st' <= Z.max 0 (max_cycle_macro cas1))%Z /\
    (ks_conv st' = false -> (max_cycle_macro cas1 <= ks_imacro st')%Z) /\
    (0 <= ks_totmicro st'
     <= ks_imacro st' * Z.max 1 (max_cycle_micro cas1))%Z.
Proof.
  destruct macro_loop_one_orbital as [st' [Hrun _]].
  split; [reflexivity|]. split; [reflexivity|].
  exists st'. split; [exact Hrun|].
  exact (macro_loop_bounds co_trivial cas1 1 1 (effective_conv_tol_grad 1 None)
           kstate_start st' eq_refl eq_refl Hrun).
Defined.

(** ** Runs of the driver that skip the optimisation *)

(** With no macro cycle allowed, and canonicalization without natural
    orbitals, the driver returns the energies and the CI vector of its first
    CASCI step, canonicalized, and reports no convergence. *)
Theorem kernel_without_macro_cycles (co : collaborators) (self : casscf)
    (mo : matrix) (tol : R) (conv_tol_grad : option R) (ci0 : option vector)
    (ms : option R) (e_tot : R) (e_ci : py_energy) (fcivec : vector) :
  (max_cycle_macro self <= 0)%Z ->
  canonicalization self = true -> natorb self = false ->
  Nat.eqb (ncas self) (shape1 mo) && negb (internal_rotation self) = false ->
  casci (co_casci_kernel co) self mo ci0 (Some (co_ao2mo co self mo))
    = Ok (e_tot, e_ci, fcivec) ->
  kernel co self mo tol conv_tol_grad ci0 ms
    = let casdm1 :=
        fst (make_rdm12 (co_fcisolver co) fcivec (ncas self) (nelecas self)) in
      let '(mo', fcivec', mo_energy) :=
        co_canonicalize co self mo fcivec (co_ao2mo co self mo) false false
          (Some casdm1) in
      Ok (false, e_tot, float_of e_ci, fcivec', mo', mo_energy).
Proof.
  intros Hcyc Hc Hn Hearly Hcas.
  unfold kernel. rewrite Hcas. simpl. rewrite Hearly.
  unfold kernel_optimise.
  destruct (make_rdm12 (co_fcisolver co) fcivec (ncas self) (nelecas self))
    as [casdm1 casdm2]. simpl fst.
  replace (Z.to_nat (max_cycle_macro self)) with 0%nat by lia.
  simpl macro_loop. cbv beta iota.
  assert (G : Z.ltb 0 (max_cycle_macro self) = false)
    by (apply Z.ltb_ge; exact Hcyc).
  simpl ks_conv. simpl ks_imacro. rewrite G. simpl.
  rewrite finish_returns by auto. reflexivity.
Qed.

Lemma kernel_without_macro_cycles_witness :
  (max_cycle_macro (with_options cas3 true false 0 4) <= 0)%Z /\
  canonicalization (with_options cas3 true false 0 4) = true /\
  natorb (with_options cas3 true false 0 4) = false /\
  Nat.eqb (ncas (with_options cas3 true false 0 4)) (shape1 (eye 3))
  && negb (internal_rotation (with_options cas3 true false 0 4)) = false /\
  casci (co_casci_kernel co_trivial) (with_options cas3 true false 0 4)
    (eye 3) None
    (Some (co_ao2mo co_trivial (with_options cas3 true false 0 4) (eye 3)))
    = Ok (0, PyFloat 0, [1]) /\
  kernel co_trivial (with_options cas3 true false 0 4) (eye 3) 1 None None
    None = Ok (false, 0, 0, [1], eye 3, [0]).
Proof.
  assert (H1 : (max_cycle_macro (with_options cas3 true false 0 4) <= 0)%Z)
    by (simpl; lia).
  split; [exact H1|]. split; [reflexivity|]. split; [reflexivity|].
  split; [reflexivity|]. split; [reflexivity|].
  exact (kernel_without_macro_cycles co_trivial
           (with_options cas3 true false 0 4) (eye 3) 1 None None None
           0 (PyFloat 0) [1] H1 eq_refl eq_refl eq_refl eq_refl).
Defined.

(** When the first CASCI step reports several roots, the driver fails with
    the RuntimeError of [casci], whatever its configuration. *)
Theorem kernel_multiple_roots (co : collaborators) (self : casscf)
    (mo : matrix) (tol : R) (conv_tol_grad : option R) (ci0 : option vector)
    (ms : option R) (e_tot : R) (roots : list R) (fcivec : vector) :
  co_casci_kernel co self mo ci0 (Some (co_ao2mo co self mo))
    = (e_tot, NpArray roots, fcivec) ->
  kernel co self mo tol conv_tol_grad ci0 ms
    = Raise (RuntimeError multiple_roots_msg).
Proof.
  intros H. unfold kernel, casci. rewrite H. reflexivity.
Qed.

Lemma kernel_multiple_roots_witness :
  co_casci_kernel co_two_roots cas3 (eye 3) None
    (Some (co_ao2mo co_two_roots cas3 (eye 3))) = (0, NpArray [0; 1], [1]) /\
  kernel co_two_roots cas3 (eye 3) 1 None None None
    = Raise (RuntimeError multiple_roots_msg).
Proof.
  split; [reflexivity|].
  exact (kernel_multiple_roots co_two_roots cas3 (eye 3) 1 None None None
           0 [0; 1] [1] eq_refl).
Defined.

Lemma kernel_early_return_witness :
  ncas cas1 = shape1 [[1]] /\
  internal_rotation cas1 = false /\
  canonicalization cas1 = true /\
  casci (co_casci_kernel co_trivial) cas1 [[1]] None
    (Some (co_ao2mo co_trivial cas1 [[1]])) = Ok (0, PyFloat 0, [1]) /\
  kernel co_trivial cas1 [[1]] 1 None None None
    = Ok (true, 0, 0, [1], [[1]], [0]).
Proof.
  split; [reflexivity|]. split; [reflexivity|]. split; [reflexivity|].
  split; [reflexivity|].
  exact (kernel_early_return co_trivial cas1 [[1]] 1 None None None
           0 (PyFloat 0) [1] eq_refl eq_refl eq_refl eq_refl).
Defined.

(** ** The step-size schedule *)

(** [max_stepsize_scheduler] halves the stored step size after an energy
    rise above [conv_tol] and otherwise resets it to [max_stepsize]; with a
    positive [max_stepsize] and a positive stored value (or none yet) the
    result is positive and never above the larger of the two. *)
Theorem max_stepsize_scheduler_spec (self : casscf) (stored : option R)
    (de : R) :
  0 < max_stepsize self ->
  match stored with Some x => 0 < x | None => True end ->
  let cur := match stored with Some x => x | None => max_stepsize self end in
  let r := max_stepsize_scheduler self stored de in
  0 < r /\
  r <= Rmax cur (max_stepsize self) /\
  (de > conv_tol self -> r = cur / 2) /\
  (de <= conv_tol self -> r = max_stepsize self).
Proof.
  intros Hms Hst cur r.
  assert (Hcur : 0 < cur) by (unfold cur; destruct stored; auto).
  pose proof (Rmax_l cur (max_stepsize self)) as Hl.
  pose proof (Rmax_r cur (max_stepsize self)) as Hr.
  unfold r, max_stepsize_scheduler. fold cur. unfold Rgtb.
  destruct (Rltb (conv_tol self) de) eqn:E.
  - apply Rltb_true in E.
    split; [lra|]. split; [lra|]. split; [intros _; lra | intros H; lra].
  - apply Rltb_false in E.
    rewrite sqrt_square by lra.
    split; [lra|]. split; [lra|]. split; [intros H; lra | reflexivity].
Qed.

Lemma max_stepsize_scheduler_spec_witness :
  0 < max_stepsize cas3 /\
  0 < max_stepsize_scheduler cas3 None 1 /\
  max_stepsize_scheduler cas3 None 1 = max_stepsize cas3 / 2.
Proof.
  assert (Hms : 0 < max_stepsize cas3) by (simpl; lra).
  destruct (max_stepsize_scheduler_spec cas3 None 1 Hms I)
    as [Hpos [_ [Hhalf _]]].
  split; [exact Hms|]. split; [exact Hpos|].
  apply Hhalf. simpl. lra.
Defined.

(** ** The CI response and the density matrices *)

(** With a CI solver that has an approximate kernel (state-averaged CI,
    DMRG and the like) [update_casdm] hands back the vector of that kernel
    untouched, its density matrices, and no gradient. *)
Theorem update_casdm_with_approx_kernel
    (hessian_co : casscf -> matrix -> matrix -> eris_t -> hessian_co_t)
    (safe_eigh : matrix -> matrix -> vector * matrix) (current_memory : R)
    (fcisolver : fcisolver_t) (self : casscf) (mo u : matrix)
    (fcivec : vector) (e_ci : R) (eris : eris_t) (envs : envs_t)
    (fn : matrix -> tensor4 -> nat -> nat * nat -> vector -> option R -> R ->
          py_energy * vector) :
  approx_kernel fcisolver = Some fn ->
  let h := hessian_co self mo u eris in
  let ci1 := snd (fn (hco_h1 h) (hco_h2 h) (ncas self) (nelecas self) fcivec
                    (approx_ci_tol self envs) (max_memory self)) in
  let rdm12 := make_rdm12 fcisolver ci1 (ncas self) (nelecas self) in
  update_casdm hessian_co safe_eigh current_memory fcisolver self mo u fcivec
    e_ci eris envs = Ok (fst rdm12, snd rdm12, None, ci1).
Proof.
  intros Hfn h ci1 rdm12. unfold update_casdm, solve_approx_ci.
  rewrite Hfn. simpl. fold h. fold ci1. fold rdm12.
  destruct rdm12; reflexivity.
Qed.

Lemma update_casdm_with_approx_kernel_witness :
  approx_kernel solver_with_approx_kernel
    = Some (fun _ _ _ _ ci0 tol _ => (echo_tol tol, ci0)) /\
  update_casdm hessian_co_zero (fun _ _ => ([], [])) 0
    solver_with_approx_kernel cas3 [] [] [1; 0] 0 eris_empty envs_empty
  = Ok ([[0]], [], None, [1; 0]).
Proof.
  split; [reflexivity|].
  exact (update_casdm_with_approx_kernel hessian_co_zero (fun _ _ => ([], []))
           0 solver_with_approx_kernel cas3 [] [] [1; 0] 0 eris_empty
           envs_empty (fun _ _ _ _ ci0 tol _ => (echo_tol tol, ci0)) eq_refl).
Defined.

(** Whatever path [update_casdm] takes, the density matrices it returns are
    those of the CI vector it returns. *)
Theorem update_casdm_consistent
    (hessian_co : casscf -> matrix -> matrix -> eris_t -> hessian_co_t)
    (safe_eigh : matrix -> matrix -> vector * matrix) (current_memory : R)
    (fcisolver : fcisolver_t) (self : casscf) (mo u : matrix)
    (fcivec : vector) (e_ci : R) (eris : eris_t) (envs : envs_t)
    (casdm1 : matrix) (casdm2 : tensor4) (g : option vector) (ci : vector) :
  update_casdm hessian_co safe_eigh current_memory fcisolver self mo u fcivec
    e_ci eris envs = Ok (casdm1, casdm2, g, ci) ->
  make_rdm12 fcisolver ci (ncas self) (nelecas self) = (casdm1, casdm2).
Proof.
  unfold update_casdm.
  destruct (solve_approx_ci _ _ _ _ _ _ _ _ _ _) as [[ci1 g1]|e]; simpl;
    [|discriminate].
  match goal with
  | |- (let (_, _) := make_rdm12 _ ?c _ _ in _) = _ -> _ =>
      destruct (make_rdm12 fcisolver c (ncas self) (nelecas self)) eqn:E
  end.
  intros H. injection H as <- <- <- <-. exact E.
Qed.

Lemma update_casdm_consistent_witness :
  update_casdm hessian_co_zero (fun _ _ => ([], [])) 0
    solver_with_approx_kernel cas3 [] [] [1; 0] 0 eris_empty envs_empty
  = Ok ([[0]], [], None, [1; 0]) /\
  make_rdm12 solver_with_approx_kernel [1; 0] (ncas cas3) (nelecas cas3)
  = ([[0]], []).
Proof.
  assert (H : update_casdm hessian_co_zero (fun _ _ => ([], [])) 0
                solver_with_approx_kernel cas3 [] [] [1; 0] 0 eris_empty
                envs_empty = Ok ([[0]], [], None, [1; 0])) by reflexivity.
  split; [exact H|].
  exact (update_casdm_consistent hessian_co_zero (fun _ _ => ([], [])) 0
           solver_with_approx_kernel cas3 [] [] [1; 0] 0 eris_empty envs_empty
           [[0]] [] None [1; 0] H).
Defined.

(** [solve_approx_ci] returns a CI gradient exactly on its response path
    (no approximate kernel, both [contract_2e] and [absorb_h1e] present),
    and then it is H ci0 - (e_ci - ecore) ci0; it fails only on that path,
    for an empty CI vector in the subspace response. *)
Theorem solve_approx_ci_gradient
    (safe_eigh : matrix -> matrix -> vector * matrix) (current_memory : R)
    (fcisolver : fcisolver_t) (self : casscf) (h1 : matrix) (h2 : tensor4)
    (ci0 : vector) (ecore e_ci : R) (envs : envs_t) :
  let run := solve_approx_ci safe_eigh current_memory fcisolver self h1 h2
               ci0 ecore e_ci envs in
  match approx_kernel fcisolver, contract_2e fcisolver,
        absorb_h1e fcisolver with
  | None, Some contract, Some absorb =>
      let hc := contract (absorb h1 h2 (ncas self) (nelecas self) (/ 2)) ci0
                  (ncas self) (nelecas self) in
      (raises run <-> (ci_response_space self <= 7)%Z /\ ci0 = []) /\
      forall ci1 g, run = Ok (ci1, g) ->
        g = Some (vsub hc (vscale (e_ci - ecore) ci0))
  | _, _, _ =>
      exists ci1, run = Ok (ci1, None)
  end.
Proof.
  intros run. unfold run, solve_approx_ci.
  destruct (approx_kernel fcisolver) as [fn|];
    [eexists; reflexivity|].
  destruct (contract_2e fcisolver) as [contract|];
    [|eexists; reflexivity].
  destruct (absorb_h1e fcisolver) as [absorb|];
    [|eexists; reflexivity].
  destruct (Z.gtb (ci_response_space self) 7) eqn:Hfull.
  - rewrite Z.gtb_ltb in Hfull. apply Z.ltb_lt in Hfull. split.
    + split; [intros [e He]; discriminate | intros [H _]; lia].
    + intros ci1 g H. injection H as _ <-. reflexivity.
  - rewrite Z.gtb_ltb in Hfull. apply Z.ltb_ge in Hfull.
    destruct (Nat.min (Z.to_nat (Z.max (ci_response_space self) 2))
                (length ci0)) as [|k] eqn:Hnd.
    + split.
      * split; [intros _|intros _; eexists; reflexivity].
        split; [exact Hfull|]. destruct ci0; [reflexivity | simpl in Hnd; lia].
      * intros ci1 g H. discriminate.
    + destruct (krylov _ _ _ _ _) as [xs ax]. split.
      * split; [intros [e He]; discriminate|].
        intros [_ ->]. simpl in Hnd. lia.
      * intros ci1 g H. injection H as _ <-. reflexivity.
Qed.

(** ** The preconditioner *)

Lemma level_shifted_diag_bound (self : casscf) (d : vector) (e : R) :
  Forall (fun h => / 100000000 <= Rabs h) (level_shifted_diag self d e).
Proof.
  unfold level_shifted_diag. rewrite map_map. apply Forall_forall.
  intros h Hin. apply in_map_iff in Hin as [a [<- _]].
  unfold Rltb. destruct (Rlt_dec _ _) as [Hlt|Hge].
  - rewrite Rabs_right; lra.
  - lra.
Qed.

Lemma level_shifted_diag_length (self : casscf) (d : vector) (e : R) :
  length (level_shifted_diag self d e) = length d.
Proof. unfold level_shifted_diag. now rewrite !length_map. Qed.

Lemma map2_div_exists (x : vector) :
  forall hd, length hd = length x ->
    Forall (fun h => h <> 0) hd ->
    Exists (fun a => a <> 0) x ->
    Exists (fun a => a <> 0) (map2 Rdiv x hd).
Proof.
  induction x as [|a x IH]; intros [|h hd] Hl Hhd Hx; simpl in *;
    try discriminate; [inversion Hx|].
  pose proof (Forall_inv Hhd) as Hh. pose proof (Forall_inv_tail Hhd) as Ht.
  inversion Hx as [? ? Ha|? ? Hrest]; subst.
  - apply Exists_cons_hd. unfold Rdiv. apply Rmult_integral_contrapositive.
    split; [exact Ha | now apply Rinv_neq_0_compat].
  - apply Exists_cons_tl. apply IH; auto.
Qed.

Lemma exists_nonzero_norm (v : vector) :
  Exists (fun a => a <> 0) v -> norm v <> 0.
Proof.
  intros Hex Hn. unfold norm in Hn.
  apply sqrt_eq_0 in Hn; [|apply dot_self_nonneg].
  apply dot_self_zero in Hn. apply Exists_exists in Hex as [a [Hin Ha]].
  rewrite Forall_forall in Hn. exact (Ha (Hn a Hin)).
Qed.

(** With the Hessian diagonal given as an array of the length of [x], the
    preconditioner never divides by a number of magnitude below 1e-8, and
    for an [x] that is not zero everywhere its result has norm one. *)
Theorem precond_unit_norm (self : casscf) (d x : vector) (e : R) :
  length d = length x ->
  Exists (fun a => a <> 0) x ->
  Forall (fun h => / 100000000 <= Rabs h) (level_shifted_diag self d e) /\
  length (precond self (HDiagArray d) x e) = length x /\
  norm (precond self (HDiagArray d) x e) = 1.
Proof.
  intros Hl Hx. pose proof (level_shifted_diag_bound self d e) as Hb.
  split; [exact Hb|].
  assert (Hnz : Forall (fun h => h <> 0) (level_shifted_diag self d e)).
  { eapply Forall_impl; [|exact Hb]. intros h Hh H0. rewrite H0, Rabs_R0 in Hh.
    lra. }
  unfold precond. split.
  - unfold vscale. rewrite length_map.
    pose proof (level_shifted_diag_length self d e) as Hld.
    revert Hld Hl. generalize (level_shifted_diag self d e).
    clear. revert d. induction x as [|a x IH]; intros d [|h hd] Hld Hl;
      simpl in *; auto; try (destruct d; simpl in *; discriminate).
    destruct d as [|b d]; [discriminate|]. simpl in *.
    f_equal. apply (IH d); lia.
  - apply normalize_unit. apply exists_nonzero_norm.
    apply map2_div_exists; auto.
    rewrite level_shifted_diag_length. exact Hl.
Qed.

Lemma precond_unit_norm_witness :
  Forall (fun h => / 100000000 <= Rabs h)
    (level_shifted_diag cas3 [0; 2] 0) /\
  length (precond cas3 (HDiagArray [0; 2]) [3; 4] 0) = 2%nat /\
  norm (precond cas3 (HDiagArray [0; 2]) [3; 4] 0) = 1.
Proof.
  apply (precond_unit_norm cas3 [0; 2] [3; 4] 0).
  - reflexivity.
  - apply Exists_cons_hd. lra.
Defined.
